(** * Stillinger-Weber force routine of potfit ([force_stiweb.c])

    A shallow embedding of [calc_forces_stiweb] and
    [update_stiweb_pointers], and the properties of the two-body term, the
    three-body term, the per-configuration residuals, the parameter views
    and the control protocol that the design document states about them.

    C [double] arithmetic is kept behind the interface [Double], so every
    definition below is the C text with that interface's operations.  Two
    instances are given: the real numbers (exact arithmetic, used where a
    statement is an algebraic identity) and IEEE binary64 (the kernel's
    primitive floats, used to run the code on concrete inputs and for
    not-a-number). *)

From Stdlib Require Import ZArith Reals Lra Lia List Bool Field.
From Stdlib Require Import Floats.
From stdpp Require Import base list.
Import ListNotations.

Unset Default Proof Using.

(** ** Arithmetic of [double] *)

Module Arith.

(** The operations the routine applies to [double] values. [of_int] is the
    conversion from [int] (and the integer-valued literals [0.], [1.0],
    [3.0], [2]); [dlit m e] is the decimal literal [m]e[e]. *)
Class Double : Type := {
  dbl : Type;
  dadd : dbl -> dbl -> dbl;
  dsub : dbl -> dbl -> dbl;
  dmul : dbl -> dbl -> dbl;
  ddiv : dbl -> dbl -> dbl;
  dneg : dbl -> dbl;
  dlt : dbl -> dbl -> bool;
  deqb : dbl -> dbl -> bool;
  disnan : dbl -> bool;
  of_int : Z -> dbl;
  dlit : Z -> Z -> dbl
}.

(** The two libm entry points the routine reaches: [exp] directly and
    [pow] through [power_m]. *)
Class Libm (D : Double) : Type := {
  dexp : dbl -> dbl;
  dpow : dbl -> dbl -> dbl
}.

Declare Scope dbl_scope.
Delimit Scope dbl_scope with D.
Bind Scope dbl_scope with dbl.
Infix "+" := dadd : dbl_scope.
Infix "-" := dsub : dbl_scope.
Infix "*" := dmul : dbl_scope.
Infix "/" := ddiv : dbl_scope.
Notation "- x" := (dneg x) : dbl_scope.
Infix "<?" := dlt : dbl_scope.
Infix "=?" := deqb : dbl_scope.

Definition d0 `{Double} : dbl := of_int 0.
Definition d1 `{Double} : dbl := of_int 1.

#[export] Instance dbl_inhabited `{Double} : Inhabited dbl := populate d0.

(** Exact arithmetic: the operations form a field and [<] is irreflexive.
    The real numbers satisfy it; binary64 does not (rounding). *)
Class Exact (D : Double) : Prop := {
  dbl_field :
    field_theory d0 d1 dadd dmul dsub dneg ddiv (fun x => ddiv d1 x) eq;
  dlt_irrefl : forall x : dbl, dlt x x = false
}.

(** *** The real numbers *)

Definition Rlit (m e : Z) : R :=
  if (0 <=? e)%Z then IZR (m * 10 ^ e) else (IZR m / IZR (10 ^ (- e)))%R.

#[export] Instance real_double : Double := {|
  dbl := R;
  dadd := Rplus; dsub := Rminus; dmul := Rmult; ddiv := Rdiv; dneg := Ropp;
  dlt := fun a b => if Rlt_dec a b then true else false;
  deqb := fun a b => if Req_dec_T a b then true else false;
  disnan := fun _ => false;
  of_int := IZR;
  dlit := Rlit
|}.

#[export] Instance real_libm : Libm real_double := {|
  dexp := exp;
  dpow := Rpower
|}.

(** *** IEEE binary64

    [float_of_Z] rounds an integer to the nearest double.  A literal with a
    negative exponent is the quotient of two integers that are doubles
    themselves ([0.5] is 5/10, [0.01] is 1/100), so the correctly rounded
    division gives the double the C compiler reads. *)

Definition float_of_Z (z : Z) : float :=
  SF2Prim (binary_normalize prec emax z 0 false).

Definition float_lit (m e : Z) : float :=
  if (0 <=? e)%Z then float_of_Z (m * 10 ^ e)
  else PrimFloat.div (float_of_Z m) (float_of_Z (10 ^ (- e))).

#[export] Instance binary64_double : Double := {|
  dbl := float;
  dadd := PrimFloat.add; dsub := PrimFloat.sub; dmul := PrimFloat.mul;
  ddiv := PrimFloat.div; dneg := PrimFloat.opp;
  dlt := PrimFloat.ltb;
  deqb := PrimFloat.eqb;
  disnan := PrimFloat.is_nan;
  of_int := float_of_Z;
  dlit := float_lit
|}.

End Arith.
Import Arith.


(** ** Build switches and collaborators outside the file *)

(** The preprocessor switches of the translation unit ([#ifdef MPI],
    [STRESS], [FWEIGHT], [CONTRIB]); [DEBUG] only prints. *)
Class Build : Type := {
  MPI : bool;
  STRESS : bool;
  FWEIGHT : bool;
  CONTRIB : bool
}.

(** A pointer to [double] is an address counted in doubles; [xi + index] is
    address arithmetic.  Memory maps addresses to the doubles stored there. *)
Definition ptr : Type := Z.
Definition NULL : ptr := 0%Z.
Definition heap {D : Double} : Type := ptr -> dbl.

(** What the routine uses and the file does not define: the macro
    [FORCE_EPS], and the functions [apot_check_params] (clamps the vector in
    place) and [apot_punish] (returns the penalty and writes its own slots of
    the output buffer). *)
Class Extern (D : Double) : Type := {
  FORCE_EPS : dbl;
  apot_check_params : heap -> ptr -> heap;
  apot_punish : heap -> ptr -> list dbl -> dbl * list dbl
}.

(** ** Data model *)

Section Model.
Context {D : Double}.

Record vector : Type := mk_vector { vx : dbl; vy : dbl; vz : dbl }.

(** [neigh_t]: the fields the routine reads, and the cache [f], [df] it
    writes. [n_col0] is [col[0]]. *)
Record neigh_t : Type := mk_neigh {
  n_typ : nat;
  n_nr : nat;
  n_r : dbl;
  n_inv_r : dbl;
  n_dist : vector;
  n_rdist : vector;
  n_col0 : nat;
  n_ijk_start : nat;
  n_f : dbl;
  n_df : dbl
}.

(** [angl]: only the field [cos] is read. *)
Record angl : Type := mk_angl { a_cos : dbl }.

(** [atom_t]; [n_neigh] is the length of [at_neigh]. *)
Record atom_t : Type := mk_atom {
  at_typ : nat;
  at_neigh : list neigh_t;
  at_angl_part : list angl;
  at_absforce : dbl;
  at_contrib : bool
}.

Definition n_neigh (a : atom_t) : nat := length (at_neigh a).

(** [sw_t]: the named views, arrays of pointers into the parameter vector. *)
Record sw_t : Type := mk_sw {
  sw_init : bool;
  sw_A : list ptr;
  sw_B : list ptr;
  sw_p : list ptr;
  sw_q : list ptr;
  sw_delta : list ptr;
  sw_a1 : list ptr;
  sw_gamma : list ptr;
  sw_a2 : list ptr;
  sw_lambda : list (list (list ptr))
}.

(** The globals the routine reads and never writes. *)
Record globals : Type := mk_globals {
  myid : Z;
  nconf : nat;
  firstconf : nat;
  firstatom : nat;
  inconf : list nat;
  cnfstart : list nat;
  conf_uf : list bool;
  conf_us : list bool;
  conf_vol : list dbl;
  conf_weight : list dbl;
  force_0 : list dbl;
  energy_p : nat;
  stress_p : nat;
  eweight : dbl;
  sweight : dbl;
  paircol : nat;
  ntypes : nat
}.

(** What a call can change: the memory of the parameter vector, the output
    buffer, the neighbour caches inside [conf_atoms], the views, [myconf]
    and the call counter. *)
Record state : Type := mk_state {
  mem : heap;
  forces : list dbl;
  conf_atoms : list atom_t;
  sw : sw_t;
  myconf : nat;
  fcalls : Z
}.

#[export] Instance vector_inhabited : Inhabited vector :=
  populate (mk_vector d0 d0 d0).
#[export] Instance neigh_inhabited : Inhabited neigh_t :=
  populate (mk_neigh 0 0 d0 d0 inhabitant inhabitant 0 0 d0 d0).
#[export] Instance angl_inhabited : Inhabited angl := populate (mk_angl d0).
#[export] Instance atom_inhabited : Inhabited atom_t :=
  populate (mk_atom 0 [] [] d0 false).

(** *** Array accesses

    An access outside an array is undefined in C.  Here a read outside
    yields the default ([0.], [NULL], [false], [0]) and a write outside does
    nothing; the statements that depend on an access being inside say so. *)

Definition rdp (v : list ptr) (i : nat) : ptr := default NULL (v !! i).

Definition rdp3 (v : list (list (list ptr))) (i j k : nat) : ptr :=
  rdp (default [] (default [] (v !! i) !! j)) k.

Definition rdb (v : list bool) (i : nat) : bool := default false (v !! i).

(** [forces[i] += v], [forces[i] -= v], [forces[i] /= v]. *)
Definition add_at (b : list dbl) (i : nat) (v : dbl) : list dbl :=
  <[i := ((b !!! i) + v)%D]> b.
Definition sub_at (b : list dbl) (i : nat) (v : dbl) : list dbl :=
  <[i := ((b !!! i) - v)%D]> b.
Definition div_at (b : list dbl) (i : nat) (v : dbl) : list dbl :=
  <[i := ((b !!! i) / v)%D]> b.

(** [*(sw->name[col])] and [*(sw->lambda[i][j][k])]. *)
Definition par (h : heap) (v : list ptr) (col : nat) : dbl := h (rdp v col).
Definition par3 (h : heap) (v : list (list (list ptr))) (i j k : nat) : dbl :=
  h (rdp3 v i j k).

(** ** [update_stiweb_pointers] *)

(** The state of [apot_table.sw] before the first call: [init] is 0 and
    nothing is allocated. *)
Definition sw_start : sw_t := mk_sw false [] [] [] [] [] [] [] [] [].

(** Lines 437-464: allocation on first use.  Every pair view gets [paircol]
    null pointers; [lambda] gets [paircol] entries of which the first
    [ntypes] are allocated as [ntypes] by [ntypes] tables (their content is
    indeterminate in C, [NULL] here). *)
Definition sw_alloc (paircol ntypes : nat) : sw_t :=
  let nulls := replicate paircol NULL in
  let lam :=
    fold_left
      (fun lam i =>
         <[i := fold_left (fun row j => <[j := replicate ntypes NULL]> row)
                  (seq 0 ntypes) (replicate ntypes [])]> lam)
      (seq 0 ntypes) (replicate paircol []) in
  mk_sw true nulls nulls nulls nulls nulls nulls nulls nulls lam.

(** Lines 469-477, one round of the first loop: six views take consecutive
    addresses, then [index += 2]. *)
Definition set_pair_views (xi : ptr) (st : sw_t * Z) (i : nat) : sw_t * Z :=
  let '(s, index) := st in
  (mk_sw (sw_init s)
     (<[i := (xi + index)%Z]> (sw_A s))
     (<[i := (xi + (index + 1))%Z]> (sw_B s))
     (<[i := (xi + (index + 2))%Z]> (sw_p s))
     (<[i := (xi + (index + 3))%Z]> (sw_q s))
     (<[i := (xi + (index + 4))%Z]> (sw_delta s))
     (<[i := (xi + (index + 5))%Z]> (sw_a1 s))
     (sw_gamma s) (sw_a2 s) (sw_lambda s),
   (index + 6 + 2)%Z).

(** Lines 478-482, one round of the second loop. *)
Definition set_triple_views (xi : ptr) (st : sw_t * Z) (i : nat) : sw_t * Z :=
  let '(s, index) := st in
  (mk_sw (sw_init s) (sw_A s) (sw_B s) (sw_p s) (sw_q s) (sw_delta s) (sw_a1 s)
     (<[i := (xi + index)%Z]> (sw_gamma s))
     (<[i := (xi + (index + 1))%Z]> (sw_a2 s))
     (sw_lambda s),
   (index + 2 + 2)%Z).

(** [sw->lambda[i][j][k] = p]. *)
Definition set_lambda (lam : list (list (list ptr))) (i j k : nat) (p : ptr)
  : list (list (list ptr)) :=
  let plane := default [] (lam !! i) in
  let row := default [] (plane !! j) in
  <[i := <[j := <[k := p]> row]> plane]> lam.

(** Lines 484-487: the three nested loops over [ntypes]. *)
Definition set_lambda_views (ntypes : nat) (xi : ptr)
    (st : list (list (list ptr)) * Z) : list (list (list ptr)) * Z :=
  fold_left (fun st i =>
    fold_left (fun st j =>
      fold_left (fun st k =>
        let '(lam, index) := st in
        (set_lambda lam i j k (xi + index)%Z, (index + 1)%Z))
        (seq 0 ntypes) st)
      (seq 0 ntypes) st)
    (seq 0 ntypes) st.

(** Lines 468-487: the rebuild of every view from [xi], starting at
    [index]. *)
Definition rebuild_views (paircol ntypes : nat) (xi : ptr) (index : Z)
    (s : sw_t) : sw_t :=
  let st := fold_left (set_pair_views xi) (seq 0 paircol) (s, index) in
  let st := fold_left (set_triple_views xi) (seq 0 paircol) st in
  let '(s, index) := st in
  let '(lam, _) := set_lambda_views ntypes xi (sw_lambda s, index) in
  mk_sw (sw_init s) (sw_A s) (sw_B s) (sw_p s) (sw_q s) (sw_delta s) (sw_a1 s)
    (sw_gamma s) (sw_a2 s) lam.

Definition update_stiweb_pointers (paircol ntypes : nat) (xi : ptr) (s : sw_t)
  : sw_t :=
  let index := 2%Z in
  (* allocate if this has not been done *)
  let s := if sw_init s then s else sw_alloc paircol ntypes in
  (* update only if the address has changed *)
  if negb (rdp (sw_A s) 0 =? xi + index)%Z
  then rebuild_views paircol ntypes xi index s
  else s.

End Model.

(** ** [calc_forces_stiweb]: the loop over configurations *)

Section Force.
Context {D : Double} {M : Libm D} {Bd : Build} {X : Extern D}.
Local Open Scope dbl_scope.

(** Modelled from the spec: the macro [dsquare] is defined outside the file;
    the residuals it is applied to are "squared". *)
Definition dsquare (d : dbl) : dbl := d * d.

(** Modelled from the spec: [power_m] is defined outside the file; it is the
    "combined two-exponent power routine", [power[i] = pow(x[i], y[i])] for
    the first [n] entries. *)
Definition power_m (n : nat) (x y : list dbl) : list dbl :=
  take n (zip_with dpow x y).

(** The quantities of the pair term that lines 191-200 compute. *)
Record pair_vals : Type := mk_pair_vals {
  phi_r : dbl;
  phi_a : dbl;
  inv_c : dbl;
  f_cut : dbl;
  v2_val : dbl
}.

(** Lines 191-200. *)
Definition pair_eval (s : sw_t) (h : heap) (nj : neigh_t) : pair_vals :=
  let col := n_col0 nj in
  let x0 := n_r nj in
  let x1 := x0 in
  let y0 := - par h (sw_p s) col in
  let y1 := - par h (sw_q s) col in
  let power := power_m 2 [x0; x1] [y0; y1] in
  let phi_r := par h (sw_A s) col * (power !!! 0%nat) in
  let phi_a := - par h (sw_B s) col * (power !!! 1%nat) in
  let inv_c := d1 / (n_r nj - par h (sw_a1 s) col) in
  let f_cut := dexp (par h (sw_delta s) col * inv_c) in
  let v2_val := (phi_r + phi_a) * f_cut in
  mk_pair_vals phi_r phi_a inv_c f_cut v2_val.

(** Lines 202-203; the C code assigns [v2_grad] only under [if (uf)]. *)
Definition pair_grad (s : sw_t) (h : heap) (nj : neigh_t) (pv : pair_vals)
  : dbl :=
  let col := n_col0 nj in
  - v2_val pv * par h (sw_delta s) col * inv_c pv * inv_c pv
  - f_cut pv * n_inv_r nj
    * (par h (sw_p s) col * phi_r pv + par h (sw_q s) col * phi_a pv).

(** Lines 188-234: the pair potential part for one neighbour.  [k] is the
    force slot of the central atom, [self] the self-interaction test. *)
Definition pair_part (g : globals) (s : sw_t) (h : heap) (uf us : bool)
    (hc k : nat) (self : bool) (nj : neigh_t) (forces : list dbl) : list dbl :=
  let col := n_col0 nj in
  if n_r nj <? par h (sw_a1 s) col then
    let pv := pair_eval s h nj in
    (* avoid double counting if atom is interacting with a copy of itself *)
    let v2 := if self then v2_val pv * dlit 5 (-1) else v2_val pv in
    (* only half cohesive energy because of full neighbor list *)
    let forces := add_at forces (energy_p g + hc) (dlit 5 (-1) * v2) in
    if uf then
      let v2_grad := pair_grad s h nj pv in
      let v2_grad := if self then v2_grad * dlit 5 (-1) else v2_grad in
      let tmp_force :=
        mk_vector (vx (n_dist nj) * v2_grad) (vy (n_dist nj) * v2_grad)
          (vz (n_dist nj) * v2_grad) in
      let forces := add_at forces k (vx tmp_force) in
      let forces := add_at forces (k + 1) (vy tmp_force) in
      let forces := add_at forces (k + 2) (vz tmp_force) in
      if STRESS && us then
        let stresses := (stress_p g + 6 * hc)%nat in
        let forces :=
          sub_at forces stresses
            (dlit 5 (-1) * vx (n_rdist nj) * vx tmp_force) in
        let forces :=
          sub_at forces (stresses + 1)
            (dlit 5 (-1) * vy (n_rdist nj) * vy tmp_force) in
        let forces :=
          sub_at forces (stresses + 2)
            (dlit 5 (-1) * vz (n_rdist nj) * vz tmp_force) in
        let forces :=
          sub_at forces (stresses + 3)
            (dlit 5 (-1) * vx (n_rdist nj) * vy tmp_force) in
        let forces :=
          sub_at forces (stresses + 4)
            (dlit 5 (-1) * vy (n_rdist nj) * vz tmp_force) in
        sub_at forces (stresses + 5)
          (dlit 5 (-1) * vz (n_rdist nj) * vx tmp_force)
      else forces
    else forces
  else forces.

(** Lines 236-248 ("calculate for later"): the cutoff envelope cached in the
    neighbour. *)
Definition cutoff_part (s : sw_t) (h : heap) (nj : neigh_t) : neigh_t :=
  let col := n_col0 nj in
  if n_r nj <? par h (sw_a2 s) col then
    let tmp_r := n_r nj - par h (sw_a2 s) col in
    if tmp_r <? - dlit 1 (-2) * par h (sw_gamma s) col then
      let tmp_r := d1 / tmp_r in
      let f := dexp (par h (sw_gamma s) col * tmp_r) in
      let df := - f * par h (sw_gamma s) col * tmp_r * tmp_r / n_r nj in
      mk_neigh (n_typ nj) (n_nr nj) (n_r nj) (n_inv_r nj) (n_dist nj)
        (n_rdist nj) (n_col0 nj) (n_ijk_start nj) f df
    else
      mk_neigh (n_typ nj) (n_nr nj) (n_r nj) (n_inv_r nj) (n_dist nj)
        (n_rdist nj) (n_col0 nj) (n_ijk_start nj) d0 d0
  else nj.

(** Lines 182-249: the loop over the neighbours [j] of atom [i] of
    configuration [hc].  It updates the buffer and the atom's neighbours. *)
Definition neigh_loop (g : globals) (s : sw_t) (h : heap) (uf us : bool)
    (hc i k : nat) (st : list dbl * atom_t) : list dbl * atom_t :=
  fold_left (fun st j =>
    let '(forces, a) := st in
    let nj := at_neigh a !!! j in
    (* In small cells, an atom might interact with itself *)
    let self := Nat.eqb (n_nr nj) (i + cnfstart g !!! hc) in
    let forces := pair_part g s h uf us hc k self nj forces in
    let nj := cutoff_part s h nj in
    (forces,
     mk_atom (at_typ a) (<[j := nj]> (at_neigh a)) (at_angl_part a)
       (at_absforce a) (at_contrib a)))
    (seq 0 (n_neigh (snd st))) st.

(** The two force vectors of one triple, lines 274-299. *)
Record triple_vals : Type := mk_triple_vals {
  v3_val : dbl;
  force_j : vector;
  force_k : vector
}.

Definition triple_eval (lambda : dbl) (nj nk : neigh_t) (n_angl : angl)
  : triple_vals :=
  (* potential term *)
  let tmp := a_cos n_angl + d1 / of_int 3 in
  let v3_val := lambda * n_f nj * n_f nk * tmp * tmp in
  (* forces *)
  let tmp_grad1 := lambda * n_f nj * n_f nk * of_int 2 * tmp in
  let tmp_grad2 := lambda * tmp * tmp in
  let tmp_jj := d1 / (n_r nj * n_r nj) in
  let tmp_jk := d1 / (n_r nj * n_r nk) in
  let tmp_kk := d1 / (n_r nk * n_r nk) in
  let tmp_1 :=
    tmp_grad2 * n_df nj * n_f nk - tmp_grad1 * a_cos n_angl * tmp_jj in
  let tmp_2 := tmp_grad1 * tmp_jk in
  let force_j :=
    mk_vector (tmp_1 * vx (n_rdist nj) + tmp_2 * vx (n_rdist nk))
      (tmp_1 * vy (n_rdist nj) + tmp_2 * vy (n_rdist nk))
      (tmp_1 * vz (n_rdist nj) + tmp_2 * vz (n_rdist nk)) in
  let tmp_1 :=
    tmp_grad2 * n_df nk * n_f nj - tmp_grad1 * a_cos n_angl * tmp_kk in
  let force_k :=
    mk_vector (tmp_1 * vx (n_rdist nk) + tmp_2 * vx (n_rdist nj))
      (tmp_1 * vy (n_rdist nk) + tmp_2 * vy (n_rdist nj))
      (tmp_1 * vz (n_rdist nk) + tmp_2 * vz (n_rdist nj)) in
  mk_triple_vals v3_val force_j force_k.

(** Lines 301-314: the forces of one triple written to the slots [k] of the
    central atom, [l] of neighbour j and [m] of neighbour k. *)
Definition triple_forces (k l m : nat) (fj fk : vector) (forces : list dbl)
  : list dbl :=
  (* update force on particle i *)
  let forces := add_at forces k (vx fj + vx fk) in
  let forces := add_at forces (k + 1) (vy fj + vy fk) in
  let forces := add_at forces (k + 2) (vz fj + vz fk) in
  (* update force on particle j *)
  let forces := sub_at forces l (vx fj) in
  let forces := sub_at forces (l + 1) (vy fj) in
  let forces := sub_at forces (l + 2) (vz fj) in
  (* update force on particle k *)
  let forces := sub_at forces m (vx fk) in
  let forces := sub_at forces (m + 1) (vy fk) in
  sub_at forces (m + 2) (vz fk).

(** Lines 318-327: the stress of one triple. *)
Definition triple_stress (stresses : nat) (fj fk rj rk : vector)
    (forces : list dbl) : list dbl :=
  let forces := add_at forces stresses (vx fj * vx rj + vx fk * vx rk) in
  let forces := add_at forces (stresses + 1) (vy fj * vy rj + vy fk * vy rk) in
  let forces := add_at forces (stresses + 2) (vz fj * vz rj + vz fk * vz rk) in
  let forces :=
    add_at forces (stresses + 3)
      (dlit 5 (-1)
       * (vy fj * vz rj + vy fk * vz rk + vz fj * vy rj + vz fk * vy rk)) in
  let forces :=
    add_at forces (stresses + 4)
      (dlit 5 (-1)
       * (vz fj * vx rj + vz fk * vx rk + vx fj * vz rj + vx fk * vz rk)) in
  add_at forces (stresses + 5)
    (dlit 5 (-1)
     * (vx fj * vy rj + vx fk * vy rk + vy fj * vx rj + vy fk * vx rk)).

(** Lines 262-331: the body of the [kk] loop for neighbours [jj], [kk] of
    atom [a], reading the angular cache at [ijk]. *)
Definition triple_term (g : globals) (s : sw_t) (h : heap) (us : bool)
    (hc k : nat) (a : atom_t) (jj kk ijk : nat) (forces : list dbl)
  : list dbl :=
  let nj := at_neigh a !!! jj in
  let l := (3 * n_nr nj)%nat in
  let n_angl := at_angl_part a !!! ijk in
  let nk := at_neigh a !!! kk in
  let m := (3 * n_nr nk)%nat in
  (* check if we are inside the cutoff radius *)
  if n_r nk <? par h (sw_a2 s) (n_col0 nk) then
    let lambda := par3 h (sw_lambda s) (at_typ a) (n_typ nj) (n_typ nk) in
    (* shortcut for types without threebody interaction *)
    if d0 =? lambda then forces
    else
      let tv := triple_eval lambda nj nk n_angl in
      (* total potential *)
      let forces := add_at forces (energy_p g + hc) (v3_val tv) in
      let forces := triple_forces k l m (force_j tv) (force_k tv) forces in
      if STRESS && us then
        triple_stress (stress_p g + 6 * hc) (force_j tv) (force_k tv)
          (n_rdist nj) (n_rdist nk) forces
      else forces
  else forces.

(** Lines 261-332: the loop over the remaining neighbours [kk > jj]; the
    index [ijk] into the angular cache advances once per round. *)
Definition kk_loop (g : globals) (s : sw_t) (h : heap) (us : bool)
    (hc k : nat) (a : atom_t) (jj : nat) (st : list dbl * nat)
  : list dbl * nat :=
  fold_left (fun st kk =>
    let '(forces, ijk) := st in
    (triple_term g s h us hc k a jj kk ijk forces, S ijk))
    (seq (jj + 1) (n_neigh a - (jj + 1))) st.

(** Lines 252-334: the loop over all neighbours [jj]. *)
Definition jj_loop (g : globals) (s : sw_t) (h : heap) (us : bool)
    (hc k : nat) (a : atom_t) (forces : list dbl) : list dbl :=
  fold_left (fun forces jj =>
    let nj := at_neigh a !!! jj in
    let ijk := n_ijk_start nj in
    (* check if we are inside the cutoff radius *)
    if n_r nj <? par h (sw_a2 s) (n_col0 nj) then
      fst (kk_loop g s h us hc k a jj (forces, ijk))
    else forces)
    (seq 0 (n_neigh a - 1)) forces.

(** Lines 162-174, first loop over atoms: reset forces. *)
Definition reset_loop (g : globals) (uf : bool) (hc : nat)
    (forces : list dbl) : list dbl :=
  fold_left (fun forces i =>
    let k := (3 * (cnfstart g !!! hc + i))%nat in
    if uf then
      let forces := <[k := - (force_0 g !!! k)]> forces in
      let forces := <[(k + 1)%nat := - (force_0 g !!! (k + 1)%nat)]> forces in
      <[(k + 2)%nat := - (force_0 g !!! (k + 2)%nat)]> forces
    else
      let forces := <[k := d0]> forces in
      let forces := <[(k + 1)%nat := d0]> forces in
      <[(k + 2)%nat := d0]> forces)
    (seq 0 (inconf g !!! hc)) forces.

(** The variables that live across the loops of one call: the output
    buffer, [conf_atoms], the local sum [tmpsum], and the local pointer
    [atom], kept as its index into [conf_atoms]. *)
Record locals : Type := mk_locals {
  l_forces : list dbl;
  l_atoms : list atom_t;
  l_tmpsum : dbl;
  l_atom : nat
}.

(** Lines 178-335, 2nd loop: pair forces and energies, then the three-body
    terms, for every atom [i] of configuration [hc].  Line 179 sets [atom];
    the atom is written back with its refreshed neighbour caches. *)
Definition second_loop (g : globals) (s : sw_t) (h : heap) (uf us : bool)
    (hc : nat) (st : locals) : locals :=
  fold_left (fun st i =>
    let atom := (i + cnfstart g !!! hc - firstatom g)%nat in
    let k := (3 * (cnfstart g !!! hc + i))%nat in
    let a := l_atoms st !!! atom in
    let '(forces, a) := neigh_loop g s h uf us hc i k (l_forces st, a) in
    let forces := jj_loop g s h us hc k a forces in
    mk_locals forces (<[atom := a]> (l_atoms st)) (l_tmpsum st) atom)
    (seq 0 (inconf g !!! hc)) st.

(** Lines 339-357, third loop over all atoms: sum up forces.  The loop does
    not assign [atom]: [atom->absforce] and [atom->contrib] are read through
    the pointer the second loop left behind. *)
Definition third_loop (g : globals) (uf : bool) (hc : nat) (st : locals)
  : locals :=
  if uf then
    fold_left (fun st i =>
      let n_i := (3 * (cnfstart g !!! hc + i))%nat in
      let a := l_atoms st !!! l_atom st in
      let forces := l_forces st in
      let forces :=
        if FWEIGHT then
          (* Weigh by absolute value of force *)
          let forces := div_at forces (n_i + 0) (FORCE_EPS + at_absforce a) in
          let forces := div_at forces (n_i + 1) (FORCE_EPS + at_absforce a) in
          div_at forces (n_i + 2) (FORCE_EPS + at_absforce a)
        else forces in
      (* sum up forces *)
      let tmpsum :=
        if negb CONTRIB || at_contrib a then
          l_tmpsum st
          + conf_weight g !!! hc
            * (dsquare (forces !!! n_i) + dsquare (forces !!! (n_i + 1)%nat)
               + dsquare (forces !!! (n_i + 2)%nat))
        else l_tmpsum st in
      mk_locals forces (l_atoms st) tmpsum (l_atom st))
      (seq 0 (inconf g !!! hc)) st
  else st.

(** Lines 360-363: energy contributions. *)
Definition energy_contrib (g : globals) (hc : nat) (st : locals) : locals :=
  let forces :=
    div_at (l_forces st) (energy_p g + hc) (of_int (Z.of_nat (inconf g !!! hc))) in
  let forces :=
    sub_at forces (energy_p g + hc) (force_0 g !!! (energy_p g + hc)%nat) in
  let tmpsum :=
    l_tmpsum st
    + conf_weight g !!! hc * eweight g
      * dsquare (forces !!! (energy_p g + hc)%nat) in
  mk_locals forces (l_atoms st) tmpsum (l_atom st).

(** Lines 364-373: stress contributions. *)
Definition stress_contrib (g : globals) (uf us : bool) (hc : nat) (st : locals)
  : locals :=
  if STRESS && (uf && us) then
    fold_left (fun st i =>
      let slot := (stress_p g + 6 * hc + i)%nat in
      let forces :=
        div_at (l_forces st) slot (conf_vol g !!! (hc - firstconf g)%nat) in
      let forces := sub_at forces slot (force_0 g !!! slot) in
      let tmpsum :=
        l_tmpsum st
        + conf_weight g !!! hc * sweight g * dsquare (forces !!! slot) in
      mk_locals forces (l_atoms st) tmpsum (l_atom st))
      (seq 0 6) st
  else st.

(** Lines 152-159: reset energies and stresses. *)
Definition reset_conf (g : globals) (hc : nat) (forces : list dbl) : list dbl :=
  let forces := <[(energy_p g + hc)%nat := d0]> forces in
  if STRESS then
    fold_left (fun forces i => <[(stress_p g + 6 * hc + i)%nat := d0]> forces)
      (seq 0 6) forces
  else forces.

(** Lines 151-375: the body of the loop over configurations. *)
Definition conf_body (g : globals) (s : sw_t) (h : heap) (st : locals)
    (hc : nat) : locals :=
  let uf := rdb (conf_uf g) (hc - firstconf g) in
  let us := rdb (conf_us g) (hc - firstconf g) in
  let forces := reset_conf g hc (l_forces st) in
  let forces := reset_loop g uf hc forces in
  let st := mk_locals forces (l_atoms st) (l_tmpsum st) (l_atom st) in
  let st := second_loop g s h uf us hc st in
  let st := third_loop g uf hc st in
  let st := energy_contrib g hc st in
  stress_contrib g uf us hc st.

Definition conf_loop (g : globals) (s : sw_t) (h : heap) (myconf : nat)
    (st : locals) : locals :=
  fold_left (conf_body g s h) (seq (firstconf g) myconf) st.

(** ** [calc_forces_stiweb]: one round of the endless loop *)

(** What the collectives of one round deliver to this process in an MPI
    build: the flag and the vector rank 0 broadcasts, and, at rank 0, the
    result of [MPI_Reduce] on the local sums and the output buffer after the
    three [MPI_Gatherv] calls. *)
Record mpi_round : Type := mk_mpi_round {
  bcast_flag : Z;
  bcast_xi : heap -> ptr -> heap;
  reduce_sum : dbl -> dbl;
  gather_forces : list dbl -> list dbl
}.

(** How one round of [while (1)] ends. *)
Inductive outcome : Type :=
| Returned (v : dbl) (st : state)
| Broke (st : state)
| Looping (flag : Z) (st : state).

(** The returned value, lines 416-422. [10e30] is the literal of the code. *)
Definition nan_guard (sum : dbl) : dbl :=
  if disnan sum then dlit 10 30 else sum.

(** The flag this process works with after [MPI_Bcast(&flag, ...)]: rank 0
    keeps its argument, the other ranks receive rank 0's. *)
Definition seen_flag (g : globals) (c : mpi_round) (flag : Z) : Z :=
  if MPI && negb (myid g =? 0)%Z then bcast_flag c else flag.

(** Lines 107-118: the memory of the vector after the clamping pass of the
    root ([apot_check_params], in every build) and, on the other ranks, after
    [MPI_Bcast(xi_opt, ndimtot, ...)]. *)
Definition round_mem (g : globals) (c : mpi_round) (xi_opt : ptr) (st : state)
  : heap :=
  let root := (myid g =? 0)%Z in
  let h :=
    if negb MPI || root then apot_check_params (mem st) xi_opt else mem st in
  if MPI && negb root then bcast_xi c h xi_opt else h.

(** Lines 121-376: the views are refreshed, then the configurations of this
    process are evaluated from [tmpsum = 0.].  The local pointer [atom] is
    indeterminate when the block is entered; index 0 stands for it, and no
    round reads it before line 179 has set it. *)
Definition round_local (g : globals) (c : mpi_round) (xi_opt : ptr)
    (st : state) : locals :=
  let h := round_mem g c xi_opt st in
  let s := update_stiweb_pointers (paircol g) (ntypes g) xi_opt (sw st) in
  conf_loop g s h (myconf st) (mk_locals (forces st) (conf_atoms st) d0 0).

(** Lines 104-411 without the [break]: the evaluation of one round, giving
    the variable [sum] and the state before the root's exit. *)
Definition round_eval (g : globals) (c : mpi_round) (xi_opt : ptr)
    (st : state) : dbl * state :=
  let root := (myid g =? 0)%Z in
  let h := round_mem g c xi_opt st in
  let s := update_stiweb_pointers (paircol g) (ntypes g) xi_opt (sw st) in
  let l := round_local g c xi_opt st in
  (* add punishment for out of bounds *)
  let tmpsum :=
    if root then l_tmpsum l + fst (apot_punish h xi_opt (l_forces l))
    else l_tmpsum l in
  let forces :=
    if root then snd (apot_punish h xi_opt (l_forces l)) else l_forces l in
  (* global sum = local sum *)
  let sum := tmpsum in
  (* #ifdef MPI: reduce global sum; gather forces, energies, stresses *)
  let sum := if MPI then (if root then reduce_sum c tmpsum else d0) else sum in
  let forces := if MPI && root then gather_forces c forces else forces in
  (sum, mk_state h forces (l_atoms l) s (myconf st) (fcalls st)).

(** Lines 104-423: one round. *)
Definition iteration (g : globals) (c : mpi_round) (xi_opt : ptr) (flag : Z)
    (st : state) : outcome :=
  (* #ifdef MPI: MPI_Bcast(&flag, ...); if (1 == flag) break; *)
  let flag := seen_flag g c flag in
  if MPI && (flag =? 1)%Z then Broke st
  else
    let '(sum, st) := round_eval g c xi_opt st in
    (* root process exits this function now *)
    if (myid g =? 0)%Z then
      Returned (nan_guard sum)
        (mk_state (mem st) (forces st) (conf_atoms st) (sw st) (myconf st)
           (fcalls st + 1)%Z)
    else Looping flag st.

(** The state a round leaves behind. *)
Definition outcome_state (o : outcome) : state :=
  match o with
  | Returned _ st => st
  | Broke st => st
  | Looping _ st => st
  end.

(** The endless loop, cut off after [fuel] rounds; [env n] is what the
    collectives deliver in round [n].  A process that leaves the loop by
    [break] returns [-1.0]. *)
Fixpoint calc_loop (fuel : nat) (g : globals) (env : nat -> mpi_round)
    (n : nat) (xi_opt : ptr) (flag : Z) (st : state) : option (dbl * state) :=
  match fuel with
  | O => None
  | S fuel =>
      match iteration g (env n) xi_opt flag st with
      | Returned v st => Some (v, st)
      | Broke st => Some (- d1, st)
      | Looping flag st => calc_loop fuel g env (S n) xi_opt flag st
      end
  end.

(** Lines 96-100, [#ifndef MPI]: [myconf = nconf] (and [i = flag], which
    only reads the flag). *)
Definition entry_state (g : globals) (st : state) : state :=
  if MPI then st
  else mk_state (mem st) (forces st) (conf_atoms st) (sw st) (nconf g)
         (fcalls st).

(** Lines 90-428. *)
Definition calc_forces_stiweb (fuel : nat) (g : globals)
    (env : nat -> mpi_round) (xi_opt : ptr) (flag : Z) (st : state)
  : option (dbl * state) :=
  calc_loop fuel g env 0 xi_opt flag (entry_state g st).

End Force.

(** ** The statements of the design document, as definitions *)

Section Spec.
Context {D : Double} {M : Libm D}.
Local Open Scope dbl_scope.

(** [sw->lambda[i][j][k]], when the three indices are inside. *)
Definition lookup3 (v : list (list (list ptr))) (i j k : nat) : option ptr :=
  match v !! i with
  | Some plane =>
      match plane !! j with
      | Some row => row !! k
      | None => None
      end
  | None => None
  end.

(** A layout of the flat vector whose first named slot is [base]: per pair
    type six slots (A, B, p, q, delta, a1) and two reserved ones, then per
    pair type two slots (gamma, a2) and two reserved ones, then [ntypes]^3
    lambda slots in row-major order.  [s] resolves it against the vector at
    [xi] when every view holds the address of its slot. *)
Record layout_at (base : Z) (paircol ntypes : nat) (xi : ptr) (s : sw_t)
  : Prop := mk_layout_at {
  la_A : forall i, i < paircol ->
    sw_A s !! i = Some (xi + (base + 8 * Z.of_nat i))%Z;
  la_B : forall i, i < paircol ->
    sw_B s !! i = Some (xi + (base + 8 * Z.of_nat i + 1))%Z;
  la_p : forall i, i < paircol ->
    sw_p s !! i = Some (xi + (base + 8 * Z.of_nat i + 2))%Z;
  la_q : forall i, i < paircol ->
    sw_q s !! i = Some (xi + (base + 8 * Z.of_nat i + 3))%Z;
  la_delta : forall i, i < paircol ->
    sw_delta s !! i = Some (xi + (base + 8 * Z.of_nat i + 4))%Z;
  la_a1 : forall i, i < paircol ->
    sw_a1 s !! i = Some (xi + (base + 8 * Z.of_nat i + 5))%Z;
  la_gamma : forall i, i < paircol ->
    sw_gamma s !! i
    = Some (xi + (base + 8 * Z.of_nat paircol + 4 * Z.of_nat i))%Z;
  la_a2 : forall i, i < paircol ->
    sw_a2 s !! i
    = Some (xi + (base + 8 * Z.of_nat paircol + 4 * Z.of_nat i + 1))%Z;
  la_lambda : forall i j k, i < ntypes -> j < ntypes -> k < ntypes ->
    lookup3 (sw_lambda s) i j k
    = Some (xi + (base + 12 * Z.of_nat paircol
                  + Z.of_nat ((i * ntypes + j) * ntypes + k)))%Z
}.

(** Loop invariants of the rebuild: [v'] is [v] with its first [n] entries
    set to [f]; [lam'] is [lam] with the allocated entries selected by [S]
    set to [f]. *)
Definition view_set (v v' : list ptr) (n : nat) (f : nat -> ptr) : Prop :=
  length v' = length v
  /\ forall i, i < n -> i < length v -> v' !! i = Some (f i).

Definition lam_set (S : nat -> nat -> nat -> Prop)
    `{!forall i j k, Decision (S i j k)} (f : nat -> nat -> nat -> ptr)
    (lam lam' : list (list (list ptr))) : Prop :=
  forall i j k,
    lookup3 lam' i j k
    = if decide (S i j k)
      then match lookup3 lam i j k with Some _ => Some (f i j k) | None => None end
      else lookup3 lam i j k.

(** The views are allocated for [paircol] pair types and [ntypes] types. *)
Definition allocated (paircol ntypes : nat) (s : sw_t) : Prop :=
  Forall (fun v : list ptr => paircol <= length v)
    [sw_A s; sw_B s; sw_p s; sw_q s; sw_delta s; sw_a1 s; sw_gamma s; sw_a2 s]
  /\ forall i j k, i < ntypes -> j < ntypes -> k < ntypes ->
       is_Some (lookup3 (sw_lambda s) i j k).

(** The layout in the words of the design document: the first pair type's
    [A] is the first slot of the vector. *)
Definition spec_layout : nat -> nat -> ptr -> sw_t -> Prop := layout_at 0.

(** The same layout behind two leading slots. *)
Definition shifted_layout : nat -> nat -> ptr -> sw_t -> Prop := layout_at 2.

(** The closed forms of the pair term in the words of the design document. *)
Definition spec_phi_r (A p r : dbl) : dbl := A * dpow r (- p).
Definition spec_phi_a (B q r : dbl) : dbl := - B * dpow r (- q).
Definition spec_f_cut (delta a1 r : dbl) : dbl := dexp (delta / (r - a1)).
Definition spec_v2 (A B p q delta a1 r : dbl) : dbl :=
  (spec_phi_r A p r + spec_phi_a B q r) * spec_f_cut delta a1 r.
Definition spec_v2_grad (A B p q delta a1 r : dbl) : dbl :=
  - spec_v2 A B p q delta a1 r * delta / ((r - a1) * (r - a1))
  - spec_f_cut delta a1 r * (d1 / r)
    * (p * spec_phi_r A p r + q * spec_phi_a B q r).

(** The cutoff factor, the pair value and the gradient operation by
    operation as lines 198-203 compute them: [exp] takes [delta] times the
    reciprocal [1.0 / (r - a1)], the gradient multiplies by that reciprocal
    twice and by the reciprocal distance [inv_r] stored in the neighbour. *)
Definition computed_f_cut (delta a1 r : dbl) : dbl :=
  dexp (delta * (d1 / (r - a1))).
Definition computed_v2 (A B p q delta a1 r : dbl) : dbl :=
  (spec_phi_r A p r + spec_phi_a B q r) * computed_f_cut delta a1 r.
Definition computed_v2_grad (A B p q delta a1 r inv_r : dbl) : dbl :=
  - computed_v2 A B p q delta a1 r * delta * (d1 / (r - a1)) * (d1 / (r - a1))
  - computed_f_cut delta a1 r * inv_r
    * (p * spec_phi_r A p r + q * spec_phi_a B q r).

(** The three-body energy term in the words of the design document,
    [lambda f_j f_k c^2] with [c = cos + 1/3]: the product of the five
    factors, taken from left to right. *)
Definition spec_v3 (lambda f_j f_k cosine : dbl) : dbl :=
  let c := cosine + d1 / of_int 3 in
  lambda * f_j * f_k * c * c.

(** The ordered enumeration [jj < kk] of the neighbour entries of an atom
    with [n] neighbours, in the order of the two loops. *)
Definition neighbour_pairs (n : nat) : list (nat * nat) :=
  flat_map (fun jj => map (pair jj) (seq (jj + 1) (n - (jj + 1))))
    (seq 0 (n - 1)).

(** One visit of the pair of neighbour entries [(jj, kk)] of atom [a]: the
    cutoff test on neighbour [jj] of line 259, then the body of the inner
    loop with the angular cache read at [ijk_start + (kk - jj - 1)]. *)
Definition triple_visit {Bd : Build} (g : globals) (s : sw_t) (h : heap)
    (us : bool) (hc k : nat) (a : atom_t) (b : list dbl) (jk : nat * nat)
  : list dbl :=
  let nj := at_neigh a !!! fst jk in
  if n_r nj <? par h (sw_a2 s) (n_col0 nj) then
    triple_term g s h us hc k a (fst jk) (snd jk)
      (n_ijk_start nj + (snd jk - fst jk - 1)) b
  else b.

(** The output buffer around configuration [hc]: the force slots [k], [l],
    [m] of the atoms involved come first, then the energy slot, then the
    six stress slots, all inside the buffer [b]. *)
Definition slots_ok (g : globals) (hc : nat) (ks : list nat)
    (b : list dbl) : Prop :=
  Forall (fun k => k + 2 < energy_p g + hc) ks
  /\ energy_p g + hc < stress_p g + 6 * hc
  /\ stress_p g + 6 * hc + 5 < length b.



(** The slots of configuration [hc] that its round resets: the energy slot,
    the force slots of its atoms and, with [STRESS], its six stress slots. *)
Definition conf_slots {Bd : Build} (g : globals) (hc : nat) (i : nat) : Prop :=
  i = (energy_p g + hc)%nat
  \/ (STRESS = true
      /\ (stress_p g + 6 * hc <= i < stress_p g + 6 * hc + 6)%nat)
  \/ (3 * (cnfstart g !!! hc) <= i
      < 3 * (cnfstart g !!! hc + inconf g !!! hc))%nat.

(** The components of a force vector, and the sum of one component of the
    forces of the first [natoms] atoms of the buffer. *)
Definition comp (c : nat) (v : vector) : dbl :=
  match c with
  | 0%nat => vx v
  | 1%nat => vy v
  | _ => vz v
  end.

(** The axes of the six stress slots as the pair term fills them (xx, yy,
    zz, xy, yz, zx) and as the three-body term fills them (xx, yy, zz, yz,
    zx, xy). *)
Definition pair_axes (c : nat) : nat * nat :=
  match c with
  | 0%nat => (0, 0) | 1%nat => (1, 1) | 2%nat => (2, 2)
  | 3%nat => (0, 1) | 4%nat => (1, 2) | _ => (2, 0)
  end%nat.

Definition triple_axes (c : nat) : nat * nat :=
  match c with
  | 0%nat => (0, 0) | 1%nat => (1, 1) | 2%nat => (2, 2)
  | 3%nat => (1, 2) | 4%nat => (2, 0) | _ => (0, 1)
  end%nat.

(** The outer product of two vectors at a pair of axes, and the symmetrized
    outer product of a force and a displacement. *)
Definition outer (u v : vector) (ab : nat * nat) : dbl :=
  comp (fst ab) u * comp (snd ab) v.

Definition sym_outer (f r : vector) (ab : nat * nat) : dbl :=
  if Nat.eqb (fst ab) (snd ab) then comp (fst ab) f * comp (fst ab) r
  else dlit 5 (-1)
       * (comp (fst ab) f * comp (snd ab) r + comp (snd ab) f * comp (fst ab) r).

(** What one pair term takes from a stress slot and what one triple adds to
    it, operation by operation as lines 225-230 and 319-327 compute them. *)
Definition pair_stress_term (rdist force : vector) (ab : nat * nat) : dbl :=
  dlit 5 (-1) * comp (fst ab) rdist * comp (snd ab) force.

Definition triple_stress_term (fj fk rj rk : vector) (ab : nat * nat) : dbl :=
  if Nat.eqb (fst ab) (snd ab)
  then comp (fst ab) fj * comp (fst ab) rj + comp (fst ab) fk * comp (fst ab) rk
  else dlit 5 (-1)
       * (comp (fst ab) fj * comp (snd ab) rj + comp (fst ab) fk * comp (snd ab) rk
          + comp (snd ab) fj * comp (fst ab) rj
          + comp (snd ab) fk * comp (fst ab) rk).

Definition total_force (c natoms : nat) (b : list dbl) : dbl :=
  fold_right (fun a acc => b !!! (3 * a + c)%nat + acc) d0 (seq 0 natoms).

(** An atom with every neighbour's cache passed through lines 236-248. *)
Definition refreshed (s : sw_t) (h : heap) (a : atom_t) : atom_t :=
  mk_atom (at_typ a) (map (cutoff_part s h) (at_neigh a)) (at_angl_part a)
    (at_absforce a) (at_contrib a).

(** The closed forms of the cutoff envelope and of its cached derivative. *)
Definition spec_f (gamma a2 r : dbl) : dbl := dexp (gamma / (r - a2)).
Definition spec_df (gamma a2 r : dbl) : dbl :=
  - spec_f gamma a2 r * gamma / ((r - a2) * (r - a2) * r).

(** Slot [j] is one of the three force slots of an atom that [a] names as a
    neighbour. *)
Definition neigh_slots (a : atom_t) (j : nat) : Prop :=
  exists n, In n (at_neigh a) /\ (3 * n_nr n <= j < 3 * n_nr n + 3)%nat.

(** A neighbour without the cache of lines 236-248; neighbours, atoms and
    lists of atoms that differ at most in these caches. *)
Definition forget_cache (n : neigh_t) : neigh_t :=
  mk_neigh (n_typ n) (n_nr n) (n_r n) (n_inv_r n) (n_dist n) (n_rdist n)
    (n_col0 n) (n_ijk_start n) d0 d0.

Definition cache_free (n1 n2 : neigh_t) : Prop :=
  forget_cache n1 = forget_cache n2.

Definition atom_rel (R : neigh_t -> neigh_t -> Prop) (a1 a2 : atom_t) : Prop :=
  at_typ a1 = at_typ a2 /\ at_angl_part a1 = at_angl_part a2
  /\ at_absforce a1 = at_absforce a2 /\ at_contrib a1 = at_contrib a2
  /\ Forall2 R (at_neigh a1) (at_neigh a2).

Definition same_but_caches (atoms1 atoms2 : list atom_t) : Prop :=
  Forall2 (atom_rel cache_free) atoms1 atoms2.

(** Two neighbours are fresh for the views when they differ at most in the
    caches and, inside the three-body cutoff, not at all. *)
Definition fresh (s : sw_t) (h : heap) (n1 n2 : neigh_t) : Prop :=
  cache_free n1 n2
  /\ ((n_r n1 <? par h (sw_a2 s) (n_col0 n1))%D = true -> n1 = n2).

(** Loop variables that differ at most in the caches of the atoms. *)
Definition locals_but_caches (st1 st2 : locals) : Prop :=
  l_forces st1 = l_forces st2 /\ l_tmpsum st1 = l_tmpsum st2
  /\ l_atom st1 = l_atom st2 /\ same_but_caches (l_atoms st1) (l_atoms st2).

(** The named parameters, and the address a view holds for each. *)
Inductive view_id : Type :=
| V_A (i : nat) | V_B (i : nat) | V_p (i : nat) | V_q (i : nat)
| V_delta (i : nat) | V_a1 (i : nat) | V_gamma (i : nat) | V_a2 (i : nat)
| V_lambda (i j k : nat).

Definition view_valid (paircol ntypes : nat) (v : view_id) : Prop :=
  match v with
  | V_A i | V_B i | V_p i | V_q i | V_delta i | V_a1 i | V_gamma i | V_a2 i =>
      (i < paircol)%nat
  | V_lambda i j k => (i < ntypes /\ j < ntypes /\ k < ntypes)%nat
  end.

Definition view_addr (s : sw_t) (v : view_id) : option ptr :=
  match v with
  | V_A i => sw_A s !! i
  | V_B i => sw_B s !! i
  | V_p i => sw_p s !! i
  | V_q i => sw_q s !! i
  | V_delta i => sw_delta s !! i
  | V_a1 i => sw_a1 s !! i
  | V_gamma i => sw_gamma s !! i
  | V_a2 i => sw_a2 s !! i
  | V_lambda i j k => lookup3 (sw_lambda s) i j k
  end.

(** The slot of a named parameter, counted from the first named slot: the
    order in which lines 469-487 hand out [index]. *)
Definition view_slot (paircol ntypes : nat) (v : view_id) : Z :=
  match v with
  | V_A i => 8 * Z.of_nat i
  | V_B i => 8 * Z.of_nat i + 1
  | V_p i => 8 * Z.of_nat i + 2
  | V_q i => 8 * Z.of_nat i + 3
  | V_delta i => 8 * Z.of_nat i + 4
  | V_a1 i => 8 * Z.of_nat i + 5
  | V_gamma i => 8 * Z.of_nat paircol + 4 * Z.of_nat i
  | V_a2 i => 8 * Z.of_nat paircol + 4 * Z.of_nat i + 1
  | V_lambda i j k =>
      12 * Z.of_nat paircol + Z.of_nat ((i * ntypes + j) * ntypes + k)
  end%Z.

(** The slots between the named ones that lines 476 and 481 skip. *)
Definition reserved_slot (paircol : nat) (z : Z) : Prop :=
  exists i, i < paircol
    /\ (z = 8 * Z.of_nat i + 6 \/ z = 8 * Z.of_nat i + 7
        \/ z = 8 * Z.of_nat paircol + 4 * Z.of_nat i + 2
        \/ z = 8 * Z.of_nat paircol + 4 * Z.of_nat i + 3)%Z.

End Spec.

(** ** A small configuration

    One configuration of three atoms, one atom type and one pair type; atom 0
    has the neighbours 1 and 2 at distance 1, at a right angle.  The buffer
    has nine force slots, one energy slot and six stress slots.  The values
    are written with [of_int], so the same data serves both arithmetics. *)

Module Sample.
Section Sample.
Context {D : Double}.

Definition xi : ptr := 100%Z.

(** Reserved, reserved, A = 1, B = 1, p = 4, q = 0, delta = 1, a1 = 2,
    reserved, reserved, gamma = 1, a2 = 3, reserved, reserved, lambda = 1. *)
Definition params : list dbl :=
  map of_int [0; 0; 1; 1; 4; 0; 1; 2; 0; 0; 1; 3; 0; 0; 1]%Z.

Definition memory : heap :=
  fun a => if (xi <=? a)%Z then nth (Z.to_nat (a - xi)) params d0 else d0.

Definition views : sw_t := update_stiweb_pointers 1 1 xi sw_start.

Definition ex : vector := mk_vector d1 d0 d0.
Definition ey : vector := mk_vector d0 d1 d0.

Definition neigh1 : neigh_t :=
  mk_neigh 0 1 (of_int 1) (d1 / of_int 1)%D ex ex 0 0 d1 d0.
Definition neigh2 : neigh_t :=
  mk_neigh 0 2 (of_int 1) (d1 / of_int 1)%D ey ey 0 1 d1 d0.

(** A neighbour beyond both cutoffs. *)
Definition far : neigh_t :=
  mk_neigh 0 1 (of_int 5) (d1 / of_int 5)%D ex (mk_vector (of_int 5) d0 d0)
    0 0 d0 d0.

Definition atom0 : atom_t :=
  mk_atom 0 [neigh1; neigh2] [mk_angl d0] (of_int 2) true.

Definition atom1 : atom_t := mk_atom 0 [] [] (of_int 4) true.
Definition atom2 : atom_t := mk_atom 0 [] [] (of_int 8) true.

Definition buffer : list dbl := replicate 16 d0.

Definition world (rank : Z) : globals :=
  mk_globals rank 1 0 0 [3] [0] [true] [true] [d1] [d1] (replicate 16 d0)
    9 10 d1 d1 1 1.

Definition start : state :=
  mk_state memory buffer [atom0; atom1; atom2] sw_start 1 0.

(** The same world after the potential got a second atom type (three pair
    types would follow; two suffice here), and a state whose views were
    built by an earlier call, when there was one. *)
Definition grown (rank : Z) : globals :=
  mk_globals rank 1 0 0 [3] [0] [true] [true] [d1] [d1] (replicate 16 d0)
    9 10 d1 d1 2 2.

Definition built : state :=
  mk_state memory buffer [atom0; atom1; atom2] views 1 0.

(** Two atoms without neighbours in a configuration of volume zero: the
    stress residuals are [0 / 0]. *)
Definition hollow (rank : Z) : globals :=
  mk_globals rank 1 0 0 [2] [0] [true] [true] [d0] [d1] (replicate 13 d0)
    6 7 d1 d1 1 1.

Definition bare : state :=
  mk_state memory (replicate 13 d0) [atom1; atom2] sw_start 1 0.

Definition quiet : mpi_round :=
  mk_mpi_round 0 (fun h _ => h) (fun x => x) (fun b => b).

(** A steeper potential for the same layout: A = 1, B = 1, p = 4, q = 0,
    delta = 200, a1 = 8, gamma = 1, a2 = 3, lambda = 21. *)
Definition steep_params : list dbl :=
  map of_int [0; 0; 1; 1; 4; 0; 200; 8; 0; 0; 1; 3; 0; 0; 21]%Z.

Definition steep : heap :=
  fun a => if (xi <=? a)%Z then nth (Z.to_nat (a - xi)) steep_params d0 else d0.

(** Two neighbours at distance 1 in the directions (0.6, 0.8, 0) and
    (0, 0.6, 0.8), with the caches f = 0.3, df = 0.1 and f = 0.7, df = 0.2;
    the cosine of the angle between them is 0.48. *)
Definition tilt1 : vector := mk_vector (dlit 6 (-1)) (dlit 8 (-1)) d0.

Definition near1 : neigh_t :=
  mk_neigh 0 1 (of_int 1) (d1 / of_int 1)%D tilt1 tilt1 0 0 (dlit 3 (-1))
    (dlit 1 (-1)).





End Sample.

(** The builds used below, and collaborators that leave everything as it
    is. *)
Definition serial : Build := Build_Build false true true false.
Definition parallel : Build := Build_Build true true true false.

Definition idle (D : Double) : Extern D :=
  Build_Extern D (dlit 1 (-1)) (fun h _ => h) (fun _ _ b => (d0, b)).

(** Rocq's binary64 has no [exp] and no [pow]; these stand in for them where
    no atom has a neighbour, so that neither is reached. *)
Definition unreached : Libm binary64_double :=
  Build_Libm binary64_double (fun x => x) (fun x _ => x).

End Sample.

(** * Properties *)

(** ** Exact arithmetic *)

Lemma real_exact : Exact real_double.
Proof.
  split.
  - constructor; cbn.
    + constructor; intros; cbv [d0 d1 of_int real_double]; ring.
    + cbv [d0 d1 of_int real_double]. lra.
    + intros p q. unfold Rdiv. ring.
    + intros p Hp. cbv [d0 d1 of_int real_double] in *. field. exact Hp.
  - intros x. cbn. destruct (Rlt_dec x x) as [H|H]; [lra | reflexivity].
Qed.
#[export] Existing Instance real_exact.

(** ** Loops over [seq] *)

Ltac conj_split := match goal with |- _ /\ _ => split end.

Lemma fold_seq_S {A : Type} (f : A -> nat -> A) (a : A) (n : nat) :
  fold_left f (seq 0 (S n)) a = f (fold_left f (seq 0 n) a) n.
Proof. rewrite seq_S, fold_left_app. reflexivity. Qed.

Lemma fold_insert_lookup {A : Type} (f : nat -> A) (n : nat) (l : list A) :
  let l' := fold_left (fun l i => <[i := f i]> l) (seq 0 n) l in
  length l' = length l
  /\ (forall i, i < n -> i < length l -> l' !! i = Some (f i))
  /\ (forall i, n <= i -> l' !! i = l !! i).
Proof.
  induction n as [|n IH]; cbn zeta in *.
  - cbn. repeat split; intros; lia || reflexivity.
  - rewrite fold_seq_S. destruct IH as (Hlen & Hset & Hrest).
    split; [|split].
    + rewrite length_insert. exact Hlen.
    + intros i Hi HiL. destruct (decide (i = n)) as [->|Hne].
      * apply list_lookup_insert_eq. lia.
      * rewrite list_lookup_insert_ne by lia. apply Hset; lia.
    + intros i Hi. rewrite list_lookup_insert_ne by lia. apply Hrest. lia.
Qed.

(** ** The parameter views *)

Section ViewFacts.

Lemma view_set_0 (v : list ptr) (f : nat -> ptr) : view_set v v 0 f.
Proof. split; [reflexivity | intros; lia]. Qed.

Lemma view_set_S (v v' : list ptr) (n : nat) (f : nat -> ptr) (p : ptr) :
  view_set v v' n f -> p = f n -> view_set v (<[n := p]> v') (S n) f.
Proof.
  intros [Hlen Hset] ->. split.
  - rewrite length_insert. exact Hlen.
  - intros i Hi HiL. destruct (decide (i = n)) as [->|Hne].
    + apply list_lookup_insert_eq. lia.
    + rewrite list_lookup_insert_ne by lia. apply Hset; lia.
Qed.

Lemma view_set_lookup (v v' : list ptr) (n : nat) (f : nat -> ptr) (i : nat) :
  view_set v v' n f -> i < n -> n <= length v -> v' !! i = Some (f i).
Proof. intros [_ H] ? ?. apply H; lia. Qed.

(** The first loop of the rebuild, after [n] rounds. *)
Lemma pair_loop_inv (xi : ptr) (index : Z) (n : nat) (s : sw_t) :
  let r := fold_left (set_pair_views xi) (seq 0 n) (s, index) in
  snd r = (index + 8 * Z.of_nat n)%Z
  /\ sw_init (fst r) = sw_init s
  /\ sw_gamma (fst r) = sw_gamma s
  /\ sw_a2 (fst r) = sw_a2 s
  /\ sw_lambda (fst r) = sw_lambda s
  /\ view_set (sw_A s) (sw_A (fst r)) n
       (fun i => xi + (index + 8 * Z.of_nat i))%Z
  /\ view_set (sw_B s) (sw_B (fst r)) n
       (fun i => xi + (index + 8 * Z.of_nat i + 1))%Z
  /\ view_set (sw_p s) (sw_p (fst r)) n
       (fun i => xi + (index + 8 * Z.of_nat i + 2))%Z
  /\ view_set (sw_q s) (sw_q (fst r)) n
       (fun i => xi + (index + 8 * Z.of_nat i + 3))%Z
  /\ view_set (sw_delta s) (sw_delta (fst r)) n
       (fun i => xi + (index + 8 * Z.of_nat i + 4))%Z
  /\ view_set (sw_a1 s) (sw_a1 (fst r)) n
       (fun i => xi + (index + 8 * Z.of_nat i + 5))%Z.
Proof.
  induction n as [|n IH]; cbn zeta in *.
  - cbn. repeat conj_split; try apply view_set_0; lia || reflexivity.
  - rewrite fold_seq_S.
    destruct (fold_left (set_pair_views xi) (seq 0 n) (s, index)) as [s1 i1].
    cbn [fst snd set_pair_views sw_init sw_A sw_B sw_p sw_q sw_delta sw_a1
         sw_gamma sw_a2 sw_lambda] in *.
    destruct IH as (-> & Hi & Hg & Ha & Hl & HA & HB & Hp & Hq & Hd & H1).
    repeat conj_split; try assumption; try lia;
      try (apply view_set_S; [assumption | lia]).
Qed.

(** The second loop of the rebuild, after [n] rounds. *)
Lemma triple_loop_inv (xi : ptr) (index : Z) (n : nat) (s : sw_t) :
  let r := fold_left (set_triple_views xi) (seq 0 n) (s, index) in
  snd r = (index + 4 * Z.of_nat n)%Z
  /\ sw_init (fst r) = sw_init s
  /\ sw_A (fst r) = sw_A s /\ sw_B (fst r) = sw_B s
  /\ sw_p (fst r) = sw_p s /\ sw_q (fst r) = sw_q s
  /\ sw_delta (fst r) = sw_delta s /\ sw_a1 (fst r) = sw_a1 s
  /\ sw_lambda (fst r) = sw_lambda s
  /\ view_set (sw_gamma s) (sw_gamma (fst r)) n
       (fun i => xi + (index + 4 * Z.of_nat i))%Z
  /\ view_set (sw_a2 s) (sw_a2 (fst r)) n
       (fun i => xi + (index + 4 * Z.of_nat i + 1))%Z.
Proof.
  induction n as [|n IH]; cbn zeta in *.
  - cbn. repeat conj_split; try apply view_set_0; lia || reflexivity.
  - rewrite fold_seq_S.
    destruct (fold_left (set_triple_views xi) (seq 0 n) (s, index)) as [s1 i1].
    cbn [fst snd set_triple_views sw_init sw_A sw_B sw_p sw_q sw_delta sw_a1
         sw_gamma sw_a2 sw_lambda] in *.
    destruct IH as (-> & Hi & HA & HB & Hp & Hq & Hd & H1 & Hl & Hg & Ha).
    repeat conj_split; try assumption; try lia;
      try (apply view_set_S; [assumption | lia]).
Qed.

(** Reading [lambda] after one assignment [sw->lambda[i][j][k] = p]. *)
Lemma lookup3_set (lam : list (list (list ptr))) (i j k : nat) (p : ptr)
    (i' j' k' : nat) :
  lookup3 (set_lambda lam i j k p) i' j' k'
  = if decide (i' = i /\ j' = j /\ k' = k)
    then match lookup3 lam i j k with Some _ => Some p | None => None end
    else lookup3 lam i' j' k'.
Proof.
  unfold lookup3, set_lambda.
  rewrite list_lookup_insert.
  destruct (decide (i = i' /\ i < length lam)) as [[<- Hi]|Hn].
  - destruct (lookup_lt_is_Some_2 lam i Hi) as [plane Hp]. rewrite Hp. cbn.
    rewrite list_lookup_insert.
    destruct (decide (j = j' /\ j < length plane)) as [[<- Hj]|Hnj].
    + destruct (lookup_lt_is_Some_2 plane j Hj) as [row Hr]. rewrite Hr. cbn.
      rewrite list_lookup_insert.
      destruct (decide (k = k' /\ k < length row)) as [[<- Hk]|Hnk].
      * destruct (lookup_lt_is_Some_2 row k Hk) as [q Hq]. rewrite Hq.
        rewrite decide_True by auto. reflexivity.
      * destruct (decide (k = k')) as [<-|Hkk].
        -- rewrite decide_True by auto.
           rewrite (lookup_ge_None_2 row k) by lia. reflexivity.
        -- rewrite decide_False by (intros (? & ? & ?); lia). reflexivity.
    + destruct (decide (j = j')) as [<-|Hjj].
      * rewrite (lookup_ge_None_2 plane j) by lia.
        destruct (decide _); reflexivity.
      * rewrite decide_False by (intros (? & ? & ?); lia). reflexivity.
  - destruct (decide (i = i')) as [<-|Hii].
    + rewrite (lookup_ge_None_2 lam i) by lia.
      destruct (decide _); reflexivity.
    + rewrite decide_False by (intros (? & ? & ?); lia). reflexivity.
Qed.

(** The innermost loop over [k], for fixed [i] and [j], after [n] rounds. *)
Lemma lambda_k_loop (xi : ptr) (i j n : nat) (index : Z)
    (lam : list (list (list ptr))) :
  let r :=
    fold_left (fun (st : list (list (list ptr)) * Z) k =>
      let '(lam, index) := st in
      (set_lambda lam i j k (xi + index)%Z, (index + 1)%Z)) (seq 0 n)
      (lam, index) in
  snd r = (index + Z.of_nat n)%Z
  /\ lam_set (fun i' j' k' => i' = i /\ j' = j /\ k' < n)
       (fun _ _ k' => xi + (index + Z.of_nat k'))%Z lam (fst r).
Proof.
  induction n as [|n IH]; cbn zeta in *.
  - cbn. split; [lia|]. intros i' j' k'.
    rewrite decide_False by lia. reflexivity.
  - rewrite fold_seq_S. destruct (fold_left _ (seq 0 n) _) as [lam1 i1].
    cbn [fst snd] in *. destruct IH as [-> IH]. split; [lia|].
    intros i' j' k'. rewrite lookup3_set, !IH.
    destruct (decide (i' = i /\ j' = j /\ k' = n)) as [(-> & -> & ->)|Hn].
    + rewrite decide_False by lia. rewrite decide_True by lia.
      destruct (lookup3 lam i j n); reflexivity.
    + destruct (decide (i' = i /\ j' = j /\ k' < n)) as [H|H].
      * rewrite decide_True by lia. reflexivity.
      * rewrite decide_False by lia. reflexivity.
Qed.

(** The loop over [j], for fixed [i], after [n] rounds. *)
Lemma lambda_j_loop (ntypes : nat) (xi : ptr) (i n : nat) (index : Z)
    (lam : list (list (list ptr))) :
  let r :=
    fold_left (fun (st : list (list (list ptr)) * Z) j =>
      fold_left (fun (st : list (list (list ptr)) * Z) k =>
        let '(lam, index) := st in
        (set_lambda lam i j k (xi + index)%Z, (index + 1)%Z))
        (seq 0 ntypes) st) (seq 0 n) (lam, index) in
  snd r = (index + Z.of_nat (n * ntypes))%Z
  /\ lam_set (fun i' j' k' => i' = i /\ j' < n /\ k' < ntypes)
       (fun _ j' k' => xi + (index + Z.of_nat (j' * ntypes + k')))%Z
       lam (fst r).
Proof.
  induction n as [|n IH]; cbn zeta in *.
  - cbn. split; [lia|]. intros i' j' k'.
    rewrite decide_False by lia. reflexivity.
  - rewrite fold_seq_S. destruct (fold_left _ (seq 0 n) _) as [lam1 i1].
    cbn [fst snd] in *. destruct IH as [-> IH].
    pose proof (lambda_k_loop xi i n ntypes
                  (index + Z.of_nat (n * ntypes)) lam1) as [Hi Hk].
    cbn zeta in Hi, Hk. destruct (fold_left _ (seq 0 ntypes) _) as [lam2 i2].
    cbn [fst snd] in *. subst i2. split; [lia|].
    intros i' j' k'. rewrite Hk, !IH.
    destruct (decide (i' = i /\ j' = n /\ k' < ntypes)) as [(-> & -> & Hlt)|Hn].
    + rewrite decide_False by lia. rewrite decide_True by lia.
      destruct (lookup3 lam i n k'); [f_equal; lia | reflexivity].
    + destruct (decide (i' = i /\ j' < n /\ k' < ntypes)) as [H|H].
      * rewrite decide_True by lia. reflexivity.
      * rewrite decide_False by lia. reflexivity.
Qed.

(** Lines 484-487 as a whole. *)
Lemma lambda_loops (ntypes : nat) (xi : ptr) (index : Z)
    (lam : list (list (list ptr))) :
  lam_set (fun i j k => i < ntypes /\ j < ntypes /\ k < ntypes)
    (fun i j k => xi + (index + Z.of_nat ((i * ntypes + j) * ntypes + k)))%Z
    lam (fst (set_lambda_views ntypes xi (lam, index))).
Proof.
  unfold set_lambda_views.
  enough (H : forall n,
    let r :=
      fold_left (fun (st : list (list (list ptr)) * Z) i =>
        fold_left (fun (st : list (list (list ptr)) * Z) j =>
          fold_left (fun (st : list (list (list ptr)) * Z) k =>
            let '(lam, index) := st in
            (set_lambda lam i j k (xi + index)%Z, (index + 1)%Z))
            (seq 0 ntypes) st) (seq 0 ntypes) st) (seq 0 n) (lam, index) in
    snd r = (index + Z.of_nat (n * ntypes * ntypes))%Z
    /\ lam_set (fun i j k => i < n /\ j < ntypes /\ k < ntypes)
         (fun i j k => xi + (index + Z.of_nat ((i * ntypes + j) * ntypes + k)))%Z
         lam (fst r)).
  { apply (H ntypes). }
  induction n as [|n IH]; cbn zeta in *.
  - cbn. split; [lia|]. intros i j k.
    rewrite decide_False by lia. reflexivity.
  - rewrite fold_seq_S. destruct (fold_left _ (seq 0 n) _) as [lam1 i1].
    cbn [fst snd] in *. destruct IH as [-> IH].
    pose proof (lambda_j_loop ntypes xi n ntypes
                  (index + Z.of_nat (n * ntypes * ntypes)) lam1) as [Hi Hj].
    cbn zeta in Hi, Hj. destruct (fold_left _ (seq 0 ntypes) _) as [lam2 i2].
    cbn [fst snd] in *. subst i2. split; [lia|].
    intros i j k. rewrite Hj, !IH.
    destruct (decide (i = n /\ j < ntypes /\ k < ntypes)) as [(-> & Hj' & Hk')|Hn].
    + rewrite decide_False by lia. rewrite decide_True by lia.
      destruct (lookup3 lam n j k); [f_equal; lia | reflexivity].
    + destruct (decide (i < n /\ j < ntypes /\ k < ntypes)) as [H|H].
      * rewrite decide_True by lia. reflexivity.
      * rewrite decide_False by lia. reflexivity.
Qed.

(** The allocation of the first call provides every entry. *)
Lemma sw_alloc_allocated (paircol ntypes : nat) :
  ntypes <= paircol -> allocated paircol ntypes (sw_alloc paircol ntypes).
Proof.
  intros Hle. split.
  - cbn. repeat constructor; rewrite length_replicate; lia.
  - intros i j k Hi Hj Hk. unfold lookup3. cbn [sw_alloc sw_lambda].
    set (table := fold_left _ (seq 0 ntypes) (replicate ntypes [])).
    destruct (fold_insert_lookup (fun _ => table) ntypes (replicate paircol []))
      as (_ & Hset & _).
    rewrite Hset by (rewrite ?length_replicate; lia).
    destruct (fold_insert_lookup (fun _ => replicate ntypes NULL) ntypes
                (replicate ntypes [])) as (_ & Hrow & _).
    subst table. rewrite Hrow by (rewrite ?length_replicate; lia).
    rewrite lookup_replicate_2 by lia. eauto.
Qed.

Lemma sw_alloc_first (paircol ntypes : nat) :
  rdp (sw_A (sw_alloc paircol ntypes)) 0 = NULL.
Proof.
  unfold rdp. cbn. destruct paircol; reflexivity.
Qed.

(** Views that resolve a layout are allocated. *)
Lemma layout_allocated (base : Z) (paircol ntypes : nat) (xi : ptr) (s : sw_t) :
  layout_at base paircol ntypes xi s -> allocated paircol ntypes s.
Proof.
  intros [HA HB Hp Hq Hd H1 Hg H2 Hl].
  assert (Hlen : forall (v : list ptr) (f : nat -> ptr),
             (forall i, i < paircol -> v !! i = Some (f i)) ->
             paircol <= length v).
  { intros v f H. destruct paircol as [|n]; [lia|].
    specialize (H n ltac:(lia)). apply lookup_lt_Some in H. lia. }
  split.
  - repeat constructor;
      [ exact (Hlen _ _ HA) | exact (Hlen _ _ HB) | exact (Hlen _ _ Hp)
      | exact (Hlen _ _ Hq) | exact (Hlen _ _ Hd) | exact (Hlen _ _ H1)
      | exact (Hlen _ _ Hg) | exact (Hlen _ _ H2) ].
  - intros i j k Hi Hj Hk. rewrite Hl by assumption. eauto.
Qed.

(** Lines 468-487: on allocated views the rebuild resolves the layout whose
    first named slot is [index]. *)
Lemma rebuild_views_layout (paircol ntypes : nat) (xi : ptr) (index : Z)
    (s : sw_t) :
  allocated paircol ntypes s ->
  layout_at index paircol ntypes xi (rebuild_views paircol ntypes xi index s)
  /\ sw_init (rebuild_views paircol ntypes xi index s) = sw_init s.
Proof.
  intros [Hlen Hlam].
  apply Forall_cons in Hlen as [LA Hlen]. apply Forall_cons in Hlen as [LB Hlen].
  apply Forall_cons in Hlen as [Lp Hlen]. apply Forall_cons in Hlen as [Lq Hlen].
  apply Forall_cons in Hlen as [Ld Hlen]. apply Forall_cons in Hlen as [L1 Hlen].
  apply Forall_cons in Hlen as [Lg Hlen]. apply Forall_cons in Hlen as [L2 _].
  unfold rebuild_views.
  pose proof (pair_loop_inv xi index paircol s) as Hp. cbn zeta in Hp.
  destruct (fold_left (set_pair_views xi) (seq 0 paircol) (s, index))
    as [s1 i1].
  cbn [fst snd] in Hp.
  destruct Hp as (-> & Hi1 & Hg1 & Ha1 & Hl1 & VA & VB & Vp & Vq & Vd & V1).
  pose proof (triple_loop_inv xi (index + 8 * Z.of_nat paircol) paircol s1)
    as Ht. cbn zeta in Ht.
  destruct (fold_left (set_triple_views xi) (seq 0 paircol) _) as [s2 i2].
  cbn [fst snd] in Ht.
  destruct Ht as (-> & Hi2 & HA & HB & Hp & Hq & Hd & H1 & Hl2 & Vg & V2).
  pose proof (lambda_loops ntypes xi
                (index + 8 * Z.of_nat paircol + 4 * Z.of_nat paircol)
                (sw_lambda s2)) as HL.
  destruct (set_lambda_views ntypes xi _) as [lam i3]. cbn [fst] in HL.
  split; [|cbn; congruence].
  split; cbn [sw_A sw_B sw_p sw_q sw_delta sw_a1 sw_gamma sw_a2 sw_lambda];
    try (intros i Hi; rewrite ?HA, ?HB, ?Hp, ?Hq, ?Hd, ?H1).
  - exact (view_set_lookup _ _ _ _ i VA Hi LA).
  - exact (view_set_lookup _ _ _ _ i VB Hi LB).
  - exact (view_set_lookup _ _ _ _ i Vp Hi Lp).
  - exact (view_set_lookup _ _ _ _ i Vq Hi Lq).
  - exact (view_set_lookup _ _ _ _ i Vd Hi Ld).
  - exact (view_set_lookup _ _ _ _ i V1 Hi L1).
  - etransitivity;
      [exact (view_set_lookup _ _ _ _ i Vg Hi ltac:(rewrite Hg1; lia))|].
    reflexivity.
  - etransitivity;
      [exact (view_set_lookup _ _ _ _ i V2 Hi ltac:(rewrite Ha1; lia))|].
    reflexivity.
  - revert i Hi. intros i j k Hi Hj Hk. rewrite HL. rewrite decide_True by lia.
    rewrite Hl2, Hl1. destruct (Hlam i j k Hi Hj Hk) as [q ->].
    f_equal. lia.
Qed.

(** The first call: nothing is allocated yet, and the views are built from
    the vector at [xi] behind the two leading slots. *)
Lemma update_first_call (paircol ntypes : nat) (xi : ptr) (s : sw_t) :
  sw_init s = false -> (xi + 2)%Z <> NULL -> ntypes <= paircol ->
  shifted_layout paircol ntypes xi (update_stiweb_pointers paircol ntypes xi s)
  /\ sw_init (update_stiweb_pointers paircol ntypes xi s) = true.
Proof.
  intros Hinit Hnull Hle. unfold update_stiweb_pointers. rewrite Hinit.
  rewrite sw_alloc_first.
  destruct (Z.eqb_spec NULL (xi + 2)) as [Heq|_]; [congruence|]. cbn [negb].
  destruct (rebuild_views_layout paircol ntypes xi 2 (sw_alloc paircol ntypes))
    as [Hlay Hi]; [apply sw_alloc_allocated; exact Hle|].
  split; [exact Hlay | rewrite Hi; reflexivity].
Qed.

(** A later call: views that resolve the vector at [xi0] resolve the vector
    at [xi] afterwards, for the same [paircol] and [ntypes]. *)
Lemma update_later_call (paircol ntypes : nat) (xi0 xi : ptr) (s : sw_t) :
  sw_init s = true -> 0 < paircol ->
  shifted_layout paircol ntypes xi0 s ->
  shifted_layout paircol ntypes xi (update_stiweb_pointers paircol ntypes xi s).
Proof.
  intros Hinit Hpc Hlay. unfold update_stiweb_pointers. rewrite Hinit.
  pose proof (la_A _ _ _ _ _ Hlay 0 Hpc) as HA0.
  unfold rdp, ptr in *. rewrite HA0. cbn [default from_option].
  unfold Datatypes.id.
  destruct (Z.eqb_spec (xi0 + (2 + 8 * Z.of_nat 0)) (xi + 2)) as [Heq|Hne];
    cbn [negb].
  - assert (xi0 = xi) as -> by lia. exact Hlay.
  - apply rebuild_views_layout. eapply layout_allocated. exact Hlay.
Qed.

(** The guard of line 467: once initialised, views whose first entry is
    [xi + 2] are left as they are. *)
Lemma update_same_address (paircol ntypes : nat) (xi : ptr) (s : sw_t) :
  sw_init s = true -> rdp (sw_A s) 0 = (xi + 2)%Z ->
  update_stiweb_pointers paircol ntypes xi s = s.
Proof.
  intros Hinit HA. unfold update_stiweb_pointers. rewrite Hinit, HA.
  rewrite Z.eqb_refl. reflexivity.
Qed.

End ViewFacts.

(** ** The output buffer *)

Section BufferFacts.
Context {D : Double}.
Implicit Types (b : list dbl) (i j : nat) (v : dbl).

Lemma length_add_at b i v : length (add_at b i v) = length b.
Proof. apply length_insert. Qed.

Lemma length_sub_at b i v : length (sub_at b i v) = length b.
Proof. apply length_insert. Qed.

Lemma length_div_at b i v : length (div_at b i v) = length b.
Proof. apply length_insert. Qed.

Lemma add_at_eq b i v : i < length b -> add_at b i v !!! i = (b !!! i + v)%D.
Proof. intros. unfold add_at. by rewrite list_lookup_total_insert_eq. Qed.

Lemma sub_at_eq b i v : i < length b -> sub_at b i v !!! i = (b !!! i - v)%D.
Proof. intros. unfold sub_at. by rewrite list_lookup_total_insert_eq. Qed.

Lemma div_at_eq b i v : i < length b -> div_at b i v !!! i = (b !!! i / v)%D.
Proof. intros. unfold div_at. by rewrite list_lookup_total_insert_eq. Qed.

Lemma add_at_ne b i j v : i <> j -> add_at b i v !!! j = b !!! j.
Proof. intros. unfold add_at. by rewrite list_lookup_total_insert_ne. Qed.

Lemma sub_at_ne b i j v : i <> j -> sub_at b i v !!! j = b !!! j.
Proof. intros. unfold sub_at. by rewrite list_lookup_total_insert_ne. Qed.

Lemma div_at_ne b i j v : i <> j -> div_at b i v !!! j = b !!! j.
Proof. intros. unfold div_at. by rewrite list_lookup_total_insert_ne. Qed.

End BufferFacts.

Create Rewrite HintDb buf_len.
#[export] Hint Rewrite @length_add_at @length_sub_at @length_div_at
  @length_insert : buf_len.

(** Reads of the buffer after a chain of [+=], [-=], [/=] at slots that
    [lia] can tell apart. *)
Ltac buf_len := autorewrite with buf_len; lia.
Ltac buf_read :=
  repeat first
    [ rewrite add_at_ne by lia
    | rewrite sub_at_ne by lia
    | rewrite div_at_ne by lia
    | rewrite list_lookup_total_insert_ne by lia
    | rewrite add_at_eq by buf_len
    | rewrite sub_at_eq by buf_len
    | rewrite div_at_eq by buf_len
    | rewrite list_lookup_total_insert_eq by buf_len ].

(** ** Consequences of exact arithmetic *)

Section ExactFacts.
Context {D : Double} {E : Exact D}.
Local Open Scope dbl_scope.

Add Field dbl_field_inst : dbl_field.

Lemma ddiv_one_mul (a c : dbl) : a * (d1 / c) = a / c.
Proof. rewrite (Fdiv_def dbl_field a c). reflexivity. Qed.

Lemma dsub_neq_zero (a c : dbl) : a <> c -> a - c <> d0.
Proof. intros Hne Hz. apply Hne. transitivity (a - c + c); [ring|]. rewrite Hz. ring. Qed.

Lemma dlt_neq (a c : dbl) : (a <? c) = true -> a <> c.
Proof. intros H ->. rewrite dlt_irrefl in H. discriminate. Qed.

Lemma ddiv_one_sq (a c : dbl) :
  c <> d0 -> a * (d1 / c) * (d1 / c) = a / (c * c).
Proof. intros Hc. field. exact Hc. Qed.

Lemma dmul_assoc_sq (a c : dbl) : a * c * c = a * (c * c).
Proof. ring. Qed.

Lemma dadd_opp_opp (a c : dbl) : a + c + - a + - c = d0.
Proof. ring. Qed.


End ExactFacts.

(** ** The pair term *)

Section PairFacts.
Context {D : Double} {M : Libm D} {Bd : Build}.
Local Open Scope dbl_scope.
Implicit Types (g : globals) (s : sw_t) (h : heap) (nj : neigh_t)
  (b : list dbl).

(** Outside the cutoff the pair part does nothing. *)
Lemma pair_part_outside g s h (uf us self : bool) (hc k : nat) nj b :
  (n_r nj <? par h (sw_a1 s) (n_col0 nj)) = false ->
  pair_part g s h uf us hc k self nj b = b.
Proof. intros Hr. unfold pair_part. rewrite Hr. reflexivity. Qed.

(** Inside the cutoff the energy slot takes half the (self-halved) value. *)
Lemma pair_part_energy g s h (uf us self : bool) (hc k : nat) nj b :
  (n_r nj <? par h (sw_a1 s) (n_col0 nj)) = true ->
  slots_ok g hc [k] b ->
  pair_part g s h uf us hc k self nj b !!! (energy_p g + hc)%nat
  = b !!! (energy_p g + hc)%nat
    + dlit 5 (-1)
      * (if self then v2_val (pair_eval s h nj) * dlit 5 (-1)
         else v2_val (pair_eval s h nj)).
Proof.
  intros Hr (Hk & He & Hs). apply Forall_cons in Hk as [Hk _].
  unfold pair_part. rewrite Hr.
  destruct uf; [destruct (STRESS && us)|]; cbn zeta; buf_read; reflexivity.
Qed.

(** With force fitting on, the force slots of the central atom take the
    direction scaled by the (self-halved) gradient. *)
Lemma pair_part_force g s h (us self : bool) (hc k : nat) nj b (c : nat) :
  (n_r nj <? par h (sw_a1 s) (n_col0 nj)) = true ->
  slots_ok g hc [k] b -> c < 3 ->
  pair_part g s h true us hc k self nj b !!! (k + c)%nat
  = b !!! (k + c)%nat
    + comp c (n_dist nj)
      * (if self then pair_grad s h nj (pair_eval s h nj) * dlit 5 (-1)
         else pair_grad s h nj (pair_eval s h nj)).
Proof.
  intros Hr (Hk & He & Hs) Hc. apply Forall_cons in Hk as [Hk _].
  unfold pair_part. rewrite Hr.
  assert (c = 0 \/ c = 1 \/ c = 2)%nat as [-> | [-> | ->]] by lia;
    rewrite ?Nat.add_0_r;
    destruct (STRESS && us); cbn zeta; cbn [vx vy vz comp];
    buf_read; reflexivity.
Qed.

End PairFacts.

(** ** The three-body term *)

Lemma fold_left_flat_map {A B C : Type} (f : A -> C -> A) (g : B -> list C)
    (l : list B) (a : A) :
  fold_left f (flat_map g l) a
  = fold_left (fun a x => fold_left f (g x) a) l a.
Proof.
  revert a. induction l as [|x l IH]; intros a; cbn; [reflexivity|].
  rewrite fold_left_app. apply IH.
Qed.

Lemma fold_left_map_list {A B C : Type} (f : A -> C -> A) (g : B -> C)
    (l : list B) (a : A) :
  fold_left f (map g l) a = fold_left (fun a x => f a (g x)) l a.
Proof. revert a. induction l as [|x l IH]; intros a; cbn; auto. Qed.

Lemma fold_left_ext_in {A B : Type} (f f' : A -> B -> A) (l : list B) (a : A) :
  (forall a x, In x l -> f a x = f' a x) -> fold_left f l a = fold_left f' l a.
Proof.
  revert a. induction l as [|x l IH]; intros a H; cbn; [reflexivity|].
  rewrite H by (left; reflexivity). apply IH. intros; apply H; right; assumption.
Qed.

Lemma fold_left_id {A B : Type} (f : A -> B -> A) (l : list B) (a : A) :
  (forall a x, In x l -> f a x = a) -> fold_left f l a = a.
Proof.
  revert a. induction l as [|x l IH]; intros a H; cbn; [reflexivity|].
  rewrite H by (left; reflexivity). apply IH. intros; apply H; right; assumption.
Qed.

(** The enumeration holds exactly the pairs [jj < kk < n]. *)
Lemma neighbour_pairs_spec (n jj kk : nat) :
  In (jj, kk) (neighbour_pairs n) <-> jj < kk /\ kk < n.
Proof.
  unfold neighbour_pairs. rewrite in_flat_map. split.
  - intros (j & Hj & Hin). apply in_map_iff in Hin as (k & Heq & Hk).
    injection Heq as -> ->. apply in_seq in Hj, Hk. lia.
  - intros [Hlt Hn]. exists jj. split; [apply in_seq; lia|].
    apply in_map_iff. exists kk. split; [reflexivity|]. apply in_seq. lia.
Qed.



Section TripleFacts.
Context {D : Double} {M : Libm D} {Bd : Build}.
Local Open Scope dbl_scope.
Implicit Types (g : globals) (s : sw_t) (h : heap) (a : atom_t)
  (b : list dbl).

(** The inner loop advances [ijk] by one per round, whatever the round
    does. *)
Lemma kk_loop_fold g s h (us : bool) (hc k : nat) a (jj start cnt ijk : nat)
    b :
  fst (fold_left (fun st kk =>
         let '(forces, ijk) := st in
         (triple_term g s h us hc k a jj kk ijk forces, S ijk))
         (seq start cnt) (b, ijk))
  = fold_left (fun b kk =>
      triple_term g s h us hc k a jj kk (ijk + (kk - start)) b)
      (seq start cnt) b.
Proof.
  revert start ijk b. induction cnt as [|cnt IH]; intros start ijk b; cbn;
    [reflexivity|].
  rewrite IH. rewrite Nat.sub_diag, Nat.add_0_r.
  apply fold_left_ext_in. intros b' kk Hin. apply in_seq in Hin.
  f_equal. lia.
Qed.

(** The two loops visit the pairs of [neighbour_pairs], each once, in that
    order. *)
Lemma jj_loop_pairs g s h (us : bool) (hc k : nat) a b :
  jj_loop g s h us hc k a b
  = fold_left (triple_visit g s h us hc k a) (neighbour_pairs (n_neigh a)) b.
Proof.
  unfold jj_loop, neighbour_pairs. rewrite fold_left_flat_map.
  apply fold_left_ext_in. intros b' jj _.
  rewrite fold_left_map_list. unfold triple_visit. cbn [fst snd].
  destruct (n_r (at_neigh a !!! jj) <? _).
  - unfold kk_loop. rewrite kk_loop_fold.
    apply fold_left_ext_in. intros b'' kk Hin. apply in_seq in Hin.
    f_equal. lia.
  - symmetry. apply fold_left_id. reflexivity.
Qed.



End TripleFacts.

(** ** Momentum of one triple *)

Section MomentumFacts.
Context {D : Double} {E : Exact D}.
Local Open Scope dbl_scope.
Implicit Types (b : list dbl) (v : dbl).

Add Field dbl_field_momentum : dbl_field.

(** One component of the forces summed over a duplicate-free list of atoms,
    after a write to slot [3 * a + c']. *)
Lemma sum_after_write (l : list nat) (a c c' : nat) (w : dbl) b :
  NoDup l -> (3 * a + c' < length b)%nat -> (c < 3)%nat -> (c' < 3)%nat ->
  fold_right (fun a' acc => <[(3 * a + c')%nat := w]> b !!! (3 * a' + c)%nat + acc)
    d0 l
  = fold_right (fun a' acc => b !!! (3 * a' + c)%nat + acc) d0 l
    + (if decide (c = c' /\ a ∈ l) then w - b !!! (3 * a + c')%nat else d0).
Proof.
  intros Hnd Hlen Hc Hc'. induction Hnd as [|a' l Hnotin Hnd IH];
    cbn [fold_right].
  - rewrite decide_False by (intros [_ H]; inversion H). ring.
  - rewrite IH. clear IH.
    destruct (decide (c = c' /\ a = a')) as [[-> ->]|Hne].
    + rewrite list_lookup_total_insert_eq by lia.
      rewrite decide_False by tauto.
      rewrite decide_True by (split; [reflexivity | left]). ring.
    + rewrite list_lookup_total_insert_ne by lia.
      destruct (decide (c = c' /\ a ∈ l)) as [[-> Hin]|Hn].
      * rewrite decide_True by (split; [reflexivity | right; exact Hin]). ring.
      * rewrite decide_False; [ring|]. intros [-> Hin].
        apply elem_of_cons in Hin as [->|Hin]; tauto.
Qed.

Lemma total_force_add_at (c n a c' idx : nat) v b :
  idx = (3 * a + c')%nat -> (a < n)%nat -> (3 * n <= length b)%nat ->
  (c < 3)%nat -> (c' < 3)%nat ->
  total_force c n (add_at b idx v)
  = total_force c n b + (if decide (c = c') then v else d0).
Proof.
  intros -> Ha Hn Hc Hc'. unfold total_force, add_at.
  rewrite sum_after_write by (try apply NoDup_seq; lia).
  f_equal. destruct (decide (c = c')) as [->|Hne].
  - rewrite decide_True by (split; [reflexivity | apply elem_of_seq; lia]). ring.
  - rewrite decide_False by tauto. reflexivity.
Qed.

Lemma total_force_sub_at (c n a c' idx : nat) v b :
  idx = (3 * a + c')%nat -> (a < n)%nat -> (3 * n <= length b)%nat ->
  (c < 3)%nat -> (c' < 3)%nat ->
  total_force c n (sub_at b idx v)
  = total_force c n b - (if decide (c = c') then v else d0).
Proof.
  intros -> Ha Hn Hc Hc'. unfold total_force, sub_at.
  rewrite sum_after_write by (try apply NoDup_seq; lia).
  destruct (decide (c = c')) as [->|Hne].
  - rewrite decide_True by (split; [reflexivity | apply elem_of_seq; lia]). ring.
  - rewrite decide_False by tauto. ring.
Qed.

(** Lines 301-314 leave every component of the total force as it was,
    whichever of the three atoms coincide. *)
Lemma triple_forces_total (c natoms i j kk : nat) (fj fk : vector) b :
  (c < 3)%nat -> (i < natoms)%nat -> (j < natoms)%nat -> (kk < natoms)%nat ->
  (3 * natoms <= length b)%nat ->
  total_force c natoms (triple_forces (3 * i) (3 * j) (3 * kk) fj fk b)
  = total_force c natoms b.
Proof.
  intros Hc Hi Hj Hk Hlen. unfold triple_forces.
  rewrite (total_force_sub_at c natoms kk 2) by (autorewrite with buf_len; lia).
  rewrite (total_force_sub_at c natoms kk 1) by (autorewrite with buf_len; lia).
  rewrite (total_force_sub_at c natoms kk 0) by (autorewrite with buf_len; lia).
  rewrite (total_force_sub_at c natoms j 2) by (autorewrite with buf_len; lia).
  rewrite (total_force_sub_at c natoms j 1) by (autorewrite with buf_len; lia).
  rewrite (total_force_sub_at c natoms j 0) by (autorewrite with buf_len; lia).
  rewrite (total_force_add_at c natoms i 2) by (autorewrite with buf_len; lia).
  rewrite (total_force_add_at c natoms i 1) by (autorewrite with buf_len; lia).
  rewrite (total_force_add_at c natoms i 0) by (autorewrite with buf_len; lia).
  assert (c = 0 \/ c = 1 \/ c = 2)%nat as [-> | [-> | ->]] by lia;
    repeat first [rewrite decide_True by lia | rewrite decide_False by lia];
    cbn [vx vy vz]; ring.
Qed.

End MomentumFacts.

(** ** The accumulation per configuration *)

Lemma fold_left_inv {A B : Type} (P : A -> Prop) (f : A -> B -> A)
    (l : list B) (a : A) :
  P a -> (forall a x, In x l -> P a -> P (f a x)) -> P (fold_left f l a).
Proof.
  revert a. induction l as [|x l IH]; intros a Ha Hf; cbn; [exact Ha|].
  apply IH.
  - apply Hf; [left; reflexivity | exact Ha].
  - intros a' y Hy. apply Hf. right; exact Hy.
Qed.

Section ConfFacts.
Context {D : Double} {M : Libm D} {Bd : Build} {X : Extern D}.
Local Open Scope dbl_scope.
Implicit Types (g : globals) (s : sw_t) (h : heap) (a : atom_t)
  (b : list dbl) (st : locals).

Lemma length_pair_part g s h (uf us self : bool) (hc k : nat) nj b :
  length (pair_part g s h uf us hc k self nj b) = length b.
Proof.
  unfold pair_part.
  repeat match goal with |- context [if ?c then _ else _] => destruct c end;
    cbn zeta; autorewrite with buf_len; reflexivity.
Qed.

Lemma length_triple_term g s h (us : bool) (hc k : nat) a (jj kk ijk : nat) b :
  length (triple_term g s h us hc k a jj kk ijk b) = length b.
Proof.
  unfold triple_term, triple_forces, triple_stress.
  repeat match goal with |- context [if ?c then _ else _] => destruct c end;
    cbn zeta; autorewrite with buf_len; reflexivity.
Qed.

Lemma length_jj_loop g s h (us : bool) (hc k : nat) a b :
  length (jj_loop g s h us hc k a b) = length b.
Proof.
  rewrite jj_loop_pairs. apply fold_left_inv; [reflexivity|].
  intros b' [jj kk] _ Hb'. unfold triple_visit.
  destruct (_ <? _); [rewrite length_triple_term|]; exact Hb'.
Qed.

Lemma length_neigh_loop g s h (uf us : bool) (hc i k : nat) b a :
  length (fst (neigh_loop g s h uf us hc i k (b, a))) = length b.
Proof.
  unfold neigh_loop. cbn [snd]. apply fold_left_inv; [reflexivity|].
  intros [b' a'] j _ Hb'. cbn [fst] in *. rewrite length_pair_part. exact Hb'.
Qed.

Lemma length_second_loop g s h (uf us : bool) (hc : nat) st :
  length (l_forces (second_loop g s h uf us hc st)) = length (l_forces st).
Proof.
  unfold second_loop. apply fold_left_inv; [reflexivity|].
  intros st' i _ Hst'.
  destruct (neigh_loop _ _ _ _ _ _ _ _ _) as [b' a'] eqn:Hn.
  cbn [l_forces]. rewrite length_jj_loop.
  pose proof (length_neigh_loop g s h uf us hc i
                (3 * (cnfstart g !!! hc + i))%nat (l_forces st')
                (l_atoms st' !!! (i + cnfstart g !!! hc - firstatom g)%nat))
    as Hlen.
  rewrite Hn in Hlen. cbn [fst] in Hlen. congruence.
Qed.

(** The third loop writes force slots of its own configuration only. *)
Lemma third_loop_other g (uf : bool) (hc : nat) st (e : nat) :
  (3 * (cnfstart g !!! hc + inconf g !!! hc) <= e)%nat ->
  l_forces (third_loop g uf hc st) !!! e = l_forces st !!! e
  /\ length (l_forces (third_loop g uf hc st)) = length (l_forces st).
Proof.
  intros He. unfold third_loop. destruct uf; [|split; reflexivity].
  apply fold_left_inv; [split; reflexivity|].
  intros st' i Hi [Hv Hlen]. apply in_seq in Hi. cbn [l_forces].
  destruct FWEIGHT; [|split; assumption].
  split; [buf_read; exact Hv | autorewrite with buf_len; exact Hlen].
Qed.

(** Lines 361-363 on the energy slot and on the local sum. *)
Lemma energy_contrib_spec g (hc : nat) st :
  (energy_p g + hc < length (l_forces st))%nat ->
  l_forces (energy_contrib g hc st) !!! (energy_p g + hc)%nat
  = l_forces st !!! (energy_p g + hc)%nat
    / of_int (Z.of_nat (inconf g !!! hc))
    - force_0 g !!! (energy_p g + hc)%nat
  /\ l_tmpsum (energy_contrib g hc st)
     = l_tmpsum st
       + conf_weight g !!! hc * eweight g
         * dsquare (l_forces (energy_contrib g hc st)
                    !!! (energy_p g + hc)%nat).
Proof.
  intros He. unfold energy_contrib. cbn [l_forces l_tmpsum].
  split; [buf_read; reflexivity | reflexivity].
Qed.

(** The stress pass writes the six stress slots only. *)
Lemma stress_contrib_other g (uf us : bool) (hc : nat) st (e : nat) :
  (e < stress_p g + 6 * hc)%nat ->
  l_forces (stress_contrib g uf us hc st) !!! e = l_forces st !!! e.
Proof.
  intros He. unfold stress_contrib.
  destruct (STRESS && (uf && us)); [|reflexivity].
  apply fold_left_inv; [reflexivity|].
  intros st' i Hi Hv. apply in_seq in Hi. cbn [l_forces].
  buf_read. exact Hv.
Qed.

End ConfFacts.

(** ** The output buffer is overwritten *)

Lemma fold_left_rel {A B : Type} (R : A -> A -> Prop) (f : A -> B -> A)
    (l : list B) (a1 a2 : A) :
  R a1 a2 ->
  (forall a1 a2 x, In x l -> R a1 a2 -> R (f a1 x) (f a2 x)) ->
  R (fold_left f l a1) (fold_left f l a2).
Proof.
  revert a1 a2. induction l as [|x l IH]; intros a1 a2 Ha Hf; cbn; [exact Ha|].
  apply IH.
  - apply Hf; [left; reflexivity | exact Ha].
  - intros b1 b2 y Hy. apply Hf. right; exact Hy.
Qed.

Section Overwrite.
Context {D : Double} {M : Libm D} {Bd : Build} {X : Extern D}.
Implicit Types (g : globals) (s : sw_t) (h : heap) (a : atom_t)
  (b : list dbl) (st : locals) (S : nat -> Prop).






















End Overwrite.

(** ** The small configuration over the real numbers *)

Lemma real_lt_true (a c : R) : (a < c)%R -> @dlt real_double a c = true.
Proof.
  intros H. cbn. destruct (Rlt_dec a c); [reflexivity | contradiction].
Qed.

Lemma real_lt_false (a c : R) : ~ (a < c)%R -> @dlt real_double a c = false.
Proof.
  intros H. cbn. destruct (Rlt_dec a c); [contradiction | reflexivity].
Qed.

Lemma real_eqb_false (a c : R) : a <> c -> @deqb real_double a c = false.
Proof.
  intros H. cbn. destruct (Req_dec_T a c); [contradiction | reflexivity].
Qed.

Lemma sample_slots {D : Double} (ks : list nat) :
  Forall (fun k => k + 2 < 9) ks ->
  slots_ok (Sample.world 0) 0 ks Sample.buffer.
Proof.
  intros H. split; [|cbn; lia].
  eapply Forall_impl; [exact H|]. cbn. intros; lia.
Qed.

(** * The statements of the design document *)

(** ** Pair term *)

(** C1 (as stated, refuted on binary64). A neighbour at distance 1 under
    [delta = 200] and [a1 = 8]: the code hands [delta * (1.0 / (r - a1))] to
    [exp], the closed form of the claim hands it [delta / (r - a1)], and
    these are two different doubles, one unit in the last place apart near
    -28.57.  Whatever [exp] of libm tells the two apart gives a cutoff
    factor that is not the one of the closed form. *)
Lemma pair_cutoff_not_closed_form :
  let h := Sample.steep (D := binary64_double) in
  let s := Sample.views in
  let nj := Sample.near1 (D := binary64_double) in
  let delta := par h (sw_delta s) 0 in
  let a1 := par h (sw_a1 s) 0 in
  (n_r nj <? a1)%D = true
  /\ PrimFloat.eqb (delta * (d1 / (n_r nj - a1)))%D (delta / (n_r nj - a1))%D
     = false
  /\ forall M : Libm binary64_double,
       dexp (delta * (d1 / (n_r nj - a1)))%D <> dexp (delta / (n_r nj - a1))%D ->
       f_cut (pair_eval s h nj) <> spec_f_cut delta a1 (n_r nj).
Proof.
  cbn zeta. repeat conj_split.
  - vm_compute. reflexivity.
  - vm_compute. reflexivity.
  - intros M Hexp. exact Hexp.
Qed.

(** C1 (amended). For a neighbour at distance [r] below the pair cutoff
    [a1], in every arithmetic, the pair evaluation computes
    [phi_r = A r^-p], [phi_a = -B r^-q], the cutoff factor
    [f_cut = exp (delta * (1 / (r - a1)))], [v2 = (phi_r + phi_a) f_cut] and
    the gradient
    [v2' = -v2 delta (1 / (r - a1)) (1 / (r - a1)) - f_cut inv_r (p phi_r + q phi_a)]
    with the neighbour's stored [inv_r]; the energy slot takes half of [v2]
    (halved once more for a self image) and, with force fitting on, the
    force slots of the central atom take the direction times [v2'].  In
    exact arithmetic these are the closed forms [exp (delta / (r - a1))] and
    [-v2 delta / (r - a1)^2 - f_cut (1 / r) (p phi_r + q phi_a)] (the latter
    for [inv_r = 1 / r]).  For a neighbour that is not below [a1] the pair
    part leaves energy, forces and stress exactly as they were. *)
Theorem pair_term_as_computed {D : Double} {M : Libm D} {Bd : Build}
    (g : globals) (s : sw_t) (h : heap) (uf us self : bool)
    (hc k : nat) (nj : neigh_t) (b : list dbl) :
  let col := n_col0 nj in
  let r := n_r nj in
  let pA := par h (sw_A s) col in
  let pB := par h (sw_B s) col in
  let p := par h (sw_p s) col in
  let q := par h (sw_q s) col in
  let delta := par h (sw_delta s) col in
  let a1 := par h (sw_a1 s) col in
  let pv := pair_eval s h nj in
  let halved (v : dbl) := if self then (v * dlit 5 (-1))%D else v in
  ((r <? a1)%D = true ->
     phi_r pv = spec_phi_r pA p r
     /\ phi_a pv = spec_phi_a pB q r
     /\ f_cut pv = computed_f_cut delta a1 r
     /\ v2_val pv = computed_v2 pA pB p q delta a1 r
     /\ pair_grad s h nj pv
        = computed_v2_grad pA pB p q delta a1 r (n_inv_r nj)
     /\ (slots_ok g hc [k] b ->
         pair_part g s h uf us hc k self nj b !!! (energy_p g + hc)
         = (b !!! (energy_p g + hc)%nat
            + dlit 5 (-1) * halved (computed_v2 pA pB p q delta a1 r))%D)
     /\ (slots_ok g hc [k] b -> uf = true ->
         forall c, c < 3 ->
           pair_part g s h uf us hc k self nj b !!! (k + c)
           = (b !!! (k + c)%nat
              + comp c (n_dist nj)
                * halved
                    (computed_v2_grad pA pB p q delta a1 r (n_inv_r nj)))%D)
     /\ (Exact D ->
         computed_f_cut delta a1 r = spec_f_cut delta a1 r
         /\ computed_v2 pA pB p q delta a1 r = spec_v2 pA pB p q delta a1 r
         /\ computed_v2_grad pA pB p q delta a1 r (d1 / r)%D
            = spec_v2_grad pA pB p q delta a1 r))
  /\ ((r <? a1)%D = false ->
      pair_part g s h uf us hc k self nj b = b).
Proof.
  cbn zeta. split; [|apply pair_part_outside].
  intros Hr. repeat conj_split; try reflexivity.
  - intros Hs. exact (pair_part_energy g s h uf us self hc k nj b Hr Hs).
  - intros Hs -> c Hc.
    exact (pair_part_force g s h us self hc k nj b c Hr Hs Hc).
  - intros E.
    assert (Hne : (n_r nj - par h (sw_a1 s) (n_col0 nj))%D <> d0)
      by (apply dsub_neq_zero, dlt_neq, Hr).
    assert (Hcut : computed_f_cut (par h (sw_delta s) (n_col0 nj))
                     (par h (sw_a1 s) (n_col0 nj)) (n_r nj)
                   = spec_f_cut (par h (sw_delta s) (n_col0 nj))
                       (par h (sw_a1 s) (n_col0 nj)) (n_r nj)).
    { unfold computed_f_cut, spec_f_cut. f_equal. apply ddiv_one_mul. }
    assert (Hv2 : computed_v2 (par h (sw_A s) (n_col0 nj))
                    (par h (sw_B s) (n_col0 nj)) (par h (sw_p s) (n_col0 nj))
                    (par h (sw_q s) (n_col0 nj))
                    (par h (sw_delta s) (n_col0 nj))
                    (par h (sw_a1 s) (n_col0 nj)) (n_r nj)
                  = spec_v2 (par h (sw_A s) (n_col0 nj))
                      (par h (sw_B s) (n_col0 nj)) (par h (sw_p s) (n_col0 nj))
                      (par h (sw_q s) (n_col0 nj))
                      (par h (sw_delta s) (n_col0 nj))
                      (par h (sw_a1 s) (n_col0 nj)) (n_r nj)).
    { unfold computed_v2, spec_v2. rewrite Hcut. reflexivity. }
    repeat conj_split; [exact Hcut | exact Hv2 |].
    unfold computed_v2_grad, spec_v2_grad. rewrite Hv2, Hcut.
    f_equal. apply ddiv_one_sq. exact Hne.
Qed.

(** On the small configuration over the reals: neighbour 1 of atom 0 is
    inside the pair cutoff, the far neighbour is not. *)
Lemma pair_term_as_computed_witness :
  let h := Sample.memory (D := real_double) in
  let s := Sample.views in
  let g := Sample.world 0 in
  ((n_r Sample.neigh1 <? par h (sw_a1 s) 0)%D = true
   /\ slots_ok g 0 [0] Sample.buffer
   /\ v2_val (pair_eval s h Sample.neigh1)
      = spec_v2 (par h (sw_A s) 0) (par h (sw_B s) 0) (par h (sw_p s) 0)
          (par h (sw_q s) 0) (par h (sw_delta s) 0) (par h (sw_a1 s) 0)
          (n_r Sample.neigh1)
   /\ pair_part (Bd := Sample.serial) g s h true true 0 0 false Sample.neigh1
        Sample.buffer !!! 0
      = (Sample.buffer !!! 0
         + comp 0 (n_dist Sample.neigh1)
           * computed_v2_grad (par h (sw_A s) 0) (par h (sw_B s) 0)
               (par h (sw_p s) 0) (par h (sw_q s) 0) (par h (sw_delta s) 0)
               (par h (sw_a1 s) 0) (n_r Sample.neigh1)
               (n_inv_r Sample.neigh1))%D)
  /\ ((n_r Sample.far <? par h (sw_a1 s) 0)%D = false
      /\ pair_part (Bd := Sample.serial) g s h true true 0 0 false Sample.far
           Sample.buffer
         = Sample.buffer).
Proof.
  cbn zeta.
  assert (Hin : (n_r (Sample.neigh1 (D := real_double))
                 <? par Sample.memory (sw_a1 Sample.views) 0)%D = true)
    by (apply real_lt_true; change (1 < 2)%R; lra).
  assert (Hout : (n_r (Sample.far (D := real_double))
                  <? par Sample.memory (sw_a1 Sample.views) 0)%D = false)
    by (apply real_lt_false; change (~ (5 < 2)%R); lra).
  assert (Hs : slots_ok (Sample.world 0) 0 [0] (Sample.buffer (D := real_double)))
    by (apply sample_slots; repeat constructor).
  split.
  - destruct (pair_term_as_computed (Bd := Sample.serial) (Sample.world 0)
                Sample.views Sample.memory true true false 0 0 Sample.neigh1
                Sample.buffer) as [Hinside _].
    destruct (Hinside Hin) as (_ & _ & _ & Hv2 & _ & _ & Hf & Hexact).
    destruct (Hexact real_exact) as (_ & Hclosed & _).
    repeat conj_split; [exact Hin | exact Hs | | exact (Hf Hs eq_refl 0 ltac:(lia))].
    rewrite Hv2. exact Hclosed.
  - destruct (pair_term_as_computed (Bd := Sample.serial) (Sample.world 0)
                Sample.views Sample.memory true true false 0 0 Sample.far
                Sample.buffer) as [_ Houtside].
    split; [exact Hout | exact (Houtside Hout)].
Defined.

(** ** Three-body term *)


(** In exact arithmetic the product is [lambda f_j f_k] times the square of
    [cos + 1/3]. *)
Remark spec_v3_square {D : Double} {E : Exact D} (lambda f_j f_k cosine : dbl) :
  spec_v3 lambda f_j f_k cosine
  = (lambda * f_j * f_k
     * ((cosine + d1 / of_int 3) * (cosine + d1 / of_int 3)))%D.
Proof. unfold spec_v3. cbn zeta. apply dmul_assoc_sq. Qed.



(** ** Momentum *)




(** ** Energy residual *)

Lemma length_reset_conf {D : Double} {Bd : Build} (g : globals) (hc : nat)
    (b : list dbl) :
  length (reset_conf g hc b) = length b.
Proof.
  unfold reset_conf. destruct STRESS; [|apply length_insert].
  apply fold_left_inv; [apply length_insert|].
  intros b' i _ Hb'. rewrite length_insert. exact Hb'.
Qed.

Lemma length_reset_loop {D : Double} (g : globals) (uf : bool) (hc : nat)
    (b : list dbl) :
  length (reset_loop g uf hc b) = length b.
Proof.
  unfold reset_loop. apply fold_left_inv; [reflexivity|].
  intros b' i _ Hb'. destruct uf; rewrite !length_insert; exact Hb'.
Qed.

(** C4. For a configuration [hc], after both passes (the second loop) and
    the force sum (the third loop), the stored energy is the raw accumulated
    sum divided by the atom count minus the reference energy, it stays so to
    the end of the configuration's round, and the local objective grows by
    configuration weight times energy weight times the square of that
    residual. The energy slot lies after the force slots of the
    configuration, before its stress slots, and inside the buffer. *)
Theorem energy_normalisation {D : Double} {M : Libm D} {Bd : Build}
    {X : Extern D} (g : globals) (s : sw_t) (h : heap) (st : locals)
    (hc : nat) :
  let uf := rdb (conf_uf g) (hc - firstconf g) in
  let us := rdb (conf_us g) (hc - firstconf g) in
  let e := energy_p g + hc in
  let passes :=
    second_loop g s h uf us hc
      (mk_locals (reset_loop g uf hc (reset_conf g hc (l_forces st)))
         (l_atoms st) (l_tmpsum st) (l_atom st)) in
  let summed := third_loop g uf hc passes in
  let normal := energy_contrib g hc summed in
  let residual :=
    (l_forces passes !!! e / of_int (Z.of_nat (inconf g !!! hc))
     - force_0 g !!! e)%D in
  3 * (cnfstart g !!! hc + inconf g !!! hc) <= e ->
  e < stress_p g + 6 * hc ->
  e < length (l_forces st) ->
  conf_body g s h st hc = stress_contrib g uf us hc normal
  /\ l_forces (conf_body g s h st hc) !!! e = residual
  /\ l_tmpsum normal
     = (l_tmpsum summed
        + conf_weight g !!! hc * eweight g * dsquare residual)%D.
Proof.
  cbn zeta. intros Hforce Hstress Hlen.
  set (uf := rdb (conf_uf g) (hc - firstconf g)).
  set (us := rdb (conf_us g) (hc - firstconf g)).
  set (passes := second_loop g s h uf us hc _).
  assert (Hlp : length (l_forces passes) = length (l_forces st)).
  { subst passes. rewrite length_second_loop. cbn [l_forces].
    rewrite length_reset_loop, length_reset_conf. reflexivity. }
  destruct (third_loop_other g uf hc passes (energy_p g + hc) Hforce)
    as [Hsame Hl3].
  destruct (energy_contrib_spec g hc (third_loop g uf hc passes)) as [He Ht];
    [lia|].
  rewrite Hsame in He.
  repeat conj_split.
  - reflexivity.
  - change (conf_body g s h st hc)
      with (stress_contrib g uf us hc
              (energy_contrib g hc (third_loop g uf hc passes))).
    rewrite stress_contrib_other by exact Hstress. exact He.
  - rewrite Ht, He. reflexivity.
Qed.

(** On the small configuration over the reals. *)
Lemma energy_normalisation_witness :
  let g := Sample.world (D := real_double) 0 in
  let X := Sample.idle real_double in
  let st :=
    mk_locals Sample.buffer [Sample.atom0; Sample.atom1; Sample.atom2] d0 0 in
  let passes :=
    second_loop (Bd := Sample.serial) g Sample.views Sample.memory true true 0
      (mk_locals
         (reset_loop g true 0 (reset_conf (Bd := Sample.serial) g 0 (l_forces st)))
         (l_atoms st) (l_tmpsum st) (l_atom st)) in
  (3 * (cnfstart g !!! 0 + inconf g !!! 0) <= energy_p g + 0
   /\ energy_p g + 0 < stress_p g + 6 * 0
   /\ energy_p g + 0 < length (l_forces st))
  /\ l_forces (conf_body (Bd := Sample.serial) g Sample.views Sample.memory st 0)
       !!! (energy_p g + 0)
     = (l_forces passes !!! (energy_p g + 0)%nat
        / of_int (Z.of_nat (inconf g !!! 0))
        - force_0 g !!! (energy_p g + 0)%nat)%D.
Proof.
  cbn zeta.
  assert (H1 : 3 * (cnfstart (Sample.world (D := real_double) 0) !!! 0
                    + inconf (Sample.world (D := real_double) 0) !!! 0)
               <= energy_p (Sample.world (D := real_double) 0) + 0)
    by (cbn; lia).
  assert (H2 : energy_p (Sample.world (D := real_double) 0) + 0
               < stress_p (Sample.world (D := real_double) 0) + 6 * 0)
    by (cbn; lia).
  assert (H3 : energy_p (Sample.world (D := real_double) 0) + 0
               < length (l_forces
                   (mk_locals (D := real_double) Sample.buffer
                      [Sample.atom0; Sample.atom1; Sample.atom2] d0 0)))
    by (cbn; lia).
  split; [repeat conj_split; assumption|].
  exact (proj1 (proj2
    (energy_normalisation (Bd := Sample.serial) (X := Sample.idle real_double)
       (Sample.world 0) Sample.views Sample.memory
       (mk_locals Sample.buffer [Sample.atom0; Sample.atom1; Sample.atom2] d0 0)
       0 H1 H2 H3))).
Defined.

(** ** Stress *)

Section StressTerms.
Context {D : Double} {M : Libm D} {Bd : Build}.
Local Open Scope dbl_scope.
Implicit Types (g : globals) (s : sw_t) (h : heap) (nj : neigh_t)
  (a : atom_t) (b : list dbl).

(** Lines 221-232: what the pair term of a neighbour inside the cutoff does
    to stress slot [c]. *)
Lemma pair_part_stress g s h (uf us self : bool) (hc k c : nat) nj b :
  STRESS = true -> (c < 6)%nat ->
  (n_r nj <? par h (sw_a1 s) (n_col0 nj)) = true ->
  slots_ok g hc [k] b ->
  let v2_grad :=
    if self then pair_grad s h nj (pair_eval s h nj) * dlit 5 (-1)
    else pair_grad s h nj (pair_eval s h nj) in
  let tmp_force :=
    mk_vector (vx (n_dist nj) * v2_grad) (vy (n_dist nj) * v2_grad)
      (vz (n_dist nj) * v2_grad) in
  pair_part g s h uf us hc k self nj b !!! (stress_p g + 6 * hc + c)%nat
  = if uf && us
    then b !!! (stress_p g + 6 * hc + c)%nat
         - pair_stress_term (n_rdist nj) tmp_force (pair_axes c)
    else b !!! (stress_p g + 6 * hc + c)%nat.
Proof.
  intros HS Hc Hr (Hk & He & Hlen). apply Forall_cons in Hk as [Hk _].
  cbn zeta. unfold pair_part. rewrite Hr, HS. cbn zeta.
  destruct uf; [destruct us|]; cbn [andb];
    [ do 6 (destruct c as [|c]; [rewrite ?Nat.add_0_r; buf_read;
        reflexivity|]); lia
    | buf_read; reflexivity
    | buf_read; reflexivity ].
Qed.

(** Lines 316-329: what a triple inside the cutoff with a nonzero [lambda]
    does to stress slot [c]. *)
Lemma triple_visit_stress g s h (us : bool) (hc k c : nat) a (jj kk : nat) b :
  STRESS = true -> (c < 6)%nat ->
  let tj := at_neigh a !!! jj in
  let tk := at_neigh a !!! kk in
  let lambda := par3 h (sw_lambda s) (at_typ a) (n_typ tj) (n_typ tk) in
  let tv :=
    triple_eval lambda tj tk
      (at_angl_part a !!! (n_ijk_start tj + (kk - jj - 1))%nat) in
  (n_r tj <? par h (sw_a2 s) (n_col0 tj)) = true ->
  (n_r tk <? par h (sw_a2 s) (n_col0 tk)) = true ->
  (d0 =? lambda) = false ->
  slots_ok g hc [k; 3 * n_nr tj; 3 * n_nr tk]%nat b ->
  triple_visit g s h us hc k a b (jj, kk) !!! (stress_p g + 6 * hc + c)%nat
  = if us
    then b !!! (stress_p g + 6 * hc + c)%nat
         + triple_stress_term (force_j tv) (force_k tv) (n_rdist tj)
             (n_rdist tk) (triple_axes c)
    else b !!! (stress_p g + 6 * hc + c)%nat.
Proof.
  intros HS Hc. cbn zeta. intros Hj Hk Hl (Hs & He & Hlen).
  apply Forall_cons in Hs as [Hs1 Hs]. apply Forall_cons in Hs as [Hs2 Hs].
  apply Forall_cons in Hs as [Hs3 _].
  unfold triple_visit, triple_term. cbn [fst snd]. rewrite Hj, Hk, Hl, HS.
  cbn zeta. unfold triple_forces, triple_stress.
  destruct us; cbn [andb];
    [ do 6 (destruct c as [|c]; [rewrite ?Nat.add_0_r; buf_read;
        reflexivity|]); lia
    | buf_read; reflexivity ].
Qed.

End StressTerms.

Section StressExact.
Context {D : Double} {E : Exact D}.
Local Open Scope dbl_scope.

Add Field dbl_field_stress : dbl_field.

(** In exact arithmetic the pair term is half the outer product and the
    three-body term the sum of the two symmetrized outer products. *)
Lemma pair_stress_term_outer (rdist force : vector) (ab : nat * nat) :
  pair_stress_term rdist force ab = dlit 5 (-1) * outer rdist force ab.
Proof. unfold pair_stress_term, outer. ring. Qed.

Lemma triple_stress_term_sym (fj fk rj rk : vector) (ab : nat * nat) :
  triple_stress_term fj fk rj rk ab = sym_outer fj rj ab + sym_outer fk rk ab.
Proof.
  unfold triple_stress_term, sym_outer.
  destruct (Nat.eqb (fst ab) (snd ab)); [reflexivity | ring].
Qed.

(** A force along the displacement gives a symmetric outer product. *)
Lemma outer_parallel (rdist dist : vector) (r v : dbl) (i j : nat) :
  (forall i, comp i rdist = r * comp i dist) ->
  outer rdist (mk_vector (vx dist * v) (vy dist * v) (vz dist * v)) (i, j)
  = outer rdist (mk_vector (vx dist * v) (vy dist * v) (vz dist * v)) (j, i).
Proof.
  intros Hcol. unfold outer. cbn [fst snd]. rewrite !Hcol.
  assert (Hf : forall i,
             comp i (mk_vector (vx dist * v) (vy dist * v) (vz dist * v))
             = comp i dist * v).
  { intros [|[|n]]; reflexivity. }
  rewrite !Hf. ring.
Qed.

End StressExact.

(** The pair gradient of neighbour 1 of the small configuration over the
    reals is [-4 / e]. *)
Lemma sample_pair_grad :
  pair_grad (D := real_double) Sample.views Sample.memory Sample.neigh1
    (pair_eval Sample.views Sample.memory Sample.neigh1)
  = (- (4 * exp (-1)))%R.
Proof.
  change (pair_grad (D := real_double) Sample.views Sample.memory Sample.neigh1
            (pair_eval Sample.views Sample.memory Sample.neigh1))
    with (- ((1 * Rpower 1 (- 4) + - 1 * Rpower 1 (- 0))
             * exp (1 * (1 / (1 - 2))))
          * 1 * (1 / (1 - 2)) * (1 / (1 - 2))
          - exp (1 * (1 / (1 - 2))) * (1 / 1)
            * (4 * (1 * Rpower 1 (- 4)) + 0 * (- 1 * Rpower 1 (- 0))))%R.
  assert (Hp : forall y, Rpower 1 y = 1%R).
  { intros y. unfold Rpower. rewrite ln_1, Rmult_0_r. apply exp_0. }
  rewrite !Hp.
  replace (1 * (1 / (1 - 2)))%R with (-1)%R by lra.
  lra.
Qed.

(** C5 (as stated, refuted). Neighbour 1 of atom 0 of the small
    configuration over the reals, in a build with [STRESS] and with stress
    fitting on: its displacement is (1, 0, 0) and its pair force
    (-4/e, 0, 0), so the symmetrized outer product has the xx entry -4/e.
    With force fitting on, the xx slot loses half of that entry, not the
    entry; with force fitting off it loses nothing. *)
Lemma pair_stress_not_as_stated :
  let h := Sample.memory (D := real_double) in
  let s := Sample.views in
  let g := Sample.world 0 in
  let nj := Sample.neigh1 (D := real_double) in
  let grad := pair_grad s h nj (pair_eval s h nj) in
  let force :=
    mk_vector (vx (n_dist nj) * grad)%D (vy (n_dist nj) * grad)%D
      (vz (n_dist nj) * grad)%D in
  (n_r nj <? par h (sw_a1 s) 0)%D = true
  /\ sym_outer force (n_rdist nj) (0, 0) <> d0
  /\ pair_part (Bd := Sample.serial) g s h true true 0 0 false nj
       Sample.buffer !!! 10
     <> (Sample.buffer !!! 10%nat - sym_outer force (n_rdist nj) (0, 0))%D
  /\ pair_part (Bd := Sample.serial) g s h false true 0 0 false nj
       Sample.buffer !!! 10
     = Sample.buffer !!! 10.
Proof.
  cbn zeta.
  assert (Hin : (n_r (Sample.neigh1 (D := real_double))
                 <? par Sample.memory (sw_a1 Sample.views) 0)%D = true)
    by (apply real_lt_true; change (1 < 2)%R; lra).
  assert (Hs : slots_ok (Sample.world 0) 0 [0] (Sample.buffer (D := real_double)))
    by (apply sample_slots; repeat constructor).
  pose proof (exp_pos (-1)) as He.
  repeat conj_split.
  - exact Hin.
  - unfold sym_outer. cbn [fst snd Nat.eqb comp vx].
    rewrite sample_pair_grad.
    change ((1 * - (4 * exp (-1))) * 1 <> 0)%R. lra.
  - change 10 with (stress_p (Sample.world (D := real_double) 0) + 6 * 0 + 0).
    rewrite (pair_part_stress (Bd := Sample.serial) (Sample.world 0)
               Sample.views Sample.memory true true false 0 0 0 Sample.neigh1
               Sample.buffer eq_refl ltac:(lia) Hin Hs).
    cbn [andb]. unfold pair_stress_term, sym_outer, pair_axes.
    cbn [fst snd Nat.eqb comp vx]. rewrite sample_pair_grad.
    change ((0 - 5 / 10 * 1 * (1 * - (4 * exp (-1))))
            <> (0 - (1 * - (4 * exp (-1))) * 1))%R.
    lra.
  - change 10 with (stress_p (Sample.world (D := real_double) 0) + 6 * 0 + 0).
    rewrite (pair_part_stress (Bd := Sample.serial) (Sample.world 0)
               Sample.views Sample.memory false true false 0 0 0 Sample.neigh1
               Sample.buffer eq_refl ltac:(lia) Hin Hs).
    reflexivity.
Qed.

(** C5 (amended). In a build with [STRESS], in every arithmetic.  The pair
    term of a neighbour inside the cutoff takes from stress slot [c], when
    force fitting and stress fitting are both on, the product of one
    component of the displacement [rdist] and one component of the pair
    force with the factor 0.5, diagonal slots included, the axes of the six
    slots being xx, yy, zz, xy, yz, zx; with force or stress fitting off it
    leaves the stress slots alone.  A triple inside the cutoff with a
    nonzero [lambda] adds to stress slot [c], when stress fitting is on, the
    products of [force_j] with [r_j] and of [force_k] with [r_k],
    symmetrized with the factor 0.5 on the off-diagonal slots, the axes of
    the six slots being xx, yy, zz, yz, zx, xy; with stress fitting off it
    leaves them alone.  The two terms accumulate with opposite signs.  In
    exact arithmetic the pair term is half the outer product (symmetric when
    [rdist] is [r] times the direction) and the three-body term is the sum
    of the two symmetrized outer products. *)
Theorem stress_terms {D : Double} {M : Libm D} {Bd : Build} (g : globals)
    (s : sw_t) (h : heap) (uf us : bool) (hc k : nat) (self : bool)
    (nj : neigh_t) (a : atom_t) (jj kk c : nat) (b : list dbl) :
  STRESS = true -> c < 6 ->
  let stresses := stress_p g + 6 * hc in
  let v2_grad :=
    if self then (pair_grad s h nj (pair_eval s h nj) * dlit 5 (-1))%D
    else pair_grad s h nj (pair_eval s h nj) in
  let tmp_force :=
    mk_vector (vx (n_dist nj) * v2_grad)%D (vy (n_dist nj) * v2_grad)%D
      (vz (n_dist nj) * v2_grad)%D in
  let tj := at_neigh a !!! jj in
  let tk := at_neigh a !!! kk in
  let lambda := par3 h (sw_lambda s) (at_typ a) (n_typ tj) (n_typ tk) in
  let tv :=
    triple_eval lambda tj tk
      (at_angl_part a !!! (n_ijk_start tj + (kk - jj - 1))) in
  let inside (n : neigh_t) := (n_r n <? par h (sw_a2 s) (n_col0 n))%D in
  ((n_r nj <? par h (sw_a1 s) (n_col0 nj))%D = true ->
   slots_ok g hc [k] b ->
   pair_part g s h uf us hc k self nj b !!! (stresses + c)
   = if uf && us
     then (b !!! (stresses + c)%nat
           - pair_stress_term (n_rdist nj) tmp_force (pair_axes c))%D
     else b !!! (stresses + c))
  /\ (inside tj = true -> inside tk = true -> (d0 =? lambda)%D = false ->
      slots_ok g hc [k; 3 * n_nr tj; 3 * n_nr tk] b ->
      triple_visit g s h us hc k a b (jj, kk) !!! (stresses + c)
      = if us
        then (b !!! (stresses + c)%nat
              + triple_stress_term (force_j tv) (force_k tv) (n_rdist tj)
                  (n_rdist tk) (triple_axes c))%D
        else b !!! (stresses + c))
  /\ (Exact D ->
      pair_stress_term (n_rdist nj) tmp_force (pair_axes c)
      = (dlit 5 (-1) * outer (n_rdist nj) tmp_force (pair_axes c))%D
      /\ triple_stress_term (force_j tv) (force_k tv) (n_rdist tj)
           (n_rdist tk) (triple_axes c)
         = (sym_outer (force_j tv) (n_rdist tj) (triple_axes c)
            + sym_outer (force_k tv) (n_rdist tk) (triple_axes c))%D
      /\ ((forall i, comp i (n_rdist nj) = (n_r nj * comp i (n_dist nj))%D) ->
          forall i j,
            outer (n_rdist nj) tmp_force (i, j)
            = outer (n_rdist nj) tmp_force (j, i))).
Proof.
  intros HS Hc. cbn zeta. repeat conj_split.
  - intros Hr Hs. exact (pair_part_stress g s h uf us self hc k c nj b HS Hc Hr Hs).
  - intros Hj Hk Hl Hs.
    exact (triple_visit_stress g s h us hc k c a jj kk b HS Hc Hj Hk Hl Hs).
  - intros E. repeat conj_split.
    + apply pair_stress_term_outer.
    + apply triple_stress_term_sym.
    + intros Hcol i j. apply (outer_parallel _ _ (n_r nj)). exact Hcol.
Qed.

(** On the small configuration over the reals: the pair term of neighbour 1
    at the xx slot, where it takes [0.5 * 1 * (-4/e)], and the triple of
    atom 0 at the last slot (xy), where it adds [0.5 * (2/3 + 2/3)]. *)
Lemma stress_terms_witness :
  let h := Sample.memory (D := real_double) in
  let s := Sample.views in
  let g := Sample.world 0 in
  let grad := pair_grad s h Sample.neigh1 (pair_eval s h Sample.neigh1) in
  let tmp_force :=
    mk_vector (vx Sample.ex * grad)%D (vy Sample.ex * grad)%D
      (vz Sample.ex * grad)%D in
  let tv := triple_eval (par3 h (sw_lambda s) 0 0 0) Sample.neigh1
              Sample.neigh2 (mk_angl d0) in
  (STRESS (Build := Sample.serial) = true /\ 0 < 6 /\ 5 < 6
   /\ (n_r Sample.neigh1 <? par h (sw_a1 s) 0)%D = true
   /\ (n_r Sample.neigh1 <? par h (sw_a2 s) 0)%D = true
   /\ (n_r Sample.neigh2 <? par h (sw_a2 s) 0)%D = true
   /\ slots_ok g 0 [0; 3; 6] Sample.buffer)
  /\ pair_part (Bd := Sample.serial) g s h true true 0 0 false Sample.neigh1
       Sample.buffer !!! (10 + 0)
     = (Sample.buffer !!! (10 + 0)%nat
        - pair_stress_term Sample.ex tmp_force (0, 0))%D
  /\ pair_stress_term Sample.ex tmp_force (0, 0) <> d0
  /\ triple_visit (Bd := Sample.serial) g s h true 0 0 Sample.atom0
       Sample.buffer (0, 1) !!! (10 + 5)
     = (Sample.buffer !!! (10 + 5)%nat
        + triple_stress_term (force_j tv) (force_k tv) Sample.ex Sample.ey
            (0, 1))%D
  /\ triple_stress_term (force_j tv) (force_k tv) Sample.ex Sample.ey (0, 1)
     <> d0.
Proof.
  cbn zeta.
  assert (Hin : (n_r (Sample.neigh1 (D := real_double))
                 <? par Sample.memory (sw_a1 Sample.views) 0)%D = true)
    by (apply real_lt_true; change (1 < 2)%R; lra).
  assert (H1 : (n_r (Sample.neigh1 (D := real_double))
                <? par Sample.memory (sw_a2 Sample.views) 0)%D = true)
    by (apply real_lt_true; change (1 < 3)%R; lra).
  assert (H2 : (n_r (Sample.neigh2 (D := real_double))
                <? par Sample.memory (sw_a2 Sample.views) 0)%D = true)
    by (apply real_lt_true; change (1 < 3)%R; lra).
  assert (Hl : (d0 =? par3 (Sample.memory (D := real_double))
                        (sw_lambda Sample.views) 0 0 0)%D = false)
    by (apply real_eqb_false; change (0 <> 1)%R; lra).
  assert (Hs : slots_ok (Sample.world 0) 0 [0; 3; 6]
                 (Sample.buffer (D := real_double)))
    by (apply sample_slots; repeat constructor).
  assert (Hs1 : slots_ok (Sample.world 0) 0 [0]
                  (Sample.buffer (D := real_double)))
    by (apply sample_slots; repeat constructor).
  destruct (stress_terms (Bd := Sample.serial) (Sample.world 0) Sample.views
              Sample.memory true true 0 0 false Sample.neigh1 Sample.atom0
              0 1 0 Sample.buffer eq_refl ltac:(lia))
    as (Hpair & _ & _).
  destruct (stress_terms (Bd := Sample.serial) (Sample.world 0) Sample.views
              Sample.memory true true 0 0 false Sample.neigh1 Sample.atom0
              0 1 5 Sample.buffer eq_refl ltac:(lia))
    as (_ & Htriple & _).
  pose proof (exp_pos (-1)) as He.
  split; [repeat conj_split; try assumption; try reflexivity; lia|].
  repeat conj_split.
  - exact (Hpair Hin Hs1).
  - unfold pair_stress_term. cbn [fst snd comp vx]. rewrite sample_pair_grad.
    change (5 / 10 * 1 * (1 * - (4 * exp (-1))) <> 0)%R. lra.
  - exact (Htriple H1 H2 Hl Hs).
  - unfold triple_stress_term, triple_eval.
    cbn [fst snd Nat.eqb comp force_j force_k vx vy vz].
    change (par3 (Sample.memory (D := real_double)) (sw_lambda Sample.views)
              0 0 0) with 1%R.
    unfold Sample.neigh1, Sample.neigh2, Sample.ex, Sample.ey.
    cbn [n_f n_df n_r n_rdist a_cos vx vy vz].
    change (dlit (Double := real_double) 5 (-1)) with (5 / 10)%R.
    cbv [d0 d1 of_int dadd dsub dmul ddiv real_double].
    lra.
Defined.

(** ** Force weighting *)

Section WeightFacts.
Context {D : Double} {M : Libm D} {Bd : Build} {X : Extern D}.
Implicit Types (g : globals) (s : sw_t) (h : heap) (st : locals).

(** The neighbour loop changes the caches of the atom and nothing else. *)
Lemma neigh_loop_absforce g s h (uf us : bool) (hc i k : nat)
    (b : list dbl) (a : atom_t) :
  at_absforce (snd (neigh_loop g s h uf us hc i k (b, a))) = at_absforce a.
Proof.
  unfold neigh_loop. cbn [snd].
  apply (fold_left_inv
           (fun p : list dbl * atom_t => at_absforce (snd p) = at_absforce a));
    [reflexivity|].
  intros [b' a'] j _ Ha. exact Ha.
Qed.

(** The second loop leaves [atom] at the last atom of the configuration and
    every atom's [absforce] as it was. *)
Lemma second_loop_atom g s h (uf us : bool) (hc : nat) st :
  0 < inconf g !!! hc ->
  l_atom (second_loop g s h uf us hc st)
  = inconf g !!! hc - 1 + cnfstart g !!! hc - firstatom g.
Proof.
  unfold second_loop. destruct (inconf g !!! hc) as [|n]; [lia|]. intros _.
  rewrite fold_seq_S.
  destruct (neigh_loop _ _ _ _ _ _ _ _ _) as [b' a']. cbn [l_atom].
  f_equal. lia.
Qed.

Lemma second_loop_absforce g s h (uf us : bool) (hc : nat) st (idx : nat) :
  at_absforce (l_atoms (second_loop g s h uf us hc st) !!! idx)
  = at_absforce (l_atoms st !!! idx).
Proof.
  unfold second_loop.
  apply (fold_left_inv
           (fun st' => at_absforce (l_atoms st' !!! idx)
                       = at_absforce (l_atoms st !!! idx)));
    [reflexivity|].
  intros st' i _ Hst'.
  set (atom := i + cnfstart g !!! hc - firstatom g).
  pose proof (neigh_loop_absforce g s h uf us hc i
                (3 * (cnfstart g !!! hc + i)) (l_forces st')
                (l_atoms st' !!! atom)) as Habs.
  destruct (neigh_loop _ _ _ _ _ _ _ _ _) as [b' a']. cbn [snd] in Habs.
  cbn [l_atoms]. rewrite list_lookup_total_insert.
  destruct (decide (atom = idx /\ atom < length (l_atoms st'))) as [[<- _]|_];
    [rewrite Habs|]; exact Hst'.
Qed.

(** The third loop with [FWEIGHT]: after [n] rounds the force slots of the
    first [n] atoms are divided by [FORCE_EPS] plus the [absforce] behind
    the pointer [atom], which no round moves. *)
Lemma third_loop_divides g (hc : nat) st (n : nat) :
  FWEIGHT = true ->
  3 * (cnfstart g !!! hc + n) <= length (l_forces st) ->
  let w := (FORCE_EPS + at_absforce (l_atoms st !!! l_atom st))%D in
  let step (st : locals) (i : nat) :=
    let n_i := 3 * (cnfstart g !!! hc + i) in
    let a := l_atoms st !!! l_atom st in
    let forces :=
      div_at
        (div_at (div_at (l_forces st) (n_i + 0) (FORCE_EPS + at_absforce a)%D)
           (n_i + 1) (FORCE_EPS + at_absforce a)%D)
        (n_i + 2) (FORCE_EPS + at_absforce a)%D in
    let tmpsum :=
      if negb CONTRIB || at_contrib a then
        (l_tmpsum st
         + conf_weight g !!! hc
           * (dsquare (forces !!! n_i) + dsquare (forces !!! (n_i + 1)%nat)
              + dsquare (forces !!! (n_i + 2)%nat)))%D
      else l_tmpsum st in
    mk_locals forces (l_atoms st) tmpsum (l_atom st) in
  let r := fold_left step (seq 0 n) st in
  l_atoms r = l_atoms st /\ l_atom r = l_atom st
  /\ length (l_forces r) = length (l_forces st)
  /\ forall j,
       l_forces r !!! j
       = if decide (3 * (cnfstart g !!! hc) <= j < 3 * (cnfstart g !!! hc + n))
         then (l_forces st !!! j / w)%D
         else l_forces st !!! j.
Proof.
  intros HW. cbn zeta. induction n as [|n IH]; intros Hlen.
  - cbn. repeat conj_split; try reflexivity.
    intros j. rewrite decide_False by lia. reflexivity.
  - rewrite fold_seq_S. destruct IH as (Hat & Hatom & Hl & Hread); [lia|].
    cbn [l_atoms l_atom l_forces]. rewrite Hat, Hatom.
    repeat conj_split; try reflexivity.
    + autorewrite with buf_len. exact Hl.
    + intros j.
      set (n_i := 3 * (cnfstart g !!! hc + n)).
      destruct (decide (j = n_i + 0 \/ j = n_i + 1 \/ j = n_i + 2))
        as [Hj | Hj].
      * rewrite decide_True by lia.
        destruct Hj as [-> | [-> | ->]]; buf_read; rewrite Hread;
          rewrite decide_False by lia; reflexivity.
      * buf_read. rewrite Hread.
        destruct (decide (3 * (cnfstart g !!! hc) <= j
                          < 3 * (cnfstart g !!! hc + n))) as [Hin | Hout].
        -- rewrite decide_True by lia. reflexivity.
        -- rewrite decide_False by lia. reflexivity.
Qed.

End WeightFacts.

(** C6 (what the code does). With [FWEIGHT] compiled in and force fitting on
    for the configuration, the three force residuals of EVERY atom [i] of the
    configuration are divided by [FORCE_EPS] plus the reference-force
    magnitude of the LAST atom of the configuration: the third loop never
    assigns [atom], so [atom->absforce] is read through the pointer the
    second loop left behind.  The divisor is the atom's own only for the
    last atom. *)
Theorem force_weight_uses_last_atom {D : Double} {M : Libm D} {Bd : Build}
    {X : Extern D} (g : globals) (s : sw_t) (h : heap) (us : bool)
    (st : locals) (hc i c : nat) :
  FWEIGHT = true ->
  i < inconf g !!! hc -> c < 3 ->
  3 * (cnfstart g !!! hc + inconf g !!! hc) <= length (l_forces st) ->
  let last := inconf g !!! hc - 1 + cnfstart g !!! hc - firstatom g in
  let slot := 3 * (cnfstart g !!! hc + i) + c in
  let passes := second_loop g s h true us hc st in
  l_forces (third_loop g true hc passes) !!! slot
  = (l_forces passes !!! slot
     / (FORCE_EPS + at_absforce (l_atoms st !!! last)))%D.
Proof.
  intros HW Hi Hc Hlen. cbn zeta.
  set (passes := second_loop g s h true us hc st).
  pose proof (third_loop_divides g hc passes (inconf g !!! hc) HW) as H.
  cbn zeta in H. destruct H as (_ & _ & _ & Hread).
  { subst passes. rewrite length_second_loop. exact Hlen. }
  unfold third_loop. rewrite HW. rewrite Hread.
  rewrite decide_True by lia.
  subst passes. rewrite second_loop_atom by lia.
  rewrite second_loop_absforce. reflexivity.
Qed.

(** On the small configuration over the reals: the first component of
    atom 0 is divided by [FORCE_EPS] plus the magnitude of atom 2. *)
Lemma force_weight_uses_last_atom_witness :
  let st :=
    mk_locals (D := real_double) Sample.buffer
      [Sample.atom0; Sample.atom1; Sample.atom2] d0 0 in
  let passes :=
    second_loop (Bd := Sample.serial) (Sample.world 0) Sample.views
      Sample.memory true true 0 st in
  (FWEIGHT (Build := Sample.serial) = true /\ 0 < 3 /\ 3 * (0 + 3) <= 16)
  /\ l_forces
       (third_loop (Bd := Sample.serial) (X := Sample.idle real_double)
          (Sample.world 0) true 0 passes) !!! 0
     = (l_forces passes !!! 0
        / (FORCE_EPS (Extern := Sample.idle real_double)
           + at_absforce Sample.atom2))%D.
Proof.
  cbn zeta. split; [repeat conj_split; [reflexivity | lia | lia]|].
  exact (force_weight_uses_last_atom (Bd := Sample.serial)
           (X := Sample.idle real_double) (Sample.world 0) Sample.views
           Sample.memory true
           (mk_locals Sample.buffer [Sample.atom0; Sample.atom1; Sample.atom2]
              d0 0)
           0 0 0 eq_refl ltac:(cbn; lia) ltac:(lia) ltac:(cbn; lia)).
Defined.

(** Two atoms without neighbours, reference forces [f0 .. f5] and
    magnitudes [w0] and [w1], run through the whole round of the
    configuration: both atoms are divided by [FORCE_EPS + w1]. *)
Example force_weight_two_atoms {D : Double} {M : Libm D} {X : Extern D}
    (s : sw_t) (h : heap) (w0 w1 f0 f1 f2 f3 f4 f5 e stale : dbl) :
  let Bd := Build_Build false false true false in
  let g :=
    mk_globals 0 1 0 0 [2] [0] [true] [false] [d1] [d1]
      [f0; f1; f2; f3; f4; f5; e] 6 7 d1 d1 1 1 in
  let atoms := [mk_atom 0 [] [] w0 true; mk_atom 0 [] [] w1 true] in
  l_forces (conf_body g s h (mk_locals (replicate 7 stale) atoms d0 0) 0)
  = [ (- f0 / (FORCE_EPS + w1))%D; (- f1 / (FORCE_EPS + w1))%D;
      (- f2 / (FORCE_EPS + w1))%D; (- f3 / (FORCE_EPS + w1))%D;
      (- f4 / (FORCE_EPS + w1))%D; (- f5 / (FORCE_EPS + w1))%D;
      (d0 / of_int 2 - e)%D ].
Proof. reflexivity. Qed.

(** The same on binary64 with [FORCE_EPS = 0.1], [w0 = 2], [w1 = 8] and a
    reference force of [-1] on the first component of atom 0: the stored
    residual is [1 / 8.1], not [1 / 2.1]. *)
Example force_weight_binary64 :
  let Bd := Build_Build false false true false in
  let M := Sample.unreached in
  let X := Sample.idle binary64_double in
  let g :=
    mk_globals (D := binary64_double) 0 1 0 0 [2] [0] [true] [false] [d1] [d1]
      [(-1)%float; 0%float; 0%float; 0%float; 0%float; 0%float; 0%float]
      6 7 d1 d1 1 1 in
  let atoms :=
    [mk_atom (D := binary64_double) 0 [] [] 2%float true;
     mk_atom (D := binary64_double) 0 [] [] 8%float true] in
  let r :=
    l_forces
      (conf_body g sw_start (fun _ => 0%float)
         (mk_locals (replicate 7 0%float) atoms 0%float 0) 0) !!! 0 in
  PrimFloat.eqb r (1 / (float_lit 1 (-1) + 8))%float = true
  /\ PrimFloat.eqb r (1 / (float_lit 1 (-1) + 2))%float = false.
Proof. vm_compute. split; reflexivity. Qed.

(** ** Parameter views *)

(** C7 (as stated, refuted). With one pair type and one atom type, the
    views built from the vector at address 100 do not resolve the layout
    whose first named slot is the first slot of the vector: [A] of the first
    pair type is at 102. *)
Lemma views_not_at_first_slot :
  ~ spec_layout 1 1 Sample.xi (update_stiweb_pointers 1 1 Sample.xi sw_start).
Proof.
  intros H. pose proof (la_A _ _ _ _ _ H 0 ltac:(lia)) as HA.
  vm_compute in HA. discriminate HA.
Qed.

(** C7 (amended). The views resolve the layout behind two leading slots
    that no view names: per pair type six consecutive slots (A, B, p, q,
    delta, a1) and two reserved ones, then per pair type two slots (gamma,
    a2) and two reserved ones, then [ntypes]^3 lambda slots in row-major
    order.  This holds after the first call (nothing allocated before, and
    [xi + 2] is not the null pointer) and after any later call for the same
    counts; reading a parameter through a view reads the vector, and the
    first pair type's [A] is the slot [xi + 2]. *)
Theorem views_follow_shifted_layout {D : Double} (paircol ntypes : nat)
    (xi : ptr) (s : sw_t) (h : heap) :
  ntypes <= paircol -> 0 < paircol ->
  (sw_init s = false /\ (xi + 2)%Z <> NULL
   \/ sw_init s = true /\ exists xi0, shifted_layout paircol ntypes xi0 s) ->
  let s' := update_stiweb_pointers paircol ntypes xi s in
  shifted_layout paircol ntypes xi s'
  /\ rdp (sw_A s') 0 = (xi + 2)%Z
  /\ par h (sw_A s') 0 = h (xi + 2)%Z.
Proof.
  intros Hle Hpc Hs. cbn zeta.
  assert (Hlay : shifted_layout paircol ntypes xi
                   (update_stiweb_pointers paircol ntypes xi s)).
  { destruct Hs as [[Hinit Hnull] | [Hinit [xi0 Hold]]].
    - apply update_first_call; assumption.
    - eapply update_later_call; eassumption. }
  assert (HA : rdp (sw_A (update_stiweb_pointers paircol ntypes xi s)) 0
               = (xi + 2)%Z).
  { pose proof (la_A _ _ _ _ _ Hlay 0 Hpc) as H0.
    unfold rdp, ptr in *. rewrite H0. cbn [default from_option].
    unfold Datatypes.id. lia. }
  repeat conj_split; [exact Hlay | exact HA |].
  unfold par. rewrite HA. reflexivity.
Qed.

(** The first call with one pair type and one atom type, vector at
    address 100. *)
Lemma views_follow_shifted_layout_witness :
  (1 <= 1 /\ 0 < 1 /\ sw_init sw_start = false /\ (Sample.xi + 2)%Z <> NULL)
  /\ shifted_layout 1 1 Sample.xi (update_stiweb_pointers 1 1 Sample.xi sw_start)
  /\ rdp (sw_A (update_stiweb_pointers 1 1 Sample.xi sw_start)) 0 = 102%Z.
Proof.
  assert (Hnull : (Sample.xi + 2)%Z <> NULL) by (vm_compute; discriminate).
  split; [repeat conj_split; [lia | lia | reflexivity | exact Hnull]|].
  destruct (views_follow_shifted_layout (D := real_double) 1 1 Sample.xi
              sw_start Sample.memory ltac:(lia) ltac:(lia)
              (or_introl (conj eq_refl Hnull)))
    as (Hlay & HA & _).
  split; [exact Hlay | exact HA].
Defined.

(** ** Control protocol *)

Section ControlFacts.
Context {D : Double} {M : Libm D} {Bd : Build} {X : Extern D}.
Implicit Types (g : globals) (c : mpi_round) (st : state).

(** A round that does not [break] evaluates, and ends with the root's
    return or with another turn of the loop. *)
Lemma iteration_evaluates g c (xi : ptr) (flag : Z) st :
  (MPI = true -> seen_flag g c flag <> 1%Z) ->
  iteration g c xi flag st
  = let r := round_eval g c xi st in
    if (myid g =? 0)%Z then
      Returned (nan_guard (fst r))
        (mk_state (mem (snd r)) (forces (snd r)) (conf_atoms (snd r))
           (sw (snd r)) (myconf (snd r)) (fcalls (snd r) + 1)%Z)
    else Looping (seen_flag g c flag) (snd r).
Proof.
  intros Hflag. unfold iteration.
  destruct (MPI && (seen_flag g c flag =? 1)%Z) eqn:Hb.
  - apply andb_prop in Hb as [HM Hf]. apply Z.eqb_eq in Hf.
    destruct (Hflag HM Hf).
  - destruct (round_eval g c xi st) as [sum st']. reflexivity.
Qed.

(** The round that [break]s touches nothing. *)
Lemma iteration_breaks g c (xi : ptr) (flag : Z) st :
  MPI = true -> seen_flag g c flag = 1%Z ->
  iteration g c xi flag st = Broke st.
Proof.
  intros HM Hf. unfold iteration. rewrite HM, Hf. reflexivity.
Qed.

(** The views after a round that evaluates. *)
Lemma iteration_views g c (xi : ptr) (flag : Z) st :
  (MPI = true -> seen_flag g c flag <> 1%Z) ->
  sw (outcome_state (iteration g c xi flag st))
  = update_stiweb_pointers (paircol g) (ntypes g) xi (sw st).
Proof.
  intros Hflag. rewrite iteration_evaluates by exact Hflag. cbn zeta.
  destruct (myid g =? 0)%Z; reflexivity.
Qed.

(** A rank other than 0 stays in the loop as long as no round brings the
    flag 1. *)
Lemma worker_keeps_looping g (env : nat -> mpi_round) (xi : ptr) (fuel : nat) :
  MPI = true -> myid g <> 0%Z ->
  forall (n : nat) (flag : Z) st,
    (forall m, n <= m < n + fuel -> bcast_flag (env m) <> 1%Z) ->
    calc_loop fuel g env n xi flag st = None.
Proof.
  intros HM Hid. induction fuel as [|fuel IH]; intros n flag st Hflags;
    [reflexivity|].
  cbn [calc_loop].
  assert (Hseen : seen_flag g (env n) flag = bcast_flag (env n)).
  { unfold seen_flag. rewrite HM.
    destruct (Z.eqb_spec (myid g) 0); [contradiction | reflexivity]. }
  rewrite iteration_evaluates
    by (intros _; rewrite Hseen; apply Hflags; lia).
  cbn zeta. destruct (Z.eqb_spec (myid g) 0); [contradiction|].
  apply IH. intros m Hm. apply Hflags. lia.
Qed.

End ControlFacts.

(** C8 (as stated, refuted). The potential got a second atom type since the
    views were built, the vector is at the same address, and rank 0 calls
    with flag 2 in an MPI build: after the round the views are the old ones
    and do not resolve the layout of the current vector. *)
Lemma resync_keeps_stale_views :
  ~ shifted_layout 2 2 Sample.xi
      (sw (outcome_state
             (iteration (D := real_double) (Bd := Sample.parallel)
                (X := Sample.idle real_double) (Sample.grown 0) Sample.quiet
                Sample.xi 2 Sample.built))).
Proof.
  rewrite iteration_views by (intros _; vm_compute; discriminate).
  intros H. pose proof (la_A _ _ _ _ _ H 1 ltac:(lia)) as HA.
  vm_compute in HA. discriminate HA.
Qed.

(** C8 (amended). A round that does not terminate (flag other than 1 in an
    MPI build; every flag otherwise) calls [update_stiweb_pointers] on the
    vector before it evaluates, and flag 2 is not told apart from flag 0:
    the state after the round is the same for every such flag.  The views
    are built on the first call, left as they are when the first view
    already holds [xi + 2], and rebuilt otherwise; for unchanged counts of
    pair and atom types they resolve the current vector afterwards. *)
Theorem resync_like_evaluate {D : Double} {M : Libm D} {Bd : Build}
    {X : Extern D} (g : globals) (c : mpi_round) (xi : ptr) (flag : Z)
    (st : state) :
  (MPI = true -> seen_flag g c flag <> 1%Z) ->
  let s' := sw (outcome_state (iteration g c xi flag st)) in
  s' = update_stiweb_pointers (paircol g) (ntypes g) xi (sw st)
  /\ (forall flag',
        (MPI = true -> seen_flag g c flag' <> 1%Z) ->
        outcome_state (iteration g c xi flag' st)
        = outcome_state (iteration g c xi flag st))
  /\ (sw_init (sw st) = true -> rdp (sw_A (sw st)) 0 = (xi + 2)%Z ->
      s' = sw st)
  /\ (ntypes g <= paircol g -> 0 < paircol g ->
      (sw_init (sw st) = false /\ (xi + 2)%Z <> NULL
       \/ sw_init (sw st) = true
          /\ exists xi0, shifted_layout (paircol g) (ntypes g) xi0 (sw st)) ->
      shifted_layout (paircol g) (ntypes g) xi s').
Proof.
  intros Hflag. cbn zeta. rewrite (iteration_views g c xi flag st Hflag).
  repeat conj_split.
  - reflexivity.
  - intros flag' Hflag'.
    rewrite !iteration_evaluates by assumption. cbn zeta.
    destruct (myid g =? 0)%Z; reflexivity.
  - intros Hinit HA. apply update_same_address; assumption.
  - intros Hle Hpc [[Hinit Hnull] | [Hinit [xi0 Hold]]].
    + apply update_first_call; assumption.
    + eapply update_later_call; eassumption.
Qed.

(** Rank 0 of an MPI build, views already built for the vector: flag 2
    leaves them as they are and ends in the state flag 0 ends in. *)
Lemma resync_like_evaluate_witness :
  let it (flag : Z) :=
    iteration (D := real_double) (Bd := Sample.parallel)
      (X := Sample.idle real_double) (Sample.world 0) Sample.quiet Sample.xi
      flag Sample.built in
  seen_flag (Bd := Sample.parallel) (Sample.world (D := real_double) 0)
    Sample.quiet 2 <> 1%Z
  /\ sw (outcome_state (it 2%Z)) = Sample.views
  /\ outcome_state (it 0%Z) = outcome_state (it 2%Z).
Proof.
  cbn zeta.
  assert (H2 : MPI (Build := Sample.parallel) = true ->
               seen_flag (Bd := Sample.parallel)
                 (Sample.world (D := real_double) 0) Sample.quiet 2 <> 1%Z)
    by (intros _; vm_compute; discriminate).
  assert (H0 : MPI (Build := Sample.parallel) = true ->
               seen_flag (Bd := Sample.parallel)
                 (Sample.world (D := real_double) 0) Sample.quiet 0 <> 1%Z)
    by (intros _; vm_compute; discriminate).
  destruct (resync_like_evaluate (Bd := Sample.parallel)
              (X := Sample.idle real_double) (Sample.world 0) Sample.quiet
              Sample.xi 2 Sample.built H2)
    as (_ & Hsame & Hkeep & _).
  repeat conj_split.
  - exact (H2 eq_refl).
  - exact (Hkeep eq_refl eq_refl).
  - exact (Hsame 0%Z H0).
Defined.

(** C9. In a call that evaluates (flag other than 1 in an MPI build), rank
    0 returns in its first round, and the value is the sentinel [10e30]
    when the sum is not a number and the sum otherwise; the sum is the
    result of the reduction over the local sums in an MPI build (rank 0
    contributes its local sum plus the penalty) and the local sum plus the
    penalty in a serial build.  A rank other than 0 returns nothing from
    evaluating: it stays in the loop for as many rounds as no flag 1
    arrives. *)
Theorem coordinator_returns_guarded_sum {D : Double} {M : Libm D} {Bd : Build}
    {X : Extern D} (g : globals) (env : nat -> mpi_round) (xi : ptr)
    (flag : Z) (st : state) (fuel : nat) :
  let entry := entry_state g st in
  let l := round_local g (env 0) xi entry in
  let local :=
    (l_tmpsum l
     + fst (apot_punish (round_mem g (env 0) xi entry) xi (l_forces l)))%D in
  let sum := if MPI then reduce_sum (env 0) local else local in
  (myid g = 0%Z -> (MPI = true -> flag <> 1%Z) ->
   (exists st',
      calc_forces_stiweb (S fuel) g env xi flag st
      = Some (nan_guard sum, st'))
   /\ (disnan sum = true -> nan_guard sum = dlit 10 30)
   /\ (disnan sum = false -> nan_guard sum = sum))
  /\ (myid g <> 0%Z -> MPI = true ->
      (forall m, m < fuel -> bcast_flag (env m) <> 1%Z) ->
      calc_forces_stiweb fuel g env xi flag st = None).
Proof.
  cbn zeta. split.
  - intros Hid Hflag.
    assert (Hroot : (myid g =? 0)%Z = true) by (apply Z.eqb_eq; exact Hid).
    repeat conj_split.
    + unfold calc_forces_stiweb. cbn [calc_loop].
      rewrite iteration_evaluates.
      * cbn zeta. rewrite Hroot. unfold round_eval. rewrite Hroot.
        cbn [fst snd]. eexists. reflexivity.
      * intros HM. unfold seen_flag. rewrite Hroot, andb_false_r. auto.
    + intros Hnan. unfold nan_guard. rewrite Hnan. reflexivity.
    + intros Hnan. unfold nan_guard. rewrite Hnan. reflexivity.
  - intros Hid HM Hflags. unfold calc_forces_stiweb.
    apply worker_keeps_looping; [exact HM | exact Hid |].
    intros m Hm. apply Hflags. lia.
Qed.

(** On binary64, in an MPI build whose reduction and gather deliver what
    rank 0 holds: the zero volume makes the sum not a number, rank 0 returns
    the sentinel, and rank 1 is still in the loop after two rounds. *)
Lemma coordinator_returns_guarded_sum_witness :
  let env := fun _ : nat => Sample.quiet (D := binary64_double) in
  let run (rank : Z) (fuel : nat) :=
    calc_forces_stiweb (M := Sample.unreached) (Bd := Sample.parallel)
      (X := Sample.idle binary64_double) fuel (Sample.hollow rank) env
      Sample.xi 0 Sample.bare in
  (myid (Sample.hollow (D := binary64_double) 0) = 0%Z
   /\ myid (Sample.hollow (D := binary64_double) 1) <> 0%Z
   /\ MPI (Build := Sample.parallel) = true)
  /\ (exists v st',
        run 0%Z 1 = Some (nan_guard v, st')
        /\ disnan v = true /\ nan_guard v = dlit 10 30)
  /\ run 1%Z 2 = None.
Proof.
  cbn zeta.
  assert (Hw : myid (Sample.hollow (D := binary64_double) 1) <> 0%Z)
    by (vm_compute; discriminate).
  split; [repeat conj_split; [reflexivity | exact Hw | reflexivity]|].
  split.
  - destruct (coordinator_returns_guarded_sum (M := Sample.unreached)
                (Bd := Sample.parallel) (X := Sample.idle binary64_double)
                (Sample.hollow 0) (fun _ => Sample.quiet) Sample.xi 0
                Sample.bare 0)
      as [Hroot _].
    destruct (Hroot eq_refl ltac:(intros _; discriminate))
      as ([st' Hret] & Hnan & _).
    eexists. exists st'.
    split; [exact Hret|].
    assert (Hv : disnan
              (if MPI (Build := Sample.parallel)
               then reduce_sum (Sample.quiet (D := binary64_double))
                      (l_tmpsum
                         (round_local (M := Sample.unreached)
                            (Bd := Sample.parallel)
                            (X := Sample.idle binary64_double)
                            (Sample.hollow 0) Sample.quiet Sample.xi
                            (entry_state (Bd := Sample.parallel)
                               (Sample.hollow 0) Sample.bare))
                       + fst (apot_punish (Extern := Sample.idle binary64_double)
                                (round_mem (Bd := Sample.parallel)
                                   (X := Sample.idle binary64_double)
                                   (Sample.hollow 0) Sample.quiet Sample.xi
                                   (entry_state (Bd := Sample.parallel)
                                      (Sample.hollow 0) Sample.bare))
                                Sample.xi
                                (l_forces
                                   (round_local (M := Sample.unreached)
                                      (Bd := Sample.parallel)
                                      (X := Sample.idle binary64_double)
                                      (Sample.hollow 0) Sample.quiet Sample.xi
                                      (entry_state (Bd := Sample.parallel)
                                         (Sample.hollow 0) Sample.bare)))))%D
               else d0) = true)
      by (vm_compute; reflexivity).
    split; [exact Hv | exact (Hnan Hv)].
  - destruct (coordinator_returns_guarded_sum (M := Sample.unreached)
                (Bd := Sample.parallel) (X := Sample.idle binary64_double)
                (Sample.hollow 1) (fun _ => Sample.quiet) Sample.xi 0
                Sample.bare 2)
      as [_ Hworker].
    apply Hworker; [exact Hw | reflexivity |].
    intros m _. vm_compute. discriminate.
Defined.

(** On binary64: the sentinel is the double nearest to 10^31, it is not a
    NaN, and the guard lets every other sum through. *)
Example nan_guard_binary64 :
  PrimFloat.eqb (nan_guard (D := binary64_double) PrimFloat.nan)
    (float_of_Z (10 ^ 31)) = true
  /\ PrimFloat.is_nan (nan_guard (D := binary64_double) PrimFloat.nan) = false
  /\ PrimFloat.eqb (nan_guard (D := binary64_double) 2.5%float) 2.5%float = true.
Proof. vm_compute. repeat split. Qed.

(** On binary64, in a serial build: the same configuration of volume zero.
    The stored stress residual is not a number and the call returns the
    sentinel. *)
Example nan_sum_gives_sentinel_binary64 :
  match
    calc_forces_stiweb (M := Sample.unreached) (Bd := Sample.serial)
      (X := Sample.idle binary64_double) 1 (Sample.hollow 0)
      (fun _ => Sample.quiet) Sample.xi 0 Sample.bare
  with
  | Some (v, st') =>
      PrimFloat.eqb v (float_of_Z (10 ^ 31)) = true
      /\ PrimFloat.is_nan (forces st' !!! 7) = true
  | None => False
  end.
Proof. vm_compute. split; reflexivity. Qed.

(** * Further properties of the routine *)

(** ** The neighbour loop and the cutoff envelope *)

Lemma neigh_loop_atom {D : Double} {M : Libm D} {Bd : Build}
    (g : globals) (s : sw_t) (h : heap) (uf us : bool) (hc i k : nat)
    (b : list dbl) (a : atom_t) :
  snd (neigh_loop g s h uf us hc i k (b, a)) = refreshed s h a.
Proof.
  unfold neigh_loop, refreshed. cbn [snd]. unfold n_neigh.
  enough (H : forall m, m <= length (at_neigh a) ->
    snd (fold_left (fun (st : list dbl * atom_t) j =>
           let '(forces, a0) := st in
           (pair_part g s h uf us hc k
              (Nat.eqb (n_nr (at_neigh a0 !!! j)) (i + cnfstart g !!! hc))
              (at_neigh a0 !!! j) forces,
            mk_atom (at_typ a0)
              (<[j := cutoff_part s h (at_neigh a0 !!! j)]> (at_neigh a0))
              (at_angl_part a0) (at_absforce a0) (at_contrib a0)))
           (seq 0 m) (b, a))
    = mk_atom (at_typ a)
        (map (cutoff_part s h) (take m (at_neigh a)) ++ drop m (at_neigh a))
        (at_angl_part a) (at_absforce a) (at_contrib a)).
  { rewrite (H (length (at_neigh a)) (le_n _)).
    rewrite firstn_all, drop_all, app_nil_r. reflexivity. }
  induction m as [|m IH]; intros Hm.
  - cbn. rewrite drop_0. destruct a; reflexivity.
  - rewrite fold_seq_S. specialize (IH ltac:(lia)).
    destruct (fold_left _ (seq 0 m) (b, a)) as [b' a']. cbn [snd] in *.
    subst a'. cbn [at_typ at_neigh at_angl_part at_absforce at_contrib].
    f_equal.
    destruct (lookup_lt_is_Some_2 (at_neigh a) m ltac:(lia)) as [x Hx].
    assert (Hlen : length (map (cutoff_part s h) (take m (at_neigh a))) = m)
      by (rewrite length_map, length_take; lia).
    rewrite (list_lookup_total_correct
               (map (cutoff_part s h) (take m (at_neigh a))
                ++ drop m (at_neigh a)) m x).
    2:{ rewrite lookup_app_r by lia. rewrite Hlen, Nat.sub_diag.
        rewrite lookup_drop, Nat.add_0_r. exact Hx. }
    rewrite (take_S_r _ _ _ Hx), map_app. cbn [map].
    rewrite (drop_S _ _ _ Hx).
    rewrite <- (Nat.add_0_r m) at 1. rewrite <- Hlen at 1.
    rewrite insert_app_r. cbn. rewrite <- app_assoc. reflexivity.
Qed.

(** Lines 182-249.  The loop over the neighbours passes the cache of every
    neighbour through lines 236-248 exactly once and changes nothing else of
    the atom, whatever the buffer holds and whatever the pair part does; the
    three-body pass that follows sees these caches. *)
Theorem neigh_loop_refreshes {D : Double} {M : Libm D} {Bd : Build}
    (g : globals) (s : sw_t) (h : heap) (uf us : bool) (hc i k : nat)
    (b : list dbl) (a : atom_t) :
  snd (neigh_loop g s h uf us hc i k (b, a)) = refreshed s h a
  /\ forall j, j < n_neigh a ->
       at_neigh (snd (neigh_loop g s h uf us hc i k (b, a))) !!! j
       = cutoff_part s h (at_neigh a !!! j).
Proof.
  rewrite neigh_loop_atom. split; [reflexivity|].
  intros j Hj. unfold refreshed, n_neigh in *. cbn [at_neigh].
  apply list_lookup_total_correct. rewrite list_lookup_fmap.
  rewrite (list_lookup_lookup_total_lt (at_neigh a) j Hj). reflexivity.
Qed.

Section Envelope.
Context {D : Double} {M : Libm D} {E : Exact D}.
Local Open Scope dbl_scope.

Add Field dbl_field_envelope : dbl_field.

(** Lines 236-248.  For a neighbour below the second cutoff [a2] at a
    nonzero distance: outside the guard band ([r - a2 < -0.01 gamma]) the
    cache takes [f = exp (gamma / (r - a2))] and
    [df = - f gamma / ((r - a2)^2 r)]; inside the band both are zero.  A
    neighbour not below [a2] keeps the cache it had.  No other field of the
    neighbour changes.  Arithmetic is exact. *)
Theorem cutoff_envelope (s : sw_t) (h : heap) (nj : neigh_t) :
  let r := n_r nj in
  let a2 := par h (sw_a2 s) (n_col0 nj) in
  let gamma := par h (sw_gamma s) (n_col0 nj) in
  let nj' := cutoff_part s h nj in
  ((r <? a2) = true -> r <> d0 ->
   ((r - a2 <? - dlit 1 (-2) * gamma) = true ->
    n_f nj' = spec_f gamma a2 r /\ n_df nj' = spec_df gamma a2 r)
   /\ ((r - a2 <? - dlit 1 (-2) * gamma) = false ->
       n_f nj' = d0 /\ n_df nj' = d0))
  /\ ((r <? a2) = false -> nj' = nj)
  /\ (n_typ nj', n_nr nj', n_r nj', n_inv_r nj', n_dist nj', n_rdist nj',
      n_col0 nj', n_ijk_start nj')
     = (n_typ nj, n_nr nj, n_r nj, n_inv_r nj, n_dist nj, n_rdist nj,
        n_col0 nj, n_ijk_start nj).
Proof.
  cbn zeta. unfold cutoff_part. repeat conj_split.
  - intros Hr Hr0. rewrite Hr.
    assert (Hne : n_r nj - par h (sw_a2 s) (n_col0 nj) <> d0)
      by (apply dsub_neq_zero, dlt_neq, Hr).
    split; intros Hg; rewrite Hg; cbn [n_f n_df]; [|split; reflexivity].
    assert (Hf : dexp (par h (sw_gamma s) (n_col0 nj)
                       * (d1 / (n_r nj - par h (sw_a2 s) (n_col0 nj))))
                 = spec_f (par h (sw_gamma s) (n_col0 nj))
                     (par h (sw_a2 s) (n_col0 nj)) (n_r nj)).
    { unfold spec_f. f_equal. apply ddiv_one_mul. }
    split; [exact Hf|]. rewrite Hf. unfold spec_df.
    field. split; assumption.
  - intros Hr. rewrite Hr. reflexivity.
  - destruct (_ <? _); [destruct (_ <? _)|]; reflexivity.
Qed.

End Envelope.

(** Over the reals: gamma = 1 and a2 = 3; neighbour 1 at distance 1 is
    outside the guard band, the far neighbour at distance 5 is beyond the
    cutoff. *)
Lemma cutoff_envelope_witness :
  let h := Sample.memory (D := real_double) in
  let s := Sample.views in
  ((n_r Sample.neigh1 <? par h (sw_a2 s) 0)%D = true
   /\ n_r (Sample.neigh1 (D := real_double)) <> d0
   /\ (n_r Sample.neigh1 - par h (sw_a2 s) 0
       <? - dlit 1 (-2) * par h (sw_gamma s) 0)%D = true
   /\ (n_r Sample.far <? par h (sw_a2 s) 0)%D = false)
  /\ n_f (cutoff_part s h Sample.neigh1)
     = spec_f (par h (sw_gamma s) 0) (par h (sw_a2 s) 0) (n_r Sample.neigh1)
  /\ cutoff_part s h Sample.far = Sample.far.
Proof.
  cbn zeta.
  assert (H1 : (n_r (Sample.neigh1 (D := real_double))
                <? par Sample.memory (sw_a2 Sample.views) 0)%D = true)
    by (apply real_lt_true; change (1 < 3)%R; lra).
  assert (H0 : n_r (Sample.neigh1 (D := real_double)) <> d0)
    by (change (1 <> 0)%R; lra).
  assert (Hg : (n_r (Sample.neigh1 (D := real_double))
                - par Sample.memory (sw_a2 Sample.views) 0
                <? - dlit 1 (-2) * par Sample.memory (sw_gamma Sample.views) 0)%D
               = true)
    by (apply real_lt_true; change (1 - 3 < - (1 / 100) * 1)%R; lra).
  assert (Hfar : (n_r (Sample.far (D := real_double))
                  <? par Sample.memory (sw_a2 Sample.views) 0)%D = false)
    by (apply real_lt_false; change (~ (5 < 3)%R); lra).
  split; [repeat conj_split; assumption|].
  split.
  - destruct (cutoff_envelope Sample.views Sample.memory Sample.neigh1)
      as [Hin _].
    destruct (Hin H1 H0) as [Hout _]. exact (proj1 (Hout Hg)).
  - destruct (cutoff_envelope Sample.views Sample.memory Sample.far)
      as (_ & Hkeep & _).
    exact (Hkeep Hfar).
Defined.

(** ** Triples with a neighbour in the guard band *)

Section GuardBand.
Context {D : Double} {M : Libm D} {Bd : Build} {E : Exact D}.
Local Open Scope dbl_scope.

Add Field dbl_field_band : dbl_field.

Lemma insert_same (b : list dbl) (i : nat) : <[i := b !!! i]> b = b.
Proof.
  destruct (decide (i < length b)) as [Hi | Hi].
  - apply list_insert_id. apply list_lookup_lookup_total_lt. exact Hi.
  - apply list_insert_ge. lia.
Qed.

Lemma add_at_zero (b : list dbl) (i : nat) (v : dbl) :
  v = d0 -> add_at b i v = b.
Proof.
  intros ->. unfold add_at.
  replace (b !!! i + d0) with (b !!! i) by ring. apply insert_same.
Qed.

Lemma sub_at_zero (b : list dbl) (i : nat) (v : dbl) :
  v = d0 -> sub_at b i v = b.
Proof.
  intros ->. unfold sub_at.
  replace (b !!! i - d0) with (b !!! i) by ring. apply insert_same.
Qed.

(** Lines 274-299 with a zero envelope and a zero envelope derivative on
    one of the two neighbours: the energy term and both force vectors are
    zero. *)
Lemma triple_eval_zero (lambda : dbl) (nj nk : neigh_t) (n_angl : angl) :
  n_f nj = d0 /\ n_df nj = d0 \/ n_f nk = d0 /\ n_df nk = d0 ->
  triple_eval lambda nj nk n_angl
  = mk_triple_vals d0 (mk_vector d0 d0 d0) (mk_vector d0 d0 d0).
Proof.
  intros [[Hf Hdf] | [Hf Hdf]]; unfold triple_eval; rewrite Hf, Hdf;
    f_equal; [| f_equal | f_equal | | f_equal | f_equal]; ring.
Qed.

(** Lines 259-331, in exact arithmetic.  A neighbour whose cached envelope
    and envelope derivative are zero (as lines 244-247 leave them in the
    guard band) switches off every triple it takes part in: the visit leaves
    the whole buffer, energy, forces and stress, as it was.  The visit does
    run and adds zeros; on binary64 that is not always the identity
    ([guard_band_binary64] below). *)
Theorem guard_band_switches_off (g : globals) (s : sw_t) (h : heap)
    (us : bool) (hc k : nat) (a : atom_t) (jj kk : nat) (b : list dbl) :
  let nj := at_neigh a !!! jj in
  let nk := at_neigh a !!! kk in
  n_f nj = d0 /\ n_df nj = d0 \/ n_f nk = d0 /\ n_df nk = d0 ->
  triple_visit g s h us hc k a b (jj, kk) = b.
Proof.
  cbn zeta. intros Hz. unfold triple_visit, triple_term. cbn [fst snd].
  rewrite (triple_eval_zero _ _ _ _ Hz).
  cbn [v3_val force_j force_k]. unfold triple_forces, triple_stress.
  cbn [vx vy vz].
  repeat match goal with |- context [if ?c then _ else _] => destruct c end;
    try reflexivity;
    repeat first [rewrite add_at_zero by ring | rewrite sub_at_zero by ring];
    reflexivity.
Qed.

End GuardBand.

(** Over the reals: atom 0 of the small configuration with the first
    neighbour's cache zeroed. *)
Lemma guard_band_switches_off_witness :
  let quiet1 :=
    mk_neigh (D := real_double) 0 1 (of_int 1) (d1 / of_int 1)%D Sample.ex
      Sample.ex 0 0 d0 d0 in
  let a := mk_atom 0 [quiet1; Sample.neigh2] [mk_angl d0] (of_int 2) true in
  (n_f (at_neigh a !!! 0) = d0 /\ n_df (at_neigh a !!! 0) = d0)
  /\ triple_visit (Bd := Sample.serial) (Sample.world 0) Sample.views
       Sample.memory true 0 0 a Sample.buffer (0, 1)
     = Sample.buffer.
Proof.
  cbn zeta. split; [split; reflexivity|].
  apply (guard_band_switches_off (Bd := Sample.serial)).
  left. split; reflexivity.
Defined.

(** On binary64 the same visit adds [+0.0] to a force slot that holds
    [-0.0], as the reset of line 165 leaves it for a zero reference force:
    the slot holds [+0.0] afterwards. *)
Example guard_band_binary64 :
  let quiet1 :=
    mk_neigh (D := binary64_double) 0 1 (of_int 1) (d1 / of_int 1)%D Sample.ex
      Sample.ex 0 0 d0 d0 in
  let a := mk_atom 0 [quiet1; Sample.neigh2] [mk_angl d0] (of_int 2) true in
  let b := replicate 16 (- d0)%D in
  let b' :=
    triple_visit (Bd := Sample.serial) (Sample.world 0) Sample.views
      Sample.memory true 0 0 a b (0, 1) in
  PrimFloat.ltb (1 / (b !!! 0%nat))%float 0%float = true
  /\ PrimFloat.ltb (1 / (b' !!! 0%nat))%float 0%float = false.
Proof. vm_compute. split; reflexivity. Qed.

(** ** Momentum of the whole three-body pass *)

Section PassMomentum.
Context {D : Double} {M : Libm D} {Bd : Build} {E : Exact D}.
Local Open Scope dbl_scope.

(** A write beyond the force slots leaves the total force as it was. *)
Lemma total_force_beyond (c n idx : nat) (v : dbl) (b : list dbl) :
  (c < 3)%nat -> (3 * n <= idx)%nat ->
  total_force c n (<[idx := v]> b) = total_force c n b.
Proof.
  intros Hc Hidx. unfold total_force.
  assert (H : forall l : list nat, Forall (fun a => a < n)%nat l ->
            fold_right (fun a acc => <[idx := v]> b !!! (3 * a + c)%nat + acc)
              d0 l
            = fold_right (fun a acc => b !!! (3 * a + c)%nat + acc) d0 l).
  { induction 1 as [|a l Ha _ IH]; cbn [fold_right]; [reflexivity|].
    rewrite IH. rewrite list_lookup_total_insert_ne by lia. reflexivity. }
  apply H. apply Forall_forall. intros a Ha.
  apply list_elem_of_In, in_seq in Ha. lia.
Qed.

Lemma total_force_add_beyond (c n idx : nat) (v : dbl) (b : list dbl) :
  (c < 3)%nat -> (3 * n <= idx)%nat ->
  total_force c n (add_at b idx v) = total_force c n b.
Proof. intros. unfold add_at. apply total_force_beyond; assumption. Qed.

Lemma total_force_triple_stress (c n stresses : nat) (fj fk rj rk : vector)
    (b : list dbl) :
  (c < 3)%nat -> (3 * n <= stresses)%nat ->
  total_force c n (triple_stress stresses fj fk rj rk b) = total_force c n b.
Proof.
  intros Hc Hs. unfold triple_stress.
  rewrite !total_force_add_beyond by lia. reflexivity.
Qed.

(** Lines 252-334.  The whole three-body pass of one atom leaves each
    component of the total force over [natoms] atoms as it was, when the
    atom and all its neighbours are among these atoms and the energy and
    stress slots lie behind their force slots.  Arithmetic is exact. *)
Theorem three_body_pass_conserves_momentum (g : globals) (s : sw_t)
    (h : heap) (us : bool) (hc i natoms c : nat) (a : atom_t)
    (b : list dbl) :
  (c < 3)%nat -> (i < natoms)%nat ->
  Forall (fun n => n_nr n < natoms)%nat (at_neigh a) ->
  (3 * natoms <= energy_p g + hc)%nat ->
  (3 * natoms <= stress_p g + 6 * hc)%nat ->
  (3 * natoms <= length b)%nat ->
  total_force c natoms (jj_loop g s h us hc (3 * i) a b)
  = total_force c natoms b.
Proof.
  intros Hc Hi Hn He Hs Hlen. rewrite jj_loop_pairs.
  apply (fold_left_inv
           (fun b' => total_force c natoms b' = total_force c natoms b
                      /\ (3 * natoms <= length b')%nat));
    [split; [reflexivity | exact Hlen]|].
  intros b' [jj kk] Hin [Hb' Hl']. apply neighbour_pairs_spec in Hin.
  unfold n_neigh in Hin.
  assert (Hnr : forall j, (j < length (at_neigh a))%nat ->
                  (n_nr (at_neigh a !!! j) < natoms)%nat).
  { intros j Hj.
    apply (Forall_lookup_1 (fun n => n_nr n < natoms)%nat (at_neigh a) j);
      [exact Hn|].
    apply list_lookup_lookup_total_lt. exact Hj. }
  split; [|unfold triple_visit; cbn [fst snd];
           destruct (_ <? _); [rewrite length_triple_term|]; exact Hl'].
  rewrite <- Hb'. unfold triple_visit, triple_term. cbn [fst snd].
  repeat match goal with |- context [if ?x then _ else _] => destruct x end;
    try reflexivity;
    rewrite ?total_force_triple_stress by lia;
    (rewrite triple_forces_total;
     [ apply total_force_add_beyond; lia
     | lia | lia | apply Hnr; lia | apply Hnr; lia
     | rewrite length_add_at; lia ]).
Qed.

End PassMomentum.

(** Over the reals: atom 0 of the small configuration, three atoms. *)
Lemma three_body_pass_conserves_momentum_witness :
  (Forall (fun n => n_nr n < 3) (at_neigh (Sample.atom0 (D := real_double)))
   /\ 3 * 3 <= energy_p (Sample.world (D := real_double) 0) + 0
   /\ 3 * 3 <= length (Sample.buffer (D := real_double)))
  /\ total_force 0 3
       (jj_loop (Bd := Sample.serial) (Sample.world 0) Sample.views
          Sample.memory true 0 (3 * 0) Sample.atom0 Sample.buffer)
     = total_force (D := real_double) 0 3 Sample.buffer.
Proof.
  assert (Hn : Forall (fun n => n_nr n < 3)
                 (at_neigh (Sample.atom0 (D := real_double))))
    by (repeat constructor).
  split; [repeat conj_split; [exact Hn | cbn; lia | cbn; lia]|].
  apply (three_body_pass_conserves_momentum (Bd := Sample.serial));
    [lia | lia | exact Hn | cbn; lia | cbn; lia | cbn; lia].
Defined.

(** ** Stress residuals *)

(** Lines 364-373.  With [STRESS] compiled in and force and stress fitting
    on, each of the six stress slots of the configuration ends as the raw
    accumulated value divided by the volume minus the reference value, and
    the local sum grows by weight times stress weight times the square of
    each of the six residuals, in slot order.  Without [STRESS], or with
    force or stress fitting off, the pass changes nothing. *)
Theorem stress_normalisation {D : Double} {Bd : Build} (g : globals)
    (uf us : bool) (hc : nat) (st : locals) :
  let res (c : nat) :=
    (l_forces st !!! (stress_p g + 6 * hc + c)%nat
     / conf_vol g !!! (hc - firstconf g)%nat
     - force_0 g !!! (stress_p g + 6 * hc + c)%nat)%D in
  let term (c : nat) :=
    (conf_weight g !!! hc * sweight g * dsquare (res c))%D in
  (STRESS = true -> uf = true -> us = true ->
   stress_p g + 6 * hc + 5 < length (l_forces st) ->
   (forall c, c < 6 ->
      l_forces (stress_contrib g uf us hc st) !!! (stress_p g + 6 * hc + c)
      = res c)
   /\ l_tmpsum (stress_contrib g uf us hc st)
      = (l_tmpsum st + term 0 + term 1 + term 2 + term 3 + term 4 + term 5)%D)
  /\ (STRESS && (uf && us) = false -> stress_contrib g uf us hc st = st).
Proof.
  cbn zeta. split.
  - intros HS -> -> Hlen. unfold stress_contrib. rewrite HS.
    cbn [andb seq fold_left l_forces l_tmpsum]. split.
    + intros c Hc.
      do 6 (destruct c as [|c]; [buf_read; reflexivity|]). lia.
    + buf_read. reflexivity.
  - intros H. unfold stress_contrib. rewrite H. reflexivity.
Qed.

(** On the small configuration over the reals, at the third stress slot. *)
Lemma stress_normalisation_witness :
  let g := Sample.world (D := real_double) 0 in
  let st :=
    mk_locals Sample.buffer [Sample.atom0; Sample.atom1; Sample.atom2] d0 0 in
  (STRESS (Build := Sample.serial) = true
   /\ stress_p g + 6 * 0 + 5 < length (l_forces st) /\ 2 < 6)
  /\ l_forces (stress_contrib (Bd := Sample.serial) g true true 0 st)
       !!! (stress_p g + 6 * 0 + 2)
     = (l_forces st !!! (stress_p g + 6 * 0 + 2)%nat
        / conf_vol g !!! (0 - firstconf g)%nat
        - force_0 g !!! (stress_p g + 6 * 0 + 2)%nat)%D.
Proof.
  cbn zeta.
  assert (Hlen : stress_p (Sample.world (D := real_double) 0) + 6 * 0 + 5
                 < length (l_forces
                     (mk_locals (D := real_double) Sample.buffer
                        [Sample.atom0; Sample.atom1; Sample.atom2] d0 0)))
    by (cbn; lia).
  split; [repeat conj_split; [reflexivity | exact Hlen | lia]|].
  destruct (stress_normalisation (D := real_double) (Bd := Sample.serial)
              (Sample.world 0) true true 0
              (mk_locals Sample.buffer
                 [Sample.atom0; Sample.atom1; Sample.atom2] d0 0))
    as [Hon _].
  destruct (Hon eq_refl eq_refl eq_refl Hlen) as [Hread _].
  exact (Hread 2 ltac:(lia)).
Defined.

(** ** The views of [update_stiweb_pointers] *)

Section ViewsAgain.
Context {D : Double}.

(** The rebuild stores [xi + index] in the first view of [A]. *)
Lemma rebuild_views_first (paircol ntypes : nat) (xi : ptr) (index : Z)
    (s : sw_t) :
  0 < paircol -> 0 < length (sw_A s) ->
  rdp (sw_A (rebuild_views paircol ntypes xi index s)) 0 = (xi + index)%Z
  /\ sw_init (rebuild_views paircol ntypes xi index s) = sw_init s.
Proof.
  intros Hpc Hlen. unfold rebuild_views.
  pose proof (pair_loop_inv xi index paircol s) as Hp. cbn zeta in Hp.
  destruct (fold_left (set_pair_views xi) (seq 0 paircol) (s, index))
    as [s1 i1].
  cbn [fst snd] in Hp.
  destruct Hp as (-> & Hi1 & _ & _ & _ & [_ VA] & _).
  pose proof (triple_loop_inv xi (index + 8 * Z.of_nat paircol) paircol s1)
    as Ht. cbn zeta in Ht.
  destruct (fold_left (set_triple_views xi) (seq 0 paircol) _) as [s2 i2].
  cbn [fst snd] in Ht.
  destruct Ht as (_ & Hi2 & HA & _).
  destruct (set_lambda_views ntypes xi _) as [lam i3].
  cbn [sw_A sw_init]. split; [|congruence].
  unfold rdp, ptr in *. rewrite HA, (VA 0 Hpc Hlen).
  cbn [default from_option]. unfold Datatypes.id. lia.
Qed.

(** Under a layout every valid named parameter is resolved to its slot. *)
Lemma layout_view_addr (base : Z) (paircol ntypes : nat) (xi : ptr) (s : sw_t)
    (v : view_id) :
  layout_at base paircol ntypes xi s -> view_valid paircol ntypes v ->
  view_addr s v = Some (xi + (base + view_slot paircol ntypes v))%Z.
Proof.
  intros [HA HB Hp Hq Hd H1 Hg H2 Hl] Hv.
  destruct v; cbn [view_addr view_slot view_valid] in *;
    first [ rewrite HA by exact Hv | rewrite HB by exact Hv
          | rewrite Hp by exact Hv | rewrite Hq by exact Hv
          | rewrite Hd by exact Hv | rewrite H1 by exact Hv
          | rewrite Hg by exact Hv | rewrite H2 by exact Hv
          | rewrite Hl by tauto ];
    unfold ptr in *; f_equal; lia.
Qed.

Lemma row_major_inj (n a b a' b' : nat) :
  b < n -> b' < n -> a * n + b = a' * n + b' -> a = a' /\ b = b'.
Proof.
  intros Hb Hb' H.
  destruct (Nat.lt_trichotomy a a') as [Hlt | [-> | Hlt]]; [|lia|].
  - pose proof (Nat.mul_le_mono_r (a + 1) a' n ltac:(lia)). lia.
  - pose proof (Nat.mul_le_mono_r (a' + 1) a n ltac:(lia)). lia.
Qed.

Lemma row_major_bound (n i j k : nat) :
  i < n -> j < n -> k < n -> (i * n + j) * n + k < n * n * n.
Proof.
  intros Hi Hj Hk.
  pose proof (Nat.mul_le_mono_r (i + 1) n n ltac:(lia)) as H1.
  pose proof (Nat.mul_le_mono_r (i * n + j + 1) (n * n) n ltac:(lia)) as H2.
  lia.
Qed.

(** Two valid named parameters with one slot are the same parameter. *)
Lemma view_slot_inj (paircol ntypes : nat) (v w : view_id) :
  view_valid paircol ntypes v -> view_valid paircol ntypes w ->
  view_slot paircol ntypes v = view_slot paircol ntypes w -> v = w.
Proof.
  intros Hv Hw H.
  destruct v, w; cbn [view_slot view_valid] in *;
    try (f_equal; lia); try (exfalso; lia).
  destruct Hv as (Hi & Hj & Hk), Hw as (Hi0 & Hj0 & Hk0).
  assert (H' : (i * ntypes + j) * ntypes + k
               = (i0 * ntypes + j0) * ntypes + k0) by lia.
  apply row_major_inj in H' as [H' ->]; [|assumption..].
  apply row_major_inj in H' as [-> ->]; [|assumption..].
  reflexivity.
Qed.

Lemma view_slot_bound (paircol ntypes : nat) (v : view_id) :
  view_valid paircol ntypes v ->
  (0 <= view_slot paircol ntypes v
   < 12 * Z.of_nat paircol + Z.of_nat (ntypes * ntypes * ntypes))%Z
  /\ ~ reserved_slot paircol (view_slot paircol ntypes v).
Proof.
  intros Hv. split.
  - destruct v; cbn [view_slot view_valid] in *; try lia.
    destruct Hv as (Hi & Hj & Hk).
    pose proof (row_major_bound ntypes i j k Hi Hj Hk). lia.
  - intros (r & Hr & Hz).
    destruct v; cbn [view_slot view_valid] in *; lia.
Qed.

End ViewsAgain.

(** Lines 430-491.  A call with the vector the views were last built for
    changes nothing: calling twice is calling once, and the views are marked
    initialised after any call.  The code reads [sw->A[0]], so there is at
    least one pair type, and views marked initialised hold one. *)
Theorem update_twice_is_once (paircol ntypes : nat) (xi : ptr) (s : sw_t) :
  0 < paircol -> (sw_init s = true -> 0 < length (sw_A s)) ->
  let s' := update_stiweb_pointers paircol ntypes xi s in
  update_stiweb_pointers paircol ntypes xi s' = s' /\ sw_init s' = true.
Proof.
  intros Hpc Hlen. cbn zeta.
  assert (Hgen : forall s1, sw_init s1 = true -> 0 < length (sw_A s1) ->
            let s' :=
              if negb (rdp (sw_A s1) 0 =? xi + 2)%Z
              then rebuild_views paircol ntypes xi 2 s1 else s1 in
            update_stiweb_pointers paircol ntypes xi s' = s'
            /\ sw_init s' = true).
  { intros s1 Hinit Hl. cbn zeta.
    destruct (Z.eqb_spec (rdp (sw_A s1) 0) (xi + 2)) as [Heq|Hne]; cbn [negb].
    - split; [apply update_same_address; assumption | exact Hinit].
    - destruct (rebuild_views_first paircol ntypes xi 2 s1 Hpc Hl)
        as [HA Hi].
      split; [apply update_same_address|]; congruence. }
  pose (s1 := if sw_init s then s else sw_alloc paircol ntypes).
  assert (Heq : update_stiweb_pointers paircol ntypes xi s
                = if negb (rdp (sw_A s1) 0 =? xi + 2)%Z
                  then rebuild_views paircol ntypes xi 2 s1 else s1)
    by reflexivity.
  rewrite Heq. apply Hgen; subst s1; destruct (sw_init s) eqn:Hinit.
  - exact Hinit.
  - reflexivity.
  - apply Hlen; reflexivity.
  - cbn. rewrite length_replicate. exact Hpc.
Qed.

(** The views of the small configuration, and a first call. *)
Lemma update_twice_is_once_witness :
  (0 < 1 /\ 0 < length (sw_A Sample.views))
  /\ update_stiweb_pointers 1 1 Sample.xi
       (update_stiweb_pointers 1 1 Sample.xi Sample.views)
     = update_stiweb_pointers 1 1 Sample.xi Sample.views
  /\ update_stiweb_pointers 2 2 Sample.xi
       (update_stiweb_pointers 2 2 Sample.xi sw_start)
     = update_stiweb_pointers 2 2 Sample.xi sw_start.
Proof.
  split; [split; vm_compute; lia|]. split.
  - exact (proj1 (update_twice_is_once 1 1 Sample.xi Sample.views
                    ltac:(lia) ltac:(intros _; vm_compute; lia))).
  - exact (proj1 (update_twice_is_once 2 2 Sample.xi sw_start
                    ltac:(lia) ltac:(intros H; discriminate H))).
Defined.

(** Lines 466-488.  After a call that builds the views (the first call, or a
    later call on views built for the same counts of pair and atom types)
    every named parameter is resolved to a slot of the vector behind the two
    leading ones and inside the [12 * paircol + ntypes^3] slots of the
    layout, never to a slot the loops skip, and no two named parameters are
    resolved to the same slot. *)
Theorem views_never_alias (paircol ntypes : nat) (xi : ptr) (s : sw_t) :
  ntypes <= paircol -> 0 < paircol ->
  (sw_init s = false /\ (xi + 2)%Z <> NULL
   \/ sw_init s = true /\ exists xi0, shifted_layout paircol ntypes xi0 s) ->
  let s' := update_stiweb_pointers paircol ntypes xi s in
  forall v, view_valid paircol ntypes v ->
    (exists z,
       view_addr s' v = Some (xi + 2 + z)%Z
       /\ (0 <= z
           < 12 * Z.of_nat paircol + Z.of_nat (ntypes * ntypes * ntypes))%Z
       /\ ~ reserved_slot paircol z)
    /\ forall w, view_valid paircol ntypes w -> v <> w ->
         view_addr s' v <> view_addr s' w.
Proof.
  intros Hle Hpc Hcase. cbn zeta.
  assert (Hlay : shifted_layout paircol ntypes xi
                   (update_stiweb_pointers paircol ntypes xi s)).
  { destruct Hcase as [[Hinit Hnull] | [Hinit [xi0 Hold]]].
    - apply update_first_call; assumption.
    - eapply update_later_call; eassumption. }
  intros v Hv. split.
  - exists (view_slot paircol ntypes v).
    rewrite (layout_view_addr 2 paircol ntypes xi _ v Hlay Hv).
    destruct (view_slot_bound paircol ntypes v Hv) as [Hb Hr].
    split; [unfold ptr in *; f_equal; lia|]. split; [exact Hb | exact Hr].
  - intros w Hw Hne.
    rewrite (layout_view_addr 2 paircol ntypes xi _ v Hlay Hv).
    rewrite (layout_view_addr 2 paircol ntypes xi _ w Hlay Hw).
    intros Heq. apply Hne.
    apply (view_slot_inj paircol ntypes v w Hv Hw).
    injection Heq. lia.
Qed.

(** A first call for two pair columns and two atom types: [gamma] of the
    second column and [lambda[1][0][1]] are resolved to different slots. *)
Lemma views_never_alias_witness :
  (2 <= 2 /\ 0 < 2 /\ sw_init sw_start = false /\ (Sample.xi + 2)%Z <> NULL
   /\ view_valid 2 2 (V_gamma 1) /\ view_valid 2 2 (V_lambda 1 0 1))
  /\ view_addr (update_stiweb_pointers 2 2 Sample.xi sw_start) (V_gamma 1)
     <> view_addr (update_stiweb_pointers 2 2 Sample.xi sw_start)
          (V_lambda 1 0 1).
Proof.
  assert (Hnull : (Sample.xi + 2)%Z <> NULL) by (vm_compute; discriminate).
  assert (Hg : view_valid 2 2 (V_gamma 1)) by (cbn; lia).
  assert (Hl : view_valid 2 2 (V_lambda 1 0 1)) by (cbn; lia).
  split; [repeat conj_split; try assumption; try reflexivity; lia|].
  apply (views_never_alias 2 2 Sample.xi sw_start ltac:(lia) ltac:(lia)
           (or_introl (conj eq_refl Hnull)) (V_gamma 1) Hg);
    [exact Hl | discriminate].
Defined.

(** ** Leaving the loop *)

Section Leaving.
Context {D : Double} {M : Libm D} {Bd : Build} {X : Extern D}.
Implicit Types (g : globals) (c : mpi_round) (st : state).

(** The evaluation of a round keeps the two counters of the process. *)
Lemma round_eval_counters g c (xi : ptr) st :
  fcalls (snd (round_eval g c xi st)) = fcalls st
  /\ myconf (snd (round_eval g c xi st)) = myconf st.
Proof. split; reflexivity. Qed.

Lemma worker_sees_broadcast g c (flag : Z) :
  MPI = true -> myid g <> 0%Z -> seen_flag g c flag = bcast_flag c.
Proof.
  intros HM Hid. unfold seen_flag. rewrite HM.
  destruct (Z.eqb_spec (myid g) 0); [contradiction | reflexivity].
Qed.

(** A rank other than 0 leaves in the first round that brings the flag 1. *)
Lemma worker_breaks g (env : nat -> mpi_round) (xi : ptr) :
  MPI = true -> myid g <> 0%Z ->
  forall (k fuel n : nat) (flag : Z) st,
    k < fuel ->
    (forall m, n <= m < n + k -> bcast_flag (env m) <> 1%Z) ->
    bcast_flag (env (n + k)) = 1%Z ->
    exists st',
      calc_loop fuel g env n xi flag st = Some (- d1, st')%D
      /\ fcalls st' = fcalls st /\ myconf st' = myconf st.
Proof.
  intros HM Hid. induction k as [|k IH]; intros fuel n flag st Hk Hflags Hone;
    (destruct fuel as [|fuel]; [lia|]); cbn [calc_loop].
  - rewrite iteration_breaks;
      [ exists st; repeat split
      | exact HM
      | rewrite worker_sees_broadcast by assumption;
        rewrite <- (Nat.add_0_r n); exact Hone ].
  - rewrite iteration_evaluates
      by (intros _; rewrite worker_sees_broadcast by assumption;
          apply Hflags; lia).
    cbn zeta. destruct (Z.eqb_spec (myid g) 0); [contradiction|].
    destruct (IH fuel (S n) (seen_flag g (env n) flag)
                (snd (round_eval g (env n) xi st)))
      as (st' & Hrun & Hf & Hc).
    + lia.
    + intros m Hm. apply Hflags. lia.
    + replace (S n + k) with (n + S k) by lia. exact Hone.
    + exists st'. rewrite Hrun.
      destruct (round_eval_counters g (env n) xi st) as [Hf' Hc'].
      repeat split; congruence.
Qed.

(** Whatever a rank other than 0 returns, it is [-1.0]. *)
Lemma worker_returns_break g (env : nat -> mpi_round) (xi : ptr) :
  myid g <> 0%Z ->
  forall (fuel n : nat) (flag : Z) st (v : dbl) st',
    calc_loop fuel g env n xi flag st = Some (v, st') ->
    v = (- d1)%D /\ fcalls st' = fcalls st /\ myconf st' = myconf st.
Proof.
  intros Hid. induction fuel as [|fuel IH]; intros n flag st v st' Hrun;
    [discriminate Hrun|].
  cbn [calc_loop] in Hrun. unfold iteration in Hrun.
  destruct (MPI && (seen_flag g (env n) flag =? 1)%Z).
  - injection Hrun as <- <-. repeat split.
  - pose proof (round_eval_counters g (env n) xi st) as [Hf Hc].
    destruct (round_eval g (env n) xi st) as [sum st1]. cbn [snd] in Hf, Hc.
    destruct (Z.eqb_spec (myid g) 0); [contradiction|].
    destruct (IH _ _ _ _ _ Hrun) as (Hv & Hf' & Hc').
    repeat split; congruence.
Qed.

End Leaving.

(** Lines 103-114 and 424-427, in an MPI build.  Rank 0 called with flag 1
    returns [-1.0] from its first round with the state untouched: no
    clamping, no refresh of the views, no evaluation, no count of the call.
    A rank other than 0 returns in the first round whose broadcast brings
    flag 1, and whatever it returns is [-1.0], never a sum; the counter of
    calls is the one it entered with. *)
Theorem termination_returns_minus_one {D : Double} {M : Libm D} {Bd : Build}
    {X : Extern D} (g : globals) (env : nat -> mpi_round) (xi : ptr)
    (flag : Z) (st : state) (fuel : nat) :
  MPI = true ->
  (myid g = 0%Z -> flag = 1%Z ->
   calc_forces_stiweb (S fuel) g env xi flag st = Some (- d1, st)%D)
  /\ (myid g <> 0%Z ->
      (forall k, k < fuel ->
         (forall m, m < k -> bcast_flag (env m) <> 1%Z) ->
         bcast_flag (env k) = 1%Z ->
         exists st',
           calc_forces_stiweb fuel g env xi flag st = Some (- d1, st')%D
           /\ fcalls st' = fcalls st)
      /\ forall v st',
           calc_forces_stiweb fuel g env xi flag st = Some (v, st') ->
           v = (- d1)%D /\ fcalls st' = fcalls st).
Proof.
  intros HM.
  assert (Hentry : entry_state g st = st)
    by (unfold entry_state; rewrite HM; reflexivity).
  unfold calc_forces_stiweb. rewrite Hentry. split.
  - intros Hid ->. cbn [calc_loop].
    rewrite iteration_breaks; [reflexivity | exact HM |].
    unfold seen_flag. rewrite Hid, andb_false_r. reflexivity.
  - intros Hid. split.
    + intros k Hk Hflags Hone.
      destruct (worker_breaks g env xi HM Hid k fuel 0 flag st Hk)
        as (st' & Hrun & Hf & _).
      * intros m Hm. apply Hflags. lia.
      * exact Hone.
      * exists st'. split; assumption.
    + intros v st' Hrun.
      destruct (worker_returns_break g env xi Hid fuel 0 flag st v st' Hrun)
        as (Hv & Hf & _).
      split; assumption.
Qed.

(** Rank 0 of the MPI build called with flag 1 on the small configuration,
    and rank 1 when the second broadcast brings flag 1. *)
Lemma termination_returns_minus_one_witness :
  let late (n : nat) : mpi_round :=
    mk_mpi_round (D := real_double) (if Nat.eqb n 1 then 1 else 0)
      (fun h _ => h) (fun x => x) (fun b => b) in
  MPI (Build := Sample.parallel) = true
  /\ calc_forces_stiweb (D := real_double) (Bd := Sample.parallel)
       (X := Sample.idle real_double) 1 (Sample.world 0)
       (fun _ => Sample.quiet) Sample.xi 1 Sample.start
     = Some (- d1, Sample.start)%D
  /\ exists st',
       calc_forces_stiweb (D := real_double) (Bd := Sample.parallel)
         (X := Sample.idle real_double) 2 (Sample.world 1) late Sample.xi 0
         Sample.start
       = Some (- d1, st')%D.
Proof.
  cbn zeta. split; [reflexivity|]. split.
  - exact (proj1 (termination_returns_minus_one (Bd := Sample.parallel)
                    (X := Sample.idle real_double) (Sample.world 0)
                    (fun _ => Sample.quiet) Sample.xi 1 Sample.start 0
                    eq_refl) eq_refl eq_refl).
  - destruct (termination_returns_minus_one (D := real_double)
                (Bd := Sample.parallel) (X := Sample.idle real_double)
                (Sample.world 1)
                (fun n => mk_mpi_round (if Nat.eqb n 1 then 1%Z else 0%Z)
                            (fun h _ => h) (fun x => x) (fun b => b))
                Sample.xi 0 Sample.start 2 eq_refl)
      as [_ Hworker].
    destruct (Hworker ltac:(vm_compute; discriminate)) as [Hbreak _].
    destruct (Hbreak 1 ltac:(lia)) as (st' & Hrun & _).
    + intros m Hm. assert (m = 0) as -> by lia. cbn. discriminate.
    + reflexivity.
    + exists st'. exact Hrun.
Defined.

(** ** What an evaluation leaves alone *)

Section Frame.
Context {D : Double} {M : Libm D} {Bd : Build} {X : Extern D}.
Implicit Types (g : globals) (s : sw_t) (h : heap) (a : atom_t)
  (b : list dbl) (st : locals).

(** What a slot outside [conf_slots] is not. *)
Lemma outside_conf_slots g (hc j : nat) :
  ~ conf_slots g hc j ->
  j <> energy_p g + hc
  /\ (STRESS = true ->
      ~ stress_p g + 6 * hc <= j < stress_p g + 6 * hc + 6)
  /\ ~ 3 * (cnfstart g !!! hc) <= j
       < 3 * (cnfstart g !!! hc + inconf g !!! hc).
Proof. unfold conf_slots. intros H. repeat conj_split; intros ?; tauto. Qed.

Lemma frame_pair_part g s h (uf us self : bool) (hc k j : nat) nj b :
  j <> energy_p g + hc ->
  (STRESS = true -> ~ stress_p g + 6 * hc <= j < stress_p g + 6 * hc + 6) ->
  ~ k <= j < k + 3 ->
  pair_part g s h uf us hc k self nj b !!! j = b !!! j.
Proof.
  intros He Hs Hk. unfold pair_part.
  destruct (dlt _ _); [|reflexivity]. cbn zeta.
  destruct uf; [|buf_read; reflexivity].
  destruct STRESS; [specialize (Hs eq_refl); destruct us|]; cbn [andb];
    buf_read; reflexivity.
Qed.

Lemma neigh_slots_lookup a (i j : nat) :
  ~ neigh_slots a j -> i < n_neigh a ->
  ~ 3 * n_nr (at_neigh a !!! i) <= j < 3 * n_nr (at_neigh a !!! i) + 3.
Proof.
  intros Hn Hi Hj. apply Hn. exists (at_neigh a !!! i). split; [|exact Hj].
  apply list_elem_of_In, list_elem_of_lookup_total_2. exact Hi.
Qed.

Lemma frame_triple_visit g s h (us : bool) (hc k j : nat) a b
    (jk : nat * nat) :
  j <> energy_p g + hc ->
  (STRESS = true -> ~ stress_p g + 6 * hc <= j < stress_p g + 6 * hc + 6) ->
  ~ k <= j < k + 3 -> ~ neigh_slots a j ->
  fst jk < n_neigh a -> snd jk < n_neigh a ->
  triple_visit g s h us hc k a b jk !!! j = b !!! j.
Proof.
  intros He Hs Hk Hn Hj1 Hj2.
  pose proof (neigh_slots_lookup a (fst jk) j Hn Hj1) as Hl.
  pose proof (neigh_slots_lookup a (snd jk) j Hn Hj2) as Hm.
  unfold triple_visit, triple_term.
  destruct (dlt _ _); [|reflexivity].
  destruct (dlt _ _); [|reflexivity].
  destruct (deqb _ _); [reflexivity|]. cbn zeta.
  unfold triple_forces, triple_stress.
  destruct STRESS; [specialize (Hs eq_refl); destruct us|]; cbn [andb];
    buf_read; reflexivity.
Qed.

Lemma frame_jj_loop g s h (us : bool) (hc k j : nat) a b :
  j <> energy_p g + hc ->
  (STRESS = true -> ~ stress_p g + 6 * hc <= j < stress_p g + 6 * hc + 6) ->
  ~ k <= j < k + 3 -> ~ neigh_slots a j ->
  jj_loop g s h us hc k a b !!! j = b !!! j.
Proof.
  intros He Hs Hk Hn. rewrite jj_loop_pairs.
  apply (fold_left_inv (fun b' => b' !!! j = b !!! j)); [reflexivity|].
  intros b' [jj kk] Hin Hb'. apply neighbour_pairs_spec in Hin.
  rewrite frame_triple_visit; try assumption; cbn [fst snd]; lia.
Qed.

Lemma frame_neigh_loop g s h (uf us : bool) (hc i k j : nat) a b :
  j <> energy_p g + hc ->
  (STRESS = true -> ~ stress_p g + 6 * hc <= j < stress_p g + 6 * hc + 6) ->
  ~ k <= j < k + 3 ->
  fst (neigh_loop g s h uf us hc i k (b, a)) !!! j = b !!! j.
Proof.
  intros He Hs Hk. unfold neigh_loop. cbn [snd].
  apply (fold_left_inv (fun p : list dbl * atom_t => fst p !!! j = b !!! j));
    [reflexivity|].
  intros [b' a'] jj _ Hb'. cbn [fst] in *.
  rewrite frame_pair_part by assumption. exact Hb'.
Qed.

(** The refresh of the caches keeps the neighbours' atom numbers. *)
Lemma cutoff_part_nr s h (nj : neigh_t) : n_nr (cutoff_part s h nj) = n_nr nj.
Proof.
  unfold cutoff_part. destruct (dlt _ _); [|reflexivity]. cbn zeta.
  destruct (dlt _ _); reflexivity.
Qed.

Lemma neigh_slots_refreshed s h a (j : nat) :
  neigh_slots (refreshed s h a) j <-> neigh_slots a j.
Proof.
  unfold neigh_slots, refreshed. cbn [at_neigh]. split.
  - intros (n & Hin & Hj). apply in_map_iff in Hin as (n0 & <- & Hin).
    rewrite cutoff_part_nr in Hj. eauto.
  - intros (n & Hin & Hj). exists (cutoff_part s h n).
    rewrite cutoff_part_nr. split; [apply in_map; exact Hin | exact Hj].
Qed.

(** The second loop: the slot keeps its value and every atom its neighbour
    slots. *)
Lemma frame_second_loop g s h (uf us : bool) (hc j : nat) st :
  ~ conf_slots g hc j ->
  (forall i, i < inconf g !!! hc ->
     ~ neigh_slots (l_atoms st !!! (i + cnfstart g !!! hc - firstatom g)) j) ->
  l_forces (second_loop g s h uf us hc st) !!! j = l_forces st !!! j
  /\ forall idx,
       neigh_slots (l_atoms (second_loop g s h uf us hc st) !!! idx) j
       <-> neigh_slots (l_atoms st !!! idx) j.
Proof.
  intros Hc Hn. apply outside_conf_slots in Hc as (He & Hs & Hf).
  unfold second_loop.
  apply (fold_left_inv
           (fun st' =>
              l_forces st' !!! j = l_forces st !!! j
              /\ forall idx,
                   neigh_slots (l_atoms st' !!! idx) j
                   <-> neigh_slots (l_atoms st !!! idx) j));
    [split; [reflexivity | intros idx; reflexivity]|].
  intros st' i Hi [Hb Hat]. apply in_seq in Hi.
  set (atom := i + cnfstart g !!! hc - firstatom g).
  set (k := 3 * (cnfstart g !!! hc + i)).
  assert (Hk : ~ k <= j < k + 3) by (subst k; lia).
  pose proof (frame_neigh_loop g s h uf us hc i k j (l_atoms st' !!! atom)
                (l_forces st') He Hs Hk) as Hb1.
  pose proof (neigh_loop_atom g s h uf us hc i k (l_forces st')
                (l_atoms st' !!! atom)) as Ha1.
  destruct (neigh_loop g s h uf us hc i k (l_forces st', l_atoms st' !!! atom))
    as [b1 a1].
  cbn [fst snd] in Hb1, Ha1. subst a1. cbn [l_forces l_atoms].
  assert (Hn1 : ~ neigh_slots (refreshed s h (l_atoms st' !!! atom)) j).
  { rewrite neigh_slots_refreshed, Hat. apply Hn. lia. }
  split.
  - rewrite frame_jj_loop by assumption. congruence.
  - intros idx. rewrite list_lookup_total_insert.
    destruct (decide (atom = idx /\ atom < length (l_atoms st')))
      as [[<- _]|_]; [rewrite neigh_slots_refreshed|]; apply Hat.
Qed.

Lemma frame_third_loop g (uf : bool) (hc j : nat) st :
  ~ 3 * (cnfstart g !!! hc) <= j
    < 3 * (cnfstart g !!! hc + inconf g !!! hc) ->
  l_forces (third_loop g uf hc st) !!! j = l_forces st !!! j
  /\ l_atoms (third_loop g uf hc st) = l_atoms st.
Proof.
  intros Hf. unfold third_loop. destruct uf; [|split; reflexivity].
  apply (fold_left_inv
           (fun st' => l_forces st' !!! j = l_forces st !!! j
                       /\ l_atoms st' = l_atoms st));
    [split; reflexivity|].
  intros st' i Hi [Hv Hat]. apply in_seq in Hi. cbn [l_forces l_atoms].
  split; [|exact Hat].
  destruct FWEIGHT; [buf_read|]; exact Hv.
Qed.

Lemma frame_energy_contrib g (hc j : nat) st :
  j <> energy_p g + hc ->
  l_forces (energy_contrib g hc st) !!! j = l_forces st !!! j
  /\ l_atoms (energy_contrib g hc st) = l_atoms st.
Proof.
  intros He. unfold energy_contrib. cbn [l_forces l_atoms].
  split; [buf_read|]; reflexivity.
Qed.

Lemma frame_stress_contrib g (uf us : bool) (hc j : nat) st :
  (STRESS = true -> ~ stress_p g + 6 * hc <= j < stress_p g + 6 * hc + 6) ->
  l_forces (stress_contrib g uf us hc st) !!! j = l_forces st !!! j
  /\ l_atoms (stress_contrib g uf us hc st) = l_atoms st.
Proof.
  intros Hs. unfold stress_contrib.
  destruct STRESS; [specialize (Hs eq_refl)|split; reflexivity].
  destruct (uf && us); cbn [andb]; [|split; reflexivity].
  apply (fold_left_inv
           (fun st' => l_forces st' !!! j = l_forces st !!! j
                       /\ l_atoms st' = l_atoms st));
    [split; reflexivity|].
  intros st' i Hi [Hv Hat]. apply in_seq in Hi. cbn [l_forces l_atoms].
  split; [buf_read; exact Hv | exact Hat].
Qed.

Lemma frame_reset_conf g (hc j : nat) b :
  j <> energy_p g + hc ->
  (STRESS = true -> ~ stress_p g + 6 * hc <= j < stress_p g + 6 * hc + 6) ->
  reset_conf g hc b !!! j = b !!! j.
Proof.
  intros He Hs. unfold reset_conf.
  destruct STRESS; [specialize (Hs eq_refl)|buf_read; reflexivity].
  apply (fold_left_inv (fun b' => b' !!! j = b !!! j)); [buf_read; reflexivity|].
  intros b' i Hi Hb'. apply in_seq in Hi. buf_read. exact Hb'.
Qed.

Lemma frame_reset_loop g (uf : bool) (hc j : nat) b :
  ~ 3 * (cnfstart g !!! hc) <= j
    < 3 * (cnfstart g !!! hc + inconf g !!! hc) ->
  reset_loop g uf hc b !!! j = b !!! j.
Proof.
  intros Hf. unfold reset_loop.
  apply (fold_left_inv (fun b' => b' !!! j = b !!! j)); [reflexivity|].
  intros b' i Hi Hb'. apply in_seq in Hi.
  destruct uf; buf_read; exact Hb'.
Qed.

(** One configuration. *)
Lemma frame_conf_body g s h st (hc j : nat) :
  ~ conf_slots g hc j ->
  (forall i, i < inconf g !!! hc ->
     ~ neigh_slots (l_atoms st !!! (i + cnfstart g !!! hc - firstatom g)) j) ->
  l_forces (conf_body g s h st hc) !!! j = l_forces st !!! j
  /\ forall idx,
       neigh_slots (l_atoms (conf_body g s h st hc) !!! idx) j
       <-> neigh_slots (l_atoms st !!! idx) j.
Proof.
  intros Hc Hn.
  pose proof (outside_conf_slots g hc j Hc) as (He & Hs & Hf).
  unfold conf_body.
  set (uf := rdb (conf_uf g) (hc - firstconf g)).
  set (us := rdb (conf_us g) (hc - firstconf g)).
  set (st0 := mk_locals (reset_loop g uf hc (reset_conf g hc (l_forces st)))
                (l_atoms st) (l_tmpsum st) (l_atom st)).
  destruct (frame_second_loop g s h uf us hc j st0 Hc Hn) as [H2 Hat].
  destruct (frame_third_loop g uf hc j (second_loop g s h uf us hc st0) Hf)
    as [H3 Hat3].
  destruct (frame_energy_contrib g hc j
              (third_loop g uf hc (second_loop g s h uf us hc st0)) He)
    as [H4 Hat4].
  destruct (frame_stress_contrib g uf us hc j
              (energy_contrib g hc
                 (third_loop g uf hc (second_loop g s h uf us hc st0))) Hs)
    as [H5 Hat5].
  split.
  - rewrite H5, H4, H3, H2. subst st0. cbn [l_forces].
    rewrite frame_reset_loop by exact Hf. apply frame_reset_conf; assumption.
  - intros idx. rewrite Hat5, Hat4, Hat3. apply Hat.
Qed.

End Frame.

(** Lines 151-375.  The evaluation of the configurations of a process
    writes the energy slot, the stress slots (with [STRESS]) and the force
    slots of each configuration, and the force slots of the atoms its atoms
    name as neighbours; every other slot of the buffer holds afterwards what
    it held before. *)
Theorem evaluation_writes_own_slots {D : Double} {M : Libm D} {Bd : Build}
    {X : Extern D} (g : globals) (s : sw_t) (h : heap) (n : nat)
    (st : locals) (j : nat) :
  (forall hc, firstconf g <= hc < firstconf g + n ->
     ~ conf_slots g hc j
     /\ forall i, i < inconf g !!! hc ->
          ~ neigh_slots
              (l_atoms st !!! (i + cnfstart g !!! hc - firstatom g)) j) ->
  l_forces (conf_loop g s h n st) !!! j = l_forces st !!! j.
Proof.
  intros Hout. unfold conf_loop.
  apply (fold_left_inv
           (fun st' =>
              l_forces st' !!! j = l_forces st !!! j
              /\ forall idx,
                   neigh_slots (l_atoms st' !!! idx) j
                   <-> neigh_slots (l_atoms st !!! idx) j)
           (conf_body g s h) (seq (firstconf g) n) st);
    [split; [reflexivity | intros idx; reflexivity]|].
  intros st' hc Hhc [Hb Hat]. apply in_seq in Hhc.
  destruct (Hout hc Hhc) as [Hc Hn].
  destruct (frame_conf_body g s h st' hc j Hc) as [Hb' Hat'].
  - intros i Hi. rewrite Hat. apply Hn. exact Hi.
  - split; [congruence|]. intros idx. rewrite Hat'. apply Hat.
Qed.

(** Over the reals, in a build without [STRESS]: the small configuration
    does not touch slot 12, which holds a stress of it in other builds. *)
Lemma evaluation_writes_own_slots_witness :
  let Bd := Build_Build false false true false in
  let st :=
    mk_locals (D := real_double)
      (<[12 := 7%R]> Sample.buffer) [Sample.atom0; Sample.atom1; Sample.atom2]
      d0 0 in
  l_forces
    (conf_loop (Bd := Bd) (X := Sample.idle real_double) (Sample.world 0)
       Sample.views Sample.memory 1 st) !!! 12
  = 7%R.
Proof.
  cbn zeta.
  rewrite (evaluation_writes_own_slots (D := real_double)
             (Bd := Build_Build false false true false)
             (X := Sample.idle real_double) (Sample.world 0) Sample.views
             Sample.memory 1 _ 12); [reflexivity|].
  intros hc Hhc. assert (hc = 0) as -> by (cbn in Hhc; lia). split.
  - intros [H | [[H _] | H]]; [discriminate H | discriminate H | cbn in H; lia].
  - intros i Hi. cbn in Hi.
    assert (Hn : forall n : neigh_t (D := real_double),
                   n_nr n < 3 -> ~ 3 * n_nr n <= 12 < 3 * n_nr n + 3)
      by (intros n Hlt; lia).
    destruct i as [|[|[|i]]]; [| | |lia]; intros (n & Hin & Hr);
      cbn in Hin;
      (apply (Hn n);
       [repeat (destruct Hin as [<- | Hin]; [cbn; lia|]); destruct Hin
       |exact Hr]).
Defined.

(** ** What enters the local sum *)

(** Two loop bodies that agree wherever an invariant of the first holds give
    the same loop. *)
Lemma fold_left_ext_inv {A B : Type} (P : A -> Prop) (f1 f2 : A -> B -> A)
    (l : list B) (a : A) :
  P a ->
  (forall a x, In x l -> P a -> f1 a x = f2 a x /\ P (f1 a x)) ->
  fold_left f1 l a = fold_left f2 l a.
Proof.
  revert a. induction l as [|x l IH]; intros a Ha Hf; cbn; [reflexivity|].
  destruct (Hf a x (or_introl eq_refl) Ha) as [Heq HP].
  rewrite <- Heq. apply IH; [exact HP|].
  intros a' y Hy. apply Hf. right; exact Hy.
Qed.

Section SumFacts.
Context {D : Double} {M : Libm D} {Bd : Build} {X : Extern D}.
Implicit Types (g : globals) (s : sw_t) (h : heap) (st : locals).

(** The second loop adds nothing to the local sum. *)
Lemma second_loop_tmpsum g s h (uf us : bool) (hc : nat) st :
  l_tmpsum (second_loop g s h uf us hc st) = l_tmpsum st.
Proof.
  unfold second_loop.
  apply (fold_left_inv (fun st' => l_tmpsum st' = l_tmpsum st));
    [reflexivity|].
  intros st' i _ Hst'. destruct (neigh_loop _ _ _ _ _ _ _ _ _) as [b' a'].
  exact Hst'.
Qed.

(** The second loop leaves every atom's [contrib] as it was. *)
Lemma second_loop_contrib g s h (uf us : bool) (hc : nat) st (idx : nat) :
  at_contrib (l_atoms (second_loop g s h uf us hc st) !!! idx)
  = at_contrib (l_atoms st !!! idx).
Proof.
  unfold second_loop.
  apply (fold_left_inv
           (fun st' => at_contrib (l_atoms st' !!! idx)
                       = at_contrib (l_atoms st !!! idx)));
    [reflexivity|].
  intros st' i _ Hst'.
  set (atom := i + cnfstart g !!! hc - firstatom g).
  pose proof (neigh_loop_atom g s h uf us hc i
                (3 * (cnfstart g !!! hc + i)) (l_forces st')
                (l_atoms st' !!! atom)) as Ha.
  destruct (neigh_loop _ _ _ _ _ _ _ _ _) as [b' a']. cbn [snd] in Ha.
  cbn [l_atoms]. rewrite list_lookup_total_insert.
  destruct (decide (atom = idx /\ atom < length (l_atoms st'))) as [[<- _]|_];
    [rewrite Ha|]; exact Hst'.
Qed.


End SumFacts.

(** Lines 339-373.  A configuration whose [useforce] is off enters the local
    sum through its energy alone: the third loop is skipped, and so are the
    stress residuals, also when [usestress] is on for the configuration. *)
Theorem without_forces_only_energy_counts {D : Double} {M : Libm D}
    {Bd : Build} {X : Extern D} (g : globals) (s : sw_t) (h : heap)
    (st : locals) (hc : nat) :
  rdb (conf_uf g) (hc - firstconf g) = false ->
  let us := rdb (conf_us g) (hc - firstconf g) in
  let passes :=
    second_loop g s h false us hc
      (mk_locals (reset_loop g false hc (reset_conf g hc (l_forces st)))
         (l_atoms st) (l_tmpsum st) (l_atom st)) in
  conf_body g s h st hc = energy_contrib g hc passes
  /\ l_tmpsum (conf_body g s h st hc)
     = (l_tmpsum st
        + conf_weight g !!! hc * eweight g
          * dsquare (l_forces (conf_body g s h st hc)
                     !!! (energy_p g + hc)%nat))%D.
Proof.
  intros Huf. cbn zeta.
  assert (Hbody : conf_body g s h st hc
            = energy_contrib g hc
                (second_loop g s h false (rdb (conf_us g) (hc - firstconf g))
                   hc
                   (mk_locals
                      (reset_loop g false hc (reset_conf g hc (l_forces st)))
                      (l_atoms st) (l_tmpsum st) (l_atom st)))).
  { unfold conf_body. rewrite Huf. unfold stress_contrib, third_loop.
    cbn [andb]. rewrite andb_false_r. reflexivity. }
  split; [exact Hbody|].
  rewrite Hbody. unfold energy_contrib at 1. cbn [l_tmpsum].
  rewrite second_loop_tmpsum. cbn [l_tmpsum]. reflexivity.
Qed.

(** Over the reals: the small configuration with [useforce] off and
    [usestress] on. *)
Lemma without_forces_only_energy_counts_witness :
  let g :=
    mk_globals (D := real_double) 0 1 0 0 [3] [0] [false] [true] [d1] [d1]
      (replicate 16 d0) 9 10 d1 d1 1 1 in
  let st :=
    mk_locals (D := real_double) Sample.buffer
      [Sample.atom0; Sample.atom1; Sample.atom2] d0 0 in
  let r :=
    conf_body (Bd := Sample.serial) (X := Sample.idle real_double) g
      Sample.views Sample.memory st 0 in
  rdb (conf_uf g) (0 - firstconf g) = false
  /\ l_tmpsum r
     = (l_tmpsum st
        + conf_weight g !!! 0 * eweight g * dsquare (l_forces r !!! 9))%D.
Proof.
  cbn zeta. split; [reflexivity|].
  exact (proj2 (without_forces_only_energy_counts (D := real_double)
                  (Bd := Sample.serial) (X := Sample.idle real_double)
                  (mk_globals 0 1 0 0 [3] [0] [false] [true] [d1] [d1]
                     (replicate 16 d0) 9 10 d1 d1 1 1)
                  Sample.views Sample.memory
                  (mk_locals Sample.buffer
                     [Sample.atom0; Sample.atom1; Sample.atom2] d0 0)
                  0 eq_refl)).
Defined.

(** Lines 339-357 with [CONTRIB].  The third loop reads [atom->contrib]
    through the pointer the second loop left behind, so the mask of the
    last atom of the configuration decides for all its atoms: when it is
    off, no force of the configuration enters the local sum; when it is on,
    the loop does what it does in a build without [CONTRIB]. *)
Theorem contrib_mask_of_last_atom {D : Double} {M : Libm D} {Bd : Build}
    {X : Extern D} (g : globals) (s : sw_t) (h : heap) (us : bool)
    (st : locals) (hc : nat) :
  CONTRIB = true -> 0 < inconf g !!! hc ->
  let last := inconf g !!! hc - 1 + cnfstart g !!! hc - firstatom g in
  let passes := second_loop g s h true us hc st in
  (at_contrib (l_atoms st !!! last) = false ->
   l_tmpsum (third_loop g true hc passes) = l_tmpsum st)
  /\ (at_contrib (l_atoms st !!! last) = true ->
      third_loop g true hc passes
      = third_loop (Bd := Build_Build MPI STRESS FWEIGHT false) g true hc
          passes).
Proof.
  intros HC Hn. cbn zeta.
  set (passes := second_loop g s h true us hc st).
  assert (Hlast : at_contrib (l_atoms passes !!! l_atom passes)
                  = at_contrib
                      (l_atoms st
                       !!! (inconf g !!! hc - 1 + cnfstart g !!! hc
                            - firstatom g))).
  { subst passes. rewrite second_loop_atom by exact Hn.
    apply second_loop_contrib. }
  split; intros Hmask; rewrite Hmask in Hlast.
  - rewrite <- (second_loop_tmpsum g s h true us hc st). fold passes.
    unfold third_loop.
    apply (fold_left_inv
             (fun st' => l_tmpsum st' = l_tmpsum passes
                         /\ l_atoms st' = l_atoms passes
                         /\ l_atom st' = l_atom passes));
      [repeat split|].
    intros st' i _ (Hsum & Hat & Hatom).
    cbn [l_tmpsum l_atoms l_atom]. rewrite Hat, Hatom, Hlast, HC.
    cbn [negb orb]. repeat split; assumption.
  - unfold third_loop.
    apply (fold_left_ext_inv
             (fun st' : locals =>
                l_atoms st' = l_atoms passes /\ l_atom st' = l_atom passes));
      [split; reflexivity|].
    intros st' i _ (Hat & Hatom).
    cbn [l_atoms l_atom]. rewrite Hat, Hatom, Hlast, HC.
    cbn [negb orb FWEIGHT CONTRIB]. repeat split; assumption.
Qed.

(** Over the reals, in a build with [CONTRIB]: three atoms of which the last
    is masked out. *)
Lemma contrib_mask_of_last_atom_witness :
  let Bd := Build_Build false false false true in
  let masked :=
    mk_atom (D := real_double) (at_typ Sample.atom2) (at_neigh Sample.atom2)
      (at_angl_part Sample.atom2) (at_absforce Sample.atom2) false in
  let st :=
    mk_locals (D := real_double) Sample.buffer
      [Sample.atom0; Sample.atom1; masked] 5%R 0 in
  (CONTRIB (Build := Bd) = true /\ 0 < 3)
  /\ l_tmpsum
       (third_loop (Bd := Bd) (X := Sample.idle real_double) (Sample.world 0)
          true 0
          (second_loop (Bd := Bd) (Sample.world 0) Sample.views Sample.memory
             true true 0 st))
     = 5%R.
Proof.
  cbn zeta. split; [split; [reflexivity | lia]|].
  exact (proj1 (contrib_mask_of_last_atom (D := real_double)
                  (Bd := Build_Build false false false true)
                  (X := Sample.idle real_double) (Sample.world 0)
                  Sample.views Sample.memory true
                  (mk_locals (D := real_double) Sample.buffer
                     [Sample.atom0; Sample.atom1;
                      mk_atom (at_typ Sample.atom2) (at_neigh Sample.atom2)
                        (at_angl_part Sample.atom2)
                        (at_absforce Sample.atom2) false] 5%R 0)
                  0 eq_refl ltac:(cbn; lia)) eq_refl).
Defined.

(** ** The caches of the neighbour list *)

(** Related lists give related reads, also outside the lists. *)
Lemma Forall2_lookup_total {A : Type} `{Inhabited A} (R : A -> A -> Prop)
    (l1 l2 : list A) (i : nat) :
  Forall2 R l1 l2 -> R inhabitant inhabitant -> R (l1 !!! i) (l2 !!! i).
Proof.
  intros HF Hd. rewrite !list_lookup_total_alt.
  destruct (l1 !! i) as [x|] eqn:H1.
  - destruct (Forall2_lookup_l R l1 l2 i x HF H1) as (y & -> & Hxy).
    exact Hxy.
  - apply lookup_ge_None in H1. rewrite (Forall2_length _ _ _ HF) in H1.
    apply lookup_ge_None in H1. rewrite H1. exact Hd.
Qed.

Section Caches.
Context {D : Double} {M : Libm D} {Bd : Build} {X : Extern D}.
Implicit Types (g : globals) (s : sw_t) (h : heap) (b : list dbl)
  (n : neigh_t) (a : atom_t) (st : locals).

Lemma cache_free_refl n : cache_free n n.
Proof. reflexivity. Qed.

Lemma atom_rel_refl (R : neigh_t -> neigh_t -> Prop) a :
  (forall n, R n n) -> atom_rel R a a.
Proof.
  intros HR. unfold atom_rel. repeat conj_split; try reflexivity.
  induction (at_neigh a); constructor; auto.
Qed.

Lemma atom_rel_impl (R R' : neigh_t -> neigh_t -> Prop) a1 a2 :
  (forall n1 n2, R n1 n2 -> R' n1 n2) -> atom_rel R a1 a2 -> atom_rel R' a1 a2.
Proof.
  intros HR (Ht & Ha & Hw & Hc & Hn). unfold atom_rel.
  repeat conj_split; try assumption.
  eapply Forall2_impl; [exact Hn | exact HR].
Qed.

(** The pair part does not read the caches. *)
Lemma pair_part_cache_free g s h (uf us self : bool) (hc k : nat) n1 n2 b :
  cache_free n1 n2 ->
  pair_part g s h uf us hc k self n1 b = pair_part g s h uf us hc k self n2 b
  /\ n_nr n1 = n_nr n2.
Proof.
  unfold cache_free, forget_cache. destruct n1, n2. cbn. intros Heq.
  injection Heq as -> -> -> -> -> -> -> ->. split; reflexivity.
Qed.

(** The refresh overwrites the caches inside the cutoff. *)
Lemma cutoff_part_fresh s h n1 n2 :
  cache_free n1 n2 -> fresh s h (cutoff_part s h n1) (cutoff_part s h n2).
Proof.
  unfold fresh, cache_free, forget_cache. destruct n1, n2. cbn. intros Heq.
  injection Heq as -> -> -> -> -> -> -> ->.
  unfold cutoff_part. cbn.
  destruct (dlt _ _) eqn:Hin; cbn; [destruct (dlt _ _); cbn|];
    (split; [reflexivity|]); try reflexivity.
  rewrite Hin. discriminate.
Qed.

(** The neighbour loop on two atoms that differ in their caches. *)
Lemma neigh_loop_cache_free g s h (uf us : bool) (hc i k : nat) b a1 a2 :
  atom_rel cache_free a1 a2 ->
  fst (neigh_loop g s h uf us hc i k (b, a1))
  = fst (neigh_loop g s h uf us hc i k (b, a2))
  /\ atom_rel (fresh s h) (snd (neigh_loop g s h uf us hc i k (b, a1)))
       (snd (neigh_loop g s h uf us hc i k (b, a2))).
Proof.
  intros Hrel. split.
  - unfold neigh_loop. cbn [snd].
    assert (Hlen : n_neigh a1 = n_neigh a2)
      by (destruct Hrel as (_ & _ & _ & _ & Hn);
          exact (Forall2_length _ _ _ Hn)).
    rewrite Hlen.
    apply (fold_left_rel
             (fun p1 p2 : list dbl * atom_t =>
                fst p1 = fst p2 /\ atom_rel cache_free (snd p1) (snd p2)));
      [split; [reflexivity | exact Hrel]|].
    intros [b1 u1] [b2 u2] j _ [Hb (Ht & Ha & Hw & Hc & Hn)].
    cbn [fst snd] in *. subst b2.
    pose proof (Forall2_lookup_total cache_free _ _ j Hn
                  (cache_free_refl inhabitant)) as Hj.
    destruct (pair_part_cache_free g s h uf us
                (Nat.eqb (n_nr (at_neigh u1 !!! j)) (i + cnfstart g !!! hc))
                hc k _ _ b1 Hj) as [Hpair Hnr].
    split.
    + rewrite <- Hnr. exact Hpair.
    + unfold atom_rel. cbn [at_typ at_neigh at_angl_part at_absforce at_contrib].
      repeat conj_split; try assumption.
      apply Forall2_insert; [exact Hn|].
      apply (cutoff_part_fresh s h _ _ Hj).
  - rewrite !neigh_loop_atom. destruct Hrel as (Ht & Ha & Hw & Hc & Hn).
    unfold atom_rel, refreshed.
    cbn [at_typ at_neigh at_angl_part at_absforce at_contrib].
    repeat conj_split; try assumption.
    change (Forall2 (fresh s h) (cutoff_part s h <$> at_neigh a1)
              (cutoff_part s h <$> at_neigh a2)).
    apply Forall2_fmap. eapply Forall2_impl; [exact Hn|].
    intros n1 n2. apply cutoff_part_fresh.
Qed.

(** A visit reads the caches of neighbours inside the cutoff only. *)
Lemma triple_visit_fresh g s h (us : bool) (hc k : nat) a1 a2 b
    (jk : nat * nat) :
  atom_rel (fresh s h) a1 a2 ->
  triple_visit g s h us hc k a1 b jk = triple_visit g s h us hc k a2 b jk.
Proof.
  intros (Ht & Ha & _ & _ & Hn).
  assert (Hd : fresh s h inhabitant inhabitant)
    by (split; [reflexivity | intros _; reflexivity]).
  pose proof (Forall2_lookup_total (fresh s h) _ _ (fst jk) Hn Hd) as [Hj Hj'].
  pose proof (Forall2_lookup_total (fresh s h) _ _ (snd jk) Hn Hd) as [Hk Hk'].
  unfold triple_visit, triple_term. rewrite <- Ht, <- Ha.
  revert Hj Hj' Hk Hk'.
  generalize (at_neigh a1 !!! fst jk) (at_neigh a2 !!! fst jk)
    (at_neigh a1 !!! snd jk) (at_neigh a2 !!! snd jk).
  intros nj1 nj2 nk1 nk2 Hj Hj' Hk Hk'.
  assert (Hrj : n_r nj2 = n_r nj1 /\ n_col0 nj2 = n_col0 nj1).
  { unfold cache_free, forget_cache in Hj. injection Hj. intros. split; congruence. }
  assert (Hrk : n_r nk2 = n_r nk1 /\ n_col0 nk2 = n_col0 nk1).
  { unfold cache_free, forget_cache in Hk. injection Hk. intros. split; congruence. }
  destruct Hrj as [-> ->], Hrk as [-> ->].
  destruct (dlt (n_r nj1) _) eqn:Ej; [|reflexivity].
  destruct (dlt (n_r nk1) _) eqn:Ek; [|reflexivity].
  rewrite <- (Hj' eq_refl), <- (Hk' eq_refl). reflexivity.
Qed.

Lemma jj_loop_fresh g s h (us : bool) (hc k : nat) a1 a2 b :
  atom_rel (fresh s h) a1 a2 ->
  jj_loop g s h us hc k a1 b = jj_loop g s h us hc k a2 b.
Proof.
  intros Hrel. rewrite !jj_loop_pairs.
  assert (Hlen : n_neigh a1 = n_neigh a2)
    by (destruct Hrel as (_ & _ & _ & _ & Hn);
        exact (Forall2_length _ _ _ Hn)).
  rewrite Hlen. apply fold_left_ext_in. intros b' jk _.
  apply triple_visit_fresh. exact Hrel.
Qed.

(** The loops over the atoms of a configuration. *)
Lemma second_loop_cache_free g s h (uf us : bool) (hc : nat) st1 st2 :
  locals_but_caches st1 st2 ->
  locals_but_caches (second_loop g s h uf us hc st1)
    (second_loop g s h uf us hc st2).
Proof.
  intros H. unfold second_loop. apply fold_left_rel; [exact H|].
  intros u1 u2 i _ (Hb' & Hsum' & _ & Hat').
  set (atom := i + cnfstart g !!! hc - firstatom g).
  set (k := 3 * (cnfstart g !!! hc + i)).
  pose proof (Forall2_lookup_total (atom_rel cache_free) _ _ atom Hat'
                (atom_rel_refl cache_free inhabitant cache_free_refl)) as Ha.
  destruct (neigh_loop_cache_free g s h uf us hc i k (l_forces u1) _ _ Ha)
    as [Hn1 Hn2].
  rewrite <- Hb'.
  destruct (neigh_loop g s h uf us hc i k (l_forces u1, l_atoms u1 !!! atom))
    as [c1 v1].
  destruct (neigh_loop g s h uf us hc i k (l_forces u1, l_atoms u2 !!! atom))
    as [c2 v2].
  cbn [fst snd] in Hn1, Hn2. subst c2.
  unfold locals_but_caches. cbn [l_forces l_atoms l_tmpsum l_atom].
  repeat conj_split; [| exact Hsum' | reflexivity |].
  - apply jj_loop_fresh. exact Hn2.
  - apply Forall2_insert; [exact Hat'|].
    eapply atom_rel_impl; [|exact Hn2]. intros n1 n2 [Hcf _]. exact Hcf.
Qed.

Lemma third_loop_cache_free g (uf : bool) (hc : nat) st1 st2 :
  locals_but_caches st1 st2 ->
  locals_but_caches (third_loop g uf hc st1) (third_loop g uf hc st2).
Proof.
  intros H. unfold third_loop. destruct uf; [|exact H].
  apply fold_left_rel; [exact H|].
  intros u1 u2 i _ (Hb' & Hsum' & Hatom' & Hat').
  pose proof (Forall2_lookup_total (atom_rel cache_free) _ _ (l_atom u1) Hat'
                (atom_rel_refl cache_free inhabitant cache_free_refl))
    as (_ & _ & Hw & Hc & _).
  unfold locals_but_caches. cbn [l_forces l_atoms l_tmpsum l_atom].
  rewrite <- Hatom', <- Hb', <- Hsum', <- Hw, <- Hc.
  repeat conj_split; try reflexivity. exact Hat'.
Qed.

Lemma energy_contrib_cache_free g (hc : nat) st1 st2 :
  locals_but_caches st1 st2 ->
  locals_but_caches (energy_contrib g hc st1) (energy_contrib g hc st2).
Proof.
  intros (Hb & Hsum & Hatom & Hat).
  unfold locals_but_caches, energy_contrib.
  cbn [l_forces l_atoms l_tmpsum l_atom]. rewrite <- Hb, <- Hsum, <- Hatom.
  repeat conj_split; try reflexivity. exact Hat.
Qed.

Lemma stress_contrib_cache_free g (uf us : bool) (hc : nat) st1 st2 :
  locals_but_caches st1 st2 ->
  locals_but_caches (stress_contrib g uf us hc st1)
    (stress_contrib g uf us hc st2).
Proof.
  intros H. unfold stress_contrib.
  destruct (STRESS && (uf && us)); [|exact H].
  apply fold_left_rel; [exact H|].
  intros u1 u2 i _ (Hb & Hsum & Hatom & Hat).
  unfold locals_but_caches. cbn [l_forces l_atoms l_tmpsum l_atom].
  rewrite <- Hb, <- Hsum, <- Hatom.
  repeat conj_split; try reflexivity. exact Hat.
Qed.

(** One configuration. *)
Lemma conf_body_cache_free g s h (hc : nat) st1 st2 :
  locals_but_caches st1 st2 ->
  locals_but_caches (conf_body g s h st1 hc) (conf_body g s h st2 hc).
Proof.
  intros (Hb & Hsum & Hatom & Hat). unfold conf_body.
  apply stress_contrib_cache_free, energy_contrib_cache_free,
    third_loop_cache_free, second_loop_cache_free.
  unfold locals_but_caches. cbn [l_forces l_atoms l_tmpsum l_atom].
  rewrite <- Hb. repeat conj_split; try assumption. reflexivity.
Qed.

End Caches.

(** Lines 236-331.  The cutoff caches [f] and [df] of the neighbour list are
    written before they are read: two evaluations that start from atoms
    which differ at most in these caches (left from an earlier vector, say)
    give the same buffer and the same local sum, and atoms that again differ
    at most in the caches. *)
Theorem caches_written_before_read {D : Double} {M : Libm D} {Bd : Build}
    {X : Extern D} (g : globals) (s : sw_t) (h : heap) (n : nat)
    (b : list dbl) (atoms1 atoms2 : list atom_t) (sum : dbl) (atom : nat) :
  same_but_caches atoms1 atoms2 ->
  let r1 := conf_loop g s h n (mk_locals b atoms1 sum atom) in
  let r2 := conf_loop g s h n (mk_locals b atoms2 sum atom) in
  l_forces r1 = l_forces r2 /\ l_tmpsum r1 = l_tmpsum r2
  /\ same_but_caches (l_atoms r1) (l_atoms r2).
Proof.
  intros Hat. cbn zeta. unfold conf_loop.
  destruct (fold_left_rel locals_but_caches (conf_body g s h)
              (seq (firstconf g) n) (mk_locals b atoms1 sum atom)
              (mk_locals b atoms2 sum atom))
    as (H1 & H2 & _ & H4).
  - unfold locals_but_caches. cbn [l_forces l_atoms l_tmpsum l_atom].
    repeat conj_split; try reflexivity. exact Hat.
  - intros u1 u2 hc _. apply conf_body_cache_free.
  - repeat conj_split; assumption.
Qed.

(** Over the reals: the small configuration with the caches of atom 0
    holding 7 and 9 instead of 1 and 0. *)
Lemma caches_written_before_read_witness :
  let stale (n : neigh_t (D := real_double)) :=
    mk_neigh (n_typ n) (n_nr n) (n_r n) (n_inv_r n) (n_dist n) (n_rdist n)
      (n_col0 n) (n_ijk_start n) 7%R 9%R in
  let atom0' :=
    mk_atom (D := real_double) 0 [stale Sample.neigh1; stale Sample.neigh2]
      [mk_angl d0] (of_int 2) true in
  let run (atoms : list atom_t) :=
    conf_loop (Bd := Sample.serial) (X := Sample.idle real_double)
      (Sample.world 0) Sample.views Sample.memory 1
      (mk_locals Sample.buffer atoms d0 0) in
  same_but_caches [Sample.atom0; Sample.atom1; Sample.atom2]
    [atom0'; Sample.atom1; Sample.atom2]
  /\ l_forces (run [Sample.atom0; Sample.atom1; Sample.atom2])
     = l_forces (run [atom0'; Sample.atom1; Sample.atom2])
  /\ l_tmpsum (run [Sample.atom0; Sample.atom1; Sample.atom2])
     = l_tmpsum (run [atom0'; Sample.atom1; Sample.atom2]).
Proof.
  cbn zeta.
  assert (Hat :
    same_but_caches (D := real_double)
      [Sample.atom0; Sample.atom1; Sample.atom2]
      [mk_atom 0
         [mk_neigh (D := real_double) (n_typ Sample.neigh1)
            (n_nr Sample.neigh1)
            (n_r Sample.neigh1) (n_inv_r Sample.neigh1)
            (n_dist Sample.neigh1) (n_rdist Sample.neigh1)
            (n_col0 Sample.neigh1) (n_ijk_start Sample.neigh1) 7%R 9%R;
          mk_neigh (D := real_double) (n_typ Sample.neigh2)
            (n_nr Sample.neigh2)
            (n_r Sample.neigh2) (n_inv_r Sample.neigh2)
            (n_dist Sample.neigh2) (n_rdist Sample.neigh2)
            (n_col0 Sample.neigh2) (n_ijk_start Sample.neigh2) 7%R 9%R]
         [mk_angl d0] (of_int 2) true;
       Sample.atom1; Sample.atom2]).
  { unfold same_but_caches, atom_rel.
    repeat first [ constructor | reflexivity | conj_split ]. }
  split; [exact Hat|].
  destruct (caches_written_before_read (Bd := Sample.serial)
              (X := Sample.idle real_double) (Sample.world 0) Sample.views
              Sample.memory 1 Sample.buffer _ _ d0 0 Hat) as (Hb & Hsum & _).
  split; [exact Hb | exact Hsum].
Defined.

(** ** The two neighbours of a triple *)

Section Exchange.
Context {D : Double} {M : Libm D} {E : Exact D}.
Local Open Scope dbl_scope.

Add Field dbl_field_exchange : dbl_field.

(** Lines 274-299.  In exact arithmetic the terms of a triple do not depend
    on which of the two neighbours is taken first: the energy is the same
    and the two force vectors change places.  The loops visit each pair
    [jj < kk] once and never the pair in the other order. *)
Theorem triple_eval_exchange (lambda : dbl) (nj nk : neigh_t) (n_angl : angl) :
  v3_val (triple_eval lambda nk nj n_angl)
  = v3_val (triple_eval lambda nj nk n_angl)
  /\ force_j (triple_eval lambda nk nj n_angl)
     = force_k (triple_eval lambda nj nk n_angl)
  /\ force_k (triple_eval lambda nk nj n_angl)
     = force_j (triple_eval lambda nj nk n_angl).
Proof.
  unfold triple_eval. cbn [v3_val force_j force_k].
  replace (n_r nk * n_r nj) with (n_r nj * n_r nk) by ring.
  repeat conj_split; [ring | f_equal; ring | f_equal; ring].
Qed.

End Exchange.

(** Over the reals: the two neighbours of atom 0 of the small
    configuration. *)
Lemma triple_eval_exchange_witness :
  force_j
    (triple_eval (D := real_double) 1%R Sample.neigh2 Sample.neigh1
       (mk_angl d0))
  = force_k
      (triple_eval (D := real_double) 1%R Sample.neigh1 Sample.neigh2
         (mk_angl d0)).
Proof.
  exact (proj1 (proj2 (triple_eval_exchange (D := real_double) 1%R
                         Sample.neigh1 Sample.neigh2 (mk_angl d0)))).
Defined.

(** * The serial call *)

Section Rounds.
Context {D : Double} {M : Libm D} {Bd : Build} {X : Extern D}.
Implicit Types (g : globals) (s : sw_t) (h : heap) (st : locals).









End Rounds.


